(** * A model of the reference-counted [shared_ptr] / [weak_ptr] library

    The development embeds [src/shared-ptr.h] and [src/shared_ptr.cpp]:
    the control block with its two [size_t] counters, the strong and the
    weak pointer classes and [make_shared].  C++ objects are kept in an
    explicit machine state: a heap of control blocks, the pointer objects
    that are alive (keyed by the address of the object, which is what
    [this == &other] compares), and a log of the observable destruction
    events.  Member functions are written in a small state/exception monad
    whose outcomes are: normal return, a propagating exception,
    [std::terminate], and undefined behaviour.

    The library calls code of its user in three places: the deleter or the
    destructor of the payload in [delete_object()], the destructor of the
    deleter in [delete this], and the constructors of the deleter and of
    the payload when a block is built.  The member functions are first
    given for user code that does not call the library back; the module
    [Reentrant] gives them again with user code that does, and
    [agrees_run] relates the two. *)

From Stdlib Require Import ZArith Lia.
From stdpp Require Import gmap list fin_maps.

Local Open Scope Z_scope.

(** ** Machine integers *)

(** [size_t] is 64 bits wide and [int] is 32 bits wide (LP64 / LLP64).
    Arithmetic on [size_t] wraps modulo 2^64.  A conversion to [int] of a
    value that does not fit wraps modulo 2^32 into the two's complement
    range: what C++20 prescribes and what the usual compilers did before
    (where the result was implementation-defined). *)
Definition SIZE_MOD : Z := 2 ^ 64.
Definition INT_MOD : Z := 2 ^ 32.
Definition INT_MAX : Z := 2 ^ 31 - 1.

Definition to_size_t (z : Z) : Z := z mod SIZE_MOD.

Definition to_int (z : Z) : Z :=
  let r := z mod INT_MOD in
  if r <=? INT_MAX then r else r - INT_MOD.

(** ** Data *)

(** Control blocks are named by allocation identifiers, which are never
    reused; pointer objects are named by their address.  A [T*] value is an
    integer, [0] being [nullptr]. *)
Abbreviation block_id := positive (only parsing).
Abbreviation loc := positive (only parsing).
Abbreviation address := Z (only parsing).

Definition nullptr : address := 0.

(** The two concrete control blocks: [regular_control_block<T, D>] keeps
    the raw address handed to the deleter, [inplace_control_block<T>]
    embeds the object ([Inplace a]: the address of its [obj] member). *)
Inductive variant : Type :=
  | Regular (ptr : address)
  | Inplace (obj : address).

Record control_block : Type := ControlBlock {
  counter : Z;
  weak_counter : Z;
  kind : variant
}.

Record shared_ptr : Type := SharedPtr {
  sp_block : option block_id;
  sp_ptr : address
}.

Record weak_ptr : Type := WeakPtr {
  wp_block : option block_id;
  wp_ptr : address
}.

(** What the program does to the outside world. *)
Inductive event : Type :=
  | EvDeleteObject (b : block_id) (k : variant)   (* [delete_object()] ran *)
  | EvDeleteBlock (b : block_id)                  (* [delete this] ran *)
  | EvDeleter (a : address).                      (* [deleter(ptr_)] in a handler *)

Record machine : Type := Machine {
  blocks : gmap positive control_block;
  next_block : positive;
  strongs : gmap positive shared_ptr;
  weaks : gmap positive weak_ptr;
  events : list event                              (* newest first *)
}.

Definition initial : machine :=
  {| blocks := ∅; next_block := 1%positive; strongs := ∅; weaks := ∅;
     events := [] |}.

#[global] Instance variant_eq_dec : EqDecision variant.
Proof. solve_decision. Defined.
#[global] Instance event_eq_dec : EqDecision event.
Proof. solve_decision. Defined.

(** ** The monad *)

Inductive fault : Type :=
  | NullDereference       (* a member call through a null [block] *)
  | UseAfterFree          (* a member call on a deleted control block *)
  | NoSuchObject          (* the call names a pointer object that is not alive *)
  | AddressInUse          (* an object is constructed over a live one *)
  | OutOfAddressSpace.    (* an object address outside the 64-bit space *)

Inductive outcome (A : Type) : Type :=
  | Ret (a : A) (m : machine)
  | Throw (m : machine)           (* an exception leaves the function *)
  | Terminate (m : machine)       (* [std::terminate] was called *)
  | Undefined (f : fault).

Arguments Ret {A} a m.
Arguments Throw {A} m.
Arguments Terminate {A} m.
Arguments Undefined {A} f.

Definition M (A : Type) : Type := machine → outcome A.

Definition ret {A} (a : A) : M A := λ m, Ret a m.

Definition bind {A B} (c : M A) (k : A → M B) : M B :=
  λ m, match c m with
       | Ret a m' => k a m'
       | Throw m' => Throw m'
       | Terminate m' => Terminate m'
       | Undefined f => Undefined f
       end.

Notation "x <- c ;; k" := (bind c (λ x, k))
  (at level 20, c at level 99, k at level 200, only parsing).
Notation "c ;; k" := (bind c (λ _, k))
  (at level 100, k at level 200, right associativity, only parsing).

Definition throw {A} : M A := λ m, Throw m.
Definition undefined {A} (f : fault) : M A := λ _, Undefined f.

(** [try { body } catch (...) { handler }] *)
Definition try_catch {A} (body handler : M A) : M A :=
  λ m, match body m with
       | Throw m' => handler m'
       | r => r
       end.

(** A function declared [noexcept]: an exception that reaches its
    boundary calls [std::terminate]. *)
Definition noexcept {A} (body : M A) : M A :=
  λ m, match body m with
       | Throw m' => Terminate m'
       | r => r
       end.

Definition emit (e : event) : M unit :=
  λ m, Ret tt {| blocks := blocks m; next_block := next_block m;
                 strongs := strongs m; weaks := weaks m;
                 events := e :: events m |}.

(** ** Memory primitives *)

Definition set_blocks (h : gmap positive control_block) (m : machine) : machine :=
  {| blocks := h; next_block := next_block m; strongs := strongs m;
     weaks := weaks m; events := events m |}.

Definition set_strongs (s : gmap positive shared_ptr) (m : machine) : machine :=
  {| blocks := blocks m; next_block := next_block m; strongs := s;
     weaks := weaks m; events := events m |}.

Definition set_weaks (w : gmap positive weak_ptr) (m : machine) : machine :=
  {| blocks := blocks m; next_block := next_block m; strongs := strongs m;
     weaks := w; events := events m |}.

(** Reading and writing the members of the control block [b]. *)
Definition load (b : block_id) : M control_block :=
  λ m, match blocks m !! b with
       | Some cb => Ret cb m
       | None => Undefined UseAfterFree
       end.

Definition store (b : block_id) (cb : control_block) : M unit :=
  λ m, match blocks m !! b with
       | Some _ => Ret tt (set_blocks (<[b := cb]> (blocks m)) m)
       | None => Undefined UseAfterFree
       end.

(** [new regular_control_block<Y, D>(...)] / [new inplace_control_block<T>(...)]:
    [ok] tells whether the allocation succeeds; a failed one throws.  The
    base constructor is [control_block() : counter(1), weak_counter(0)]. *)
Definition new_block (ok : bool) (k : variant) : M block_id :=
  λ m, if ok then
         let b := next_block m in
         Ret b {| blocks := <[b := ControlBlock 1 0 k]> (blocks m);
                  next_block := Pos.succ b;
                  strongs := strongs m; weaks := weaks m;
                  events := events m |}
       else Throw m.

(** [delete this].  Here the destructor of the block makes no call of the
    library; [Reentrant.delete_this] runs the calls that the destructor of
    the deleter base of a regular block makes. *)
Definition delete_this (b : block_id) : M unit :=
  λ m, match blocks m !! b with
       | Some _ =>
           Ret tt {| blocks := delete b (blocks m); next_block := next_block m;
                     strongs := strongs m; weaks := weaks m;
                     events := EvDeleteBlock b :: events m |}
       | None => Undefined UseAfterFree
       end.

(** Pointer objects: the start of a lifetime at address [x], member
    access, and the end of the lifetime. *)
Definition in_address_space (x : loc) : bool := Z.pos x <? SIZE_MOD.

Definition place_sp (x : loc) (v : shared_ptr) : M unit :=
  λ m, if negb (in_address_space x) then Undefined OutOfAddressSpace
       else match strongs m !! x with
            | Some _ => Undefined AddressInUse
            | None => Ret tt (set_strongs (<[x := v]> (strongs m)) m)
            end.

Definition read_sp (x : loc) : M shared_ptr :=
  λ m, match strongs m !! x with
       | Some v => Ret v m
       | None => Undefined NoSuchObject
       end.

Definition write_sp (x : loc) (v : shared_ptr) : M unit :=
  λ m, match strongs m !! x with
       | Some _ => Ret tt (set_strongs (<[x := v]> (strongs m)) m)
       | None => Undefined NoSuchObject
       end.

Definition end_sp (x : loc) : M unit :=
  λ m, match strongs m !! x with
       | Some _ => Ret tt (set_strongs (delete x (strongs m)) m)
       | None => Undefined NoSuchObject
       end.

Definition place_wp (x : loc) (v : weak_ptr) : M unit :=
  λ m, if negb (in_address_space x) then Undefined OutOfAddressSpace
       else match weaks m !! x with
            | Some _ => Undefined AddressInUse
            | None => Ret tt (set_weaks (<[x := v]> (weaks m)) m)
            end.

Definition read_wp (x : loc) : M weak_ptr :=
  λ m, match weaks m !! x with
       | Some v => Ret v m
       | None => Undefined NoSuchObject
       end.

Definition write_wp (x : loc) (v : weak_ptr) : M unit :=
  λ m, match weaks m !! x with
       | Some _ => Ret tt (set_weaks (<[x := v]> (weaks m)) m)
       | None => Undefined NoSuchObject
       end.

Definition end_wp (x : loc) : M unit :=
  λ m, match weaks m !! x with
       | Some _ => Ret tt (set_weaks (delete x (weaks m)) m)
       | None => Undefined NoSuchObject
       end.

(** A member call [block->f()]: undefined when [block] is null. *)
Definition deref {A} (b : option block_id) (f : block_id → M A) : M A :=
  match b with
  | Some b' => f b'
  | None => undefined NullDereference
  end.

(** [if (block) { block->f(); }] *)
Definition if_block (b : option block_id) (f : block_id → M unit) : M unit :=
  match b with
  | Some b' => f b'
  | None => ret tt
  end.

(** ** [control_block] (src/shared_ptr.cpp) *)

Definition set_counter (c : Z) (cb : control_block) : control_block :=
  {| counter := c; weak_counter := weak_counter cb; kind := kind cb |}.

Definition set_weak_counter (c : Z) (cb : control_block) : control_block :=
  {| counter := counter cb; weak_counter := c; kind := kind cb |}.

(** The virtual [delete_object()]: the regular block calls its deleter on
    the stored address, the in-place block runs the destructor of the
    embedded object.  Either way this is the destruction of the payload.
    Here the deleter and the destructor make no call of the library, so
    that the destruction is only recorded; [Reentrant.delete_object] runs
    the calls that they make. *)
Definition delete_object (b : block_id) : M unit :=
  cb <- load b ;;
  emit (EvDeleteObject b (kind cb)).

Definition inc_ref (b : block_id) : M unit :=
  cb <- load b ;;
  store b (set_counter (to_size_t (counter cb + 1)) cb).

Definition dec_ref (b : block_id) : M unit :=
  cb <- load b ;;
  let c := to_size_t (counter cb - 1) in
  store b (set_counter c cb) ;;
  (if c =? 0 then delete_object b else ret tt) ;;
  cb' <- load b ;;
  if (weak_counter cb' =? 0) && (counter cb' =? 0)
  then delete_this b
  else ret tt.

Definition inc_weak_ref (b : block_id) : M unit :=
  cb <- load b ;;
  store b (set_weak_counter (to_size_t (weak_counter cb + 1)) cb).

Definition dec_weak_ref (b : block_id) : M unit :=
  cb <- load b ;;
  let c := to_size_t (weak_counter cb - 1) in
  store b (set_weak_counter c cb) ;;
  cb' <- load b ;;
  if (c =? 0) && (counter cb' =? 0)
  then delete_this b
  else ret tt.

(** [int get_strong_count()]: the [size_t] counter is returned as [int]. *)
Definition get_strong_count (b : block_id) : M Z :=
  cb <- load b ;;
  ret (to_int (counter cb)).

Definition object_deleted (b : block_id) : M bool :=
  cb <- load b ;;
  ret (counter cb =? 0).

(** ** [shared_ptr<T>] (src/shared-ptr.h) *)

Definition null_sp : shared_ptr := SharedPtr None nullptr.
Definition null_wp : weak_ptr := WeakPtr None nullptr.

(** [shared_ptr() noexcept {}] and [shared_ptr(std::nullptr_t) noexcept {}]:
    both members keep their default initialiser [nullptr]. *)
Definition sp_default (this : loc) : M unit :=
  place_sp this null_sp.

Definition sp_nullptr (this : loc) : M unit :=
  place_sp this null_sp.

(** [explicit shared_ptr(Y* ptr_, D&& deleter = D()) noexcept] *)
Definition sp_raw (this : loc) (ptr_ : address) (alloc_ok : bool) : M unit :=
  noexcept
    (place_sp this null_sp ;;
     try_catch
       (b <- new_block alloc_ok (Regular ptr_) ;;
        write_sp this (SharedPtr (Some b) ptr_))
       (emit (EvDeleter ptr_) ;;
        throw)).

(** [shared_ptr(const shared_ptr<Y>& r, T* ptr_) noexcept] *)
Definition sp_alias (this r : loc) (ptr_ : address) : M unit :=
  noexcept
    (rv <- read_sp r ;;
     place_sp this (SharedPtr (sp_block rv) ptr_) ;;
     deref (sp_block rv) inc_ref).

(** [shared_ptr(const shared_ptr& other) noexcept] *)
Definition sp_copy (this other : loc) : M unit :=
  noexcept
    (o <- read_sp other ;;
     place_sp this (SharedPtr (sp_block o) (sp_ptr o)) ;;
     if_block (sp_block o) inc_ref).

(** [shared_ptr(shared_ptr&& other) noexcept] *)
Definition sp_move (this other : loc) : M unit :=
  noexcept
    (o <- read_sp other ;;
     place_sp this (SharedPtr (sp_block o) (sp_ptr o)) ;;
     write_sp other null_sp).

(** [void swap(shared_ptr<T>& other) noexcept]: both members are swapped. *)
Definition sp_swap (this other : loc) : M unit :=
  noexcept
    (t <- read_sp this ;;
     o <- read_sp other ;;
     write_sp this o ;;
     write_sp other t).

(** [~shared_ptr()], after which the object at [this] is gone. *)
Definition sp_dtor (this : loc) : M unit :=
  t <- read_sp this ;;
  if_block (sp_block t) dec_ref ;;
  end_sp this.

(** [shared_ptr& operator=(const shared_ptr& other) noexcept]; [tmp] is
    where the temporary [shared_ptr<T>(other)] lives. *)
Definition sp_copy_assign (this other tmp : loc) : M unit :=
  noexcept
    (if decide (this = other) then ret tt
     else
       sp_copy tmp other ;;
       sp_swap tmp this ;;
       sp_dtor tmp).

(** [shared_ptr& operator=(shared_ptr&& other) noexcept] *)
Definition sp_move_assign (this other tmp : loc) : M unit :=
  noexcept
    (sp_move tmp other ;;
     sp_swap tmp this ;;
     sp_dtor tmp).

(** [operator shared_ptr<Y>() noexcept]; [cast] is [static_cast<Y*>] and
    [result] is where the returned pointer is constructed, by the private
    two-argument constructor that only initialises [block] and [ptr]. *)
Definition sp_convert (this result : loc) (cast : address → address) : M unit :=
  noexcept
    (t <- read_sp this ;;
     place_sp result (SharedPtr (sp_block t) (cast (sp_ptr t))) ;;
     deref (sp_block t) inc_ref).

(** [T* get() const noexcept] and [operator bool], on the value of a pointer. *)
Definition get (p : shared_ptr) : address := sp_ptr p.

Definition operator_bool (p : shared_ptr) : bool := negb (get p =? nullptr).

Definition sp_get (this : loc) : M address :=
  t <- read_sp this ;;
  ret (get t).

(** [std::size_t use_count() const noexcept]: the conditional expression
    has type [int] and is converted to [size_t] by the return. *)
Definition use_count (this : loc) : M Z :=
  t <- read_sp this ;;
  match sp_block t with
  | None => ret (to_size_t 0)
  | Some b => c <- get_strong_count b ;; ret (to_size_t c)
  end.

(** [void reset() noexcept] *)
Definition sp_reset (this tmp : loc) : M unit :=
  noexcept
    (sp_default tmp ;;
     sp_swap tmp this ;;
     sp_dtor tmp).

(** [void reset(X* new_ptr, D&& deleter = D()) noexcept] *)
Definition sp_reset_raw (this : loc) (new_ptr : address) (alloc_ok : bool)
    (tmp : loc) : M unit :=
  noexcept
    (sp_raw tmp new_ptr alloc_ok ;;
     sp_swap tmp this ;;
     sp_dtor tmp).

(** [make_shared<T>(args...)]: one [inplace_control_block<T>] is allocated
    and the private constructor from an in-place block takes the
    address of the embedded object from it. *)
Definition variant_address (k : variant) : address :=
  match k with
  | Regular a => a
  | Inplace a => a
  end.

Definition inplace_get (b : block_id) : M address :=
  cb <- load b ;;
  ret (variant_address (kind cb)).

Definition make_shared (result : loc) (obj : address) (alloc_ok : bool) : M unit :=
  b <- new_block alloc_ok (Inplace obj) ;;
  a <- inplace_get b ;;
  place_sp result (SharedPtr (Some b) a).

(** The comparison operators, which only look at [get()]. *)
Definition sp_eq (a b : shared_ptr) : bool := get a =? get b.
Definition sp_ne (a b : shared_ptr) : bool := negb (get a =? get b).
Definition nullptr_eq_sp (b : shared_ptr) : bool := get b =? nullptr.
Definition sp_eq_nullptr (a : shared_ptr) : bool := get a =? nullptr.
Definition nullptr_ne_sp (b : shared_ptr) : bool := negb (get b =? nullptr).
Definition sp_ne_nullptr (a : shared_ptr) : bool := negb (get a =? nullptr).

(** ** [weak_ptr<T>] *)

(** [weak_ptr() noexcept {}] *)
Definition wp_default (this : loc) : M unit :=
  place_wp this null_wp.

(** [weak_ptr(const weak_ptr<T>& other) noexcept] *)
Definition wp_copy (this other : loc) : M unit :=
  noexcept
    (o <- read_wp other ;;
     place_wp this (WeakPtr (wp_block o) (wp_ptr o)) ;;
     if_block (wp_block o) inc_weak_ref).

(** [weak_ptr(weak_ptr<T>&& other) noexcept] *)
Definition wp_move (this other : loc) : M unit :=
  noexcept
    (o <- read_wp other ;;
     place_wp this (WeakPtr (wp_block o) (wp_ptr o)) ;;
     write_wp other null_wp).

(** [weak_ptr(const shared_ptr<T>& other) noexcept] *)
Definition wp_from_shared (this other : loc) : M unit :=
  noexcept
    (o <- read_sp other ;;
     place_wp this (WeakPtr (sp_block o) (sp_ptr o)) ;;
     if_block (sp_block o) inc_weak_ref).

(** [void swap(weak_ptr<T>& other) noexcept] *)
Definition wp_swap (this other : loc) : M unit :=
  noexcept
    (t <- read_wp this ;;
     o <- read_wp other ;;
     write_wp this o ;;
     write_wp other t).

(** [~weak_ptr()] *)
Definition wp_dtor (this : loc) : M unit :=
  t <- read_wp this ;;
  if_block (wp_block t) dec_weak_ref ;;
  end_wp this.

(** [weak_ptr& operator=(const weak_ptr<T>& other) noexcept] *)
Definition wp_copy_assign (this other tmp : loc) : M unit :=
  noexcept
    (if decide (other = this) then ret tt
     else
       wp_copy tmp other ;;
       wp_swap this tmp ;;
       wp_dtor tmp).

(** [weak_ptr& operator=(weak_ptr<T>&& other) noexcept] *)
Definition wp_move_assign (this other tmp : loc) : M unit :=
  noexcept
    (wp_move tmp other ;;
     wp_swap tmp this ;;
     wp_dtor tmp).

(** [weak_ptr& operator=(const shared_ptr<T>& other) noexcept] *)
Definition wp_assign_shared (this other tmp : loc) : M unit :=
  noexcept
    (wp_from_shared tmp other ;;
     wp_swap this tmp ;;
     wp_dtor tmp).

(** [shared_ptr<T> lock() const noexcept]; the returned pointer is
    constructed at [result]. *)
Definition lock (this result : loc) : M unit :=
  noexcept
    (w <- read_wp this ;;
     expired <- match wp_block w with
                | None => ret true
                | Some b => object_deleted b
                end ;;
     if (expired : bool) then sp_default result
     else
       deref (wp_block w) inc_ref ;;
       place_sp result (SharedPtr (wp_block w) (wp_ptr w))).

(** ** Programs: sequences of calls *)

Inductive op : Type :=
  | SpDefault (this : loc)
  | SpNullptr (this : loc)
  | SpRaw (this : loc) (ptr_ : address) (alloc_ok : bool)
  | SpAlias (this r : loc) (ptr_ : address)
  | SpCopy (this other : loc)
  | SpMove (this other : loc)
  | SpCopyAssign (this other tmp : loc)
  | SpMoveAssign (this other tmp : loc)
  | SpConvert (this result : loc) (cast : address → address)
  | SpSwap (this other : loc)
  | SpReset (this tmp : loc)
  | SpResetRaw (this : loc) (new_ptr : address) (alloc_ok : bool) (tmp : loc)
  | SpDtor (this : loc)
  | MakeShared (result : loc) (obj : address) (alloc_ok : bool)
  | WpDefault (this : loc)
  | WpCopy (this other : loc)
  | WpMove (this other : loc)
  | WpFromShared (this other : loc)
  | WpCopyAssign (this other tmp : loc)
  | WpMoveAssign (this other tmp : loc)
  | WpAssignShared (this other tmp : loc)
  | WpSwap (this other : loc)
  | WpLock (this result : loc)
  | WpDtor (this : loc).

Definition step (o : op) : M unit :=
  match o with
  | SpDefault x => sp_default x
  | SpNullptr x => sp_nullptr x
  | SpRaw x a ok => sp_raw x a ok
  | SpAlias x r a => sp_alias x r a
  | SpCopy x y => sp_copy x y
  | SpMove x y => sp_move x y
  | SpCopyAssign x y t => sp_copy_assign x y t
  | SpMoveAssign x y t => sp_move_assign x y t
  | SpConvert x r c => sp_convert x r c
  | SpSwap x y => sp_swap x y
  | SpReset x t => sp_reset x t
  | SpResetRaw x a ok t => sp_reset_raw x a ok t
  | SpDtor x => sp_dtor x
  | MakeShared r a ok => make_shared r a ok
  | WpDefault x => wp_default x
  | WpCopy x y => wp_copy x y
  | WpMove x y => wp_move x y
  | WpFromShared x y => wp_from_shared x y
  | WpCopyAssign x y t => wp_copy_assign x y t
  | WpMoveAssign x y t => wp_move_assign x y t
  | WpAssignShared x y t => wp_assign_shared x y t
  | WpSwap x y => wp_swap x y
  | WpLock x r => lock x r
  | WpDtor x => wp_dtor x
  end.

Fixpoint run (p : list op) : M unit :=
  match p with
  | [] => ret tt
  | o :: p' => step o ;; run p'
  end.

(** ** Payloads and deleters that use the library *)

(** The member functions above take the deleter and the destructor of the
    payload to be code that does not come back to the library: there
    [delete_object] and [delete_this] only record that they ran.  In the
    source three places run code of the user: [delete_object()] calls the
    deleter of a regular block or the destructor of the embedded object,
    [delete this] destroys the deleter base [D] of a regular block, and the
    constructors of the two blocks run the move constructor of [D] and the
    constructor of the embedded object.  Such code may own [shared_ptr]
    and [weak_ptr] objects, typically as members, and then it calls the
    library in the middle of [dec_ref] or [dec_weak_ref].

    The code of the user is given by the library calls that it makes, in
    order. *)
Record user : Type := User {
  (* while the block is constructed: the moves of the deleter into the
     base [D] ([Regular]), the constructor of the embedded object
     ([Inplace]) *)
  on_construct : variant → list op;
  (* the call of the deleter on the stored address, which for
     [std::default_delete] is the destructor of the object ([Regular]);
     the destructor of the embedded object ([Inplace]) *)
  on_delete_object : variant → list op;
  (* the destructor of the deleter base of the regular block that was
     built over the given raw address *)
  on_delete_this : address → list op
}.

(** User code that never calls the library. *)
Definition quiet (U : user) : Prop :=
  (∀ k, on_construct U k = []) ∧
  (∀ k, on_delete_object U k = []) ∧
  (∀ a, on_delete_this U a = []).

Definition no_calls : user := User (λ _, []) (λ _, []) (λ _, []).

(** The storage of a block whose constructor threw is given back by the
    [new] expression. *)
Definition unalloc (b : block_id) : M unit :=
  λ m, Ret tt (set_blocks (delete b (blocks m)) m).

Module Reentrant.

(** Calls nest: the library calls user code, which calls the library.
    [None] says that the nesting went deeper than the bound that was
    given. *)
Definition N (A : Type) : Type := machine → option (outcome A).

Definition lift {A} (c : M A) : N A := λ m, Some (c m).

Definition retN {A} (a : A) : N A := lift (ret a).

Definition throwN {A} : N A := lift throw.

Definition bindN {A B} (c : N A) (k : A → N B) : N B :=
  λ m, match c m with
       | Some (Ret a m') => k a m'
       | Some (Throw m') => Some (Throw m')
       | Some (Terminate m') => Some (Terminate m')
       | Some (Undefined f) => Some (Undefined f)
       | None => None
       end.

Notation "x <~ c ;; k" := (bindN c (λ x, k))
  (at level 20, c at level 99, k at level 200, only parsing).
Notation "c ;;; k" := (bindN c (λ _, k))
  (at level 100, k at level 200, right associativity, only parsing).

Definition try_catchN {A} (body handler : N A) : N A :=
  λ m, match body m with
       | Some (Throw m') => handler m'
       | r => r
       end.

Definition noexceptN {A} (body : N A) : N A :=
  λ m, match body m with
       | Some (Throw m') => Some (Terminate m')
       | r => r
       end.

Definition if_blockN (b : option block_id) (f : block_id → N unit) : N unit :=
  match b with
  | Some b' => f b'
  | None => retN tt
  end.

Section calls.

Variable U : user.

(** The code of the user, run one level of nesting further down. *)
Variable exec : list op → N unit.

(** The constructor of a block, after the allocation and the base
    constructor [control_block()]: when the code of the user throws, the
    storage is given back and the exception goes on. *)
Definition construct (b : block_id) (k : variant) : N unit :=
  try_catchN (exec (on_construct U k)) (lift (unalloc b) ;;; throwN).

(** The virtual [delete_object()].  The deleter of the regular block is a
    call operator, which may throw; the in-place block calls a destructor,
    which is [noexcept]. *)
Definition delete_object (b : block_id) : N unit :=
  cb <~ lift (load b) ;;
  lift (emit (EvDeleteObject b (kind cb))) ;;;
  match kind cb with
  | Regular _ => exec (on_delete_object U (kind cb))
  | Inplace _ => noexceptN (exec (on_delete_object U (kind cb)))
  end.

(** [delete this]: the destructor of the block runs, for a regular block
    that of its deleter base, and then the storage is released. *)
Definition delete_this (b : block_id) : N unit :=
  cb <~ lift (load b) ;;
  match kind cb with
  | Regular a => noexceptN (exec (on_delete_this U a))
  | Inplace _ => retN tt
  end ;;;
  lift (delete_this b).

Definition dec_ref (b : block_id) : N unit :=
  cb <~ lift (load b) ;;
  let c := to_size_t (counter cb - 1) in
  lift (store b (set_counter c cb)) ;;;
  (if c =? 0 then delete_object b else retN tt) ;;;
  cb' <~ lift (load b) ;;
  if (weak_counter cb' =? 0) && (counter cb' =? 0)
  then delete_this b
  else retN tt.

Definition dec_weak_ref (b : block_id) : N unit :=
  cb <~ lift (load b) ;;
  let c := to_size_t (weak_counter cb - 1) in
  lift (store b (set_weak_counter c cb)) ;;;
  cb' <~ lift (load b) ;;
  if (c =? 0) && (counter cb' =? 0)
  then delete_this b
  else retN tt.

(** [~shared_ptr()] and [~weak_ptr()]; destructors are [noexcept]. *)
Definition sp_dtor (this : loc) : N unit :=
  noexceptN
    (t <~ lift (read_sp this) ;;
     if_blockN (sp_block t) dec_ref ;;;
     lift (end_sp this)).

Definition wp_dtor (this : loc) : N unit :=
  noexceptN
    (t <~ lift (read_wp this) ;;
     if_blockN (wp_block t) dec_weak_ref ;;;
     lift (end_wp this)).

(** [explicit shared_ptr(Y* ptr_, D&& deleter = D()) noexcept]; the
    handler calls the deleter on [ptr_]. *)
Definition sp_raw (this : loc) (ptr_ : address) (alloc_ok : bool) : N unit :=
  noexceptN
    (lift (place_sp this null_sp) ;;;
     try_catchN
       (b <~ lift (new_block alloc_ok (Regular ptr_)) ;;
        construct b (Regular ptr_) ;;;
        lift (write_sp this (SharedPtr (Some b) ptr_)))
       (lift (emit (EvDeleter ptr_)) ;;;
        exec (on_delete_object U (Regular ptr_)) ;;;
        throwN)).

Definition make_shared (result : loc) (obj : address) (alloc_ok : bool) :
    N unit :=
  b <~ lift (new_block alloc_ok (Inplace obj)) ;;
  construct b (Inplace obj) ;;;
  a <~ lift (inplace_get b) ;;
  lift (place_sp result (SharedPtr (Some b) a)).

Definition sp_copy_assign (this other tmp : loc) : N unit :=
  noexceptN
    (if decide (this = other) then retN tt
     else
       lift (sp_copy tmp other) ;;;
       lift (sp_swap tmp this) ;;;
       sp_dtor tmp).

Definition sp_move_assign (this other tmp : loc) : N unit :=
  noexceptN
    (lift (sp_move tmp other) ;;;
     lift (sp_swap tmp this) ;;;
     sp_dtor tmp).

Definition sp_reset (this tmp : loc) : N unit :=
  noexceptN
    (lift (sp_default tmp) ;;;
     lift (sp_swap tmp this) ;;;
     sp_dtor tmp).

Definition sp_reset_raw (this : loc) (new_ptr : address) (alloc_ok : bool)
    (tmp : loc) : N unit :=
  noexceptN
    (sp_raw tmp new_ptr alloc_ok ;;;
     lift (sp_swap tmp this) ;;;
     sp_dtor tmp).

Definition wp_copy_assign (this other tmp : loc) : N unit :=
  noexceptN
    (if decide (other = this) then retN tt
     else
       lift (wp_copy tmp other) ;;;
       lift (wp_swap this tmp) ;;;
       wp_dtor tmp).

Definition wp_move_assign (this other tmp : loc) : N unit :=
  noexceptN
    (lift (wp_move tmp other) ;;;
     lift (wp_swap tmp this) ;;;
     wp_dtor tmp).

Definition wp_assign_shared (this other tmp : loc) : N unit :=
  noexceptN
    (lift (wp_from_shared tmp other) ;;;
     lift (wp_swap this tmp) ;;;
     wp_dtor tmp).

(** The calls that construct or release a block run the code of the user;
    every other call is as before. *)
Definition step (o : op) : N unit :=
  match o with
  | SpRaw x a ok => sp_raw x a ok
  | SpCopyAssign x y t => sp_copy_assign x y t
  | SpMoveAssign x y t => sp_move_assign x y t
  | SpReset x t => sp_reset x t
  | SpResetRaw x a ok t => sp_reset_raw x a ok t
  | SpDtor x => sp_dtor x
  | MakeShared r a ok => make_shared r a ok
  | WpCopyAssign x y t => wp_copy_assign x y t
  | WpMoveAssign x y t => wp_move_assign x y t
  | WpAssignShared x y t => wp_assign_shared x y t
  | WpDtor x => wp_dtor x
  | _ => lift (step o)
  end.

Fixpoint run_with (p : list op) : N unit :=
  match p with
  | [] => retN tt
  | o :: p' => step o ;;; run_with p'
  end.

End calls.

(** A program whose calls nest at most [depth] deep, the calls of the
    program itself being the first level; [None] when a call would nest
    deeper.  A larger bound changes no result ([run_deeper]). *)
Fixpoint run (U : user) (depth : nat) : list op → N unit :=
  match depth with
  | O => λ p, match p with
              | [] => retN tt
              | _ :: _ => λ _, None
              end
  | S d => run_with U (run U d)
  end.

End Reentrant.

(** A computation with user code that does what a computation without
    user code does. *)
Definition agrees {A} (n : Reentrant.N A) (c : M A) : Prop :=
  ∀ m, n m = Some (c m).

(** What [n] gives, [n'] gives as well. *)
Definition below {A} (n n' : Reentrant.N A) : Prop :=
  ∀ m r, n m = Some r → n' m = Some r.

(** ** Observations used by the statements *)

(** The number of pointer objects in a store whose [block] member is [b]. *)
Definition owners {V : Type} (blk : V → option positive)
    (s : gmap positive V) (b : block_id) : nat :=
  size (filter (λ kv : positive * V, blk kv.2 = Some b) s).

(** Live strong / weak pointers referencing the control block [b]. *)
Definition live_strong (m : machine) (b : block_id) : nat :=
  owners sp_block (strongs m) b.

Definition live_weak (m : machine) (b : block_id) : nat :=
  owners wp_block (weaks m) b.

Definition holds {V : Type} (blk : V → option positive) (v : V)
    (b : block_id) : nat :=
  if decide (blk v = Some b) then 1%nat else 0%nat.

(** The counters of [b], read as [0] once the block has been deleted. *)
Definition strong_count_of (m : machine) (b : block_id) : Z :=
  match blocks m !! b with
  | Some cb => counter cb
  | None => 0
  end.

Definition weak_count_of (m : machine) (b : block_id) : Z :=
  match blocks m !! b with
  | Some cb => weak_counter cb
  | None => 0
  end.

Definition is_delete_object (b : block_id) (e : event) : bool :=
  match e with
  | EvDeleteObject b' _ => bool_decide (b' = b)
  | _ => false
  end.

Definition is_delete_block (b : block_id) (e : event) : bool :=
  match e with
  | EvDeleteBlock b' => bool_decide (b' = b)
  | _ => false
  end.

Fixpoint count_events (f : event → bool) (l : list event) : nat :=
  match l with
  | [] => 0%nat
  | e :: l' => ((if f e then 1 else 0) + count_events f l')%nat
  end.

(** How often the payload of [b] was destroyed, and how often the block
    itself was deleted. *)
Definition payload_destructions (m : machine) (b : block_id) : nat :=
  count_events (is_delete_object b) (events m).

Definition block_deletions (m : machine) (b : block_id) : nat :=
  count_events (is_delete_block b) (events m).

(** In an event list (newest first) every deletion of the block [b] is
    preceded by the destruction of its payload. *)
Fixpoint payload_first (b : block_id) (l : list event) : Prop :=
  match l with
  | [] => True
  | e :: l' =>
      (is_delete_block b e = true → (0 < count_events (is_delete_object b) l')%nat)
      ∧ payload_first b l'
  end.

Definition allocated (m : machine) (b : block_id) : Prop :=
  (b < next_block m)%positive.

#[global] Instance allocated_dec m b : Decision (allocated m b).
Proof. unfold allocated. apply _. Defined.

(** The state invariant of the library: the counters of every live block
    agree with the pointer objects that reference it, a block stays
    allocated exactly as long as somebody holds it, and the log records one
    payload destruction per expired block and one deletion per dead block. *)
Record wf (m : machine) : Prop := WF {
  wf_strong : ∀ b, Z.of_nat (live_strong m b) = strong_count_of m b;
  wf_weak : ∀ b, Z.of_nat (live_weak m b) = weak_count_of m b;
  wf_held : ∀ b cb, blocks m !! b = Some cb →
              0 < counter cb ∨ 0 < weak_counter cb;
  wf_sp_space : ∀ x v, strongs m !! x = Some v → Z.pos x < SIZE_MOD;
  wf_wp_space : ∀ x v, weaks m !! x = Some v → Z.pos x < SIZE_MOD;
  wf_sp_null : ∀ x v, strongs m !! x = Some v →
                 sp_block v = None → sp_ptr v = nullptr;
  wf_wp_null : ∀ x v, weaks m !! x = Some v →
                 wp_block v = None → wp_ptr v = nullptr;
  wf_next : ∀ b cb, blocks m !! b = Some cb → allocated m b;
  wf_destroyed : ∀ b,
      payload_destructions m b =
        if decide (allocated m b) then
          match blocks m !! b with
          | Some cb => if counter cb =? 0 then 1%nat else 0%nat
          | None => 1%nat
          end
        else 0%nat;
  wf_deleted : ∀ b,
      block_deletions m b =
        if decide (allocated m b) then
          match blocks m !! b with
          | Some _ => 0%nat
          | None => 1%nat
          end
        else 0%nat;
  wf_order : ∀ b, payload_first b (events m)
}.

(** [m'] is reached from [m] by running the program [p] to completion. *)
Definition reaches (p : list op) (m m' : machine) : Prop :=
  run p m = Ret tt m'.

(** [m'] is a later state than [m]: the log has only grown and no
    allocation identifier was given back. *)
Definition extends (m m' : machine) : Prop :=
  (∃ l, events m' = l ++ events m) ∧ (next_block m ≤ next_block m')%positive.

(** A computation that only ever moves the machine to a later state,
    however it ends. *)
Definition monotone {A} (c : M A) : Prop :=
  ∀ m, match c m with
       | Ret _ m' | Throw m' | Terminate m' => extends m m'
       | Undefined _ => True
       end.

(** ** Programs used as examples *)

(** [n] copies of the strong pointer at address 1, placed at 2, 3, ... *)
Definition copies (n : nat) : list op :=
  map (λ i : nat, SpCopy (Pos.of_nat (i + 2)) 1%positive) (seq 0 n).

Definition many_owners : list op :=
  SpRaw 1 42 true :: copies (Z.to_nat INT_MAX).

(** The scenario of the library documentation: a strong pointer over a raw
    address, a copy, a weak pointer, then both strong pointers destroyed. *)
Definition scenario : list op :=
  [SpRaw 1 42 true; SpCopy 2 1; WpFromShared 1 1; SpDtor 1; SpDtor 2].

Definition scenario_state : machine :=
  {| blocks := {[1%positive := ControlBlock 0 1 (Regular 42)]};
     next_block := 2%positive;
     strongs := ∅;
     weaks := {[1%positive := WeakPtr (Some 1%positive) 42]};
     events := [EvDeleteObject 1 (Regular 42)] |}.

(** The same state after the surviving weak pointer has been copied. *)
Definition scenario_later_state : machine :=
  {| blocks := {[1%positive := ControlBlock 0 2 (Regular 42)]};
     next_block := 2%positive;
     strongs := ∅;
     weaks := {[1%positive := WeakPtr (Some 1%positive) 42;
                2%positive := WeakPtr (Some 1%positive) 42]};
     events := [EvDeleteObject 1 (Regular 42)] |}.

(** One strong and one weak pointer on a fresh block. *)
Definition owner_and_observer : list op :=
  [SpRaw 1 42 true; WpFromShared 1 1].

Definition owner_and_observer_state : machine :=
  {| blocks := {[1%positive := ControlBlock 1 1 (Regular 42)]};
     next_block := 2%positive;
     strongs := {[1%positive := SharedPtr (Some 1%positive) 42]};
     weaks := {[1%positive := WeakPtr (Some 1%positive) 42]};
     events := [] |}.

(** A single default-constructed strong pointer. *)
Definition default_only_state : machine :=
  {| blocks := ∅; next_block := 1%positive;
     strongs := {[1%positive := null_sp]}; weaks := ∅; events := [] |}.

(** An observer of a block that has an owner, and a null observer. *)
Definition observer_and_null_state : machine :=
  {| blocks := {[1%positive := ControlBlock 1 1 (Regular 42)]};
     next_block := 2%positive;
     strongs := {[1%positive := SharedPtr (Some 1%positive) 42]};
     weaks := {[1%positive := WeakPtr (Some 1%positive) 42;
                2%positive := null_wp]};
     events := [] |}.

(** A payload over the raw address 42 whose only member is a [weak_ptr]
    at the address 9: its destructor destroys that member. *)
Definition self_observer : user :=
  User (λ _, [])
       (λ k, match k with
             | Regular 42 => [WpDtor 9]
             | _ => []
             end)
       (λ _, []).

(** [struct Node { weak_ptr<Node> self; }; shared_ptr<Node> p(new Node);
    p->self = p;] *)
Definition observe_self : list op :=
  [WpDefault 9; SpRaw 1 42 true; WpAssignShared 9 1 8].

Definition observe_self_state : machine :=
  {| blocks := {[1%positive := ControlBlock 1 1 (Regular 42)]};
     next_block := 2%positive;
     strongs := {[1%positive := SharedPtr (Some 1%positive) 42]};
     weaks := {[9%positive := WeakPtr (Some 1%positive) 42]};
     events := [] |}.

(** A list of two nodes: the payload over 100 has the member [next] at
    the address 10, the payload over 200 has it at the address 20, and
    each destructor destroys the member. *)
Definition list_nodes : user :=
  User (λ _, [])
       (λ k, match k with
             | Regular 100 => [SpDtor 10]
             | Regular 200 => [SpDtor 20]
             | _ => []
             end)
       (λ _, []).

(** [head] at 1 owns the first node, whose [next] owns the second one. *)
Definition two_nodes : list op :=
  [SpDefault 10; SpRaw 1 100 true; SpDefault 20; SpRaw 2 200 true;
   SpCopyAssign 10 2 3; SpDtor 2].

Definition two_nodes_state : machine :=
  {| blocks := {[1%positive := ControlBlock 1 0 (Regular 100);
                 2%positive := ControlBlock 1 0 (Regular 200)]};
     next_block := 3%positive;
     strongs := {[1%positive := SharedPtr (Some 1%positive) 100;
                  10%positive := SharedPtr (Some 2%positive) 200;
                  20%positive := null_sp]};
     weaks := ∅;
     events := [] |}.

(** After [head = head->next]: the first node is gone. *)
Definition second_node_state : machine :=
  {| blocks := {[2%positive := ControlBlock 1 0 (Regular 200)]};
     next_block := 3%positive;
     strongs := {[1%positive := SharedPtr (Some 2%positive) 200;
                  20%positive := null_sp]};
     weaks := ∅;
     events := [EvDeleteBlock 1; EvDeleteObject 1 (Regular 100)] |}.

(** A node that owns itself: its member [next] at the address 10 holds the
    block of the node, and the pointer that built it is gone.  A second
    node has been constructed over 200 and has no owner yet. *)
Definition self_owner : list op :=
  [SpDefault 10; SpRaw 1 100 true; SpCopyAssign 10 1 3; SpDtor 1;
   SpDefault 20].

Definition self_owner_state : machine :=
  {| blocks := {[1%positive := ControlBlock 1 0 (Regular 100)]};
     next_block := 2%positive;
     strongs := {[10%positive := SharedPtr (Some 1%positive) 100;
                  20%positive := null_sp]};
     weaks := ∅;
     events := [] |}.

(** ** Relations between an earlier and a later state *)

(** A computation keeps the relation [R] between the state it starts in
    and the state it ends in, however it ends. *)
Definition keeps (R : machine → machine → Prop) {A} (c : M A) : Prop :=
  ∀ m, match c m with
       | Ret _ m' | Throw m' | Terminate m' => R m m'
       | Undefined _ => True
       end.

(** The pointer objects are what they were. *)
Definition same_pointers (m m' : machine) : Prop :=
  strongs m' = strongs m ∧ weaks m' = weaks m.

(** Nothing a strong owner can see has changed: the strong pointers, every
    strong count, and the payload destructions. *)
Definition strong_view_kept (m m' : machine) : Prop :=
  strongs m' = strongs m ∧
  (∀ b, strong_count_of m' b = strong_count_of m b) ∧
  (∀ b, payload_destructions m' b = payload_destructions m b).

(** The blocks of [m] keep their variant in [m'], a deleted block does
    not come back, and a payload destroyed in between was destroyed with
    the variant its block had in [m]. *)
Definition descends (m m' : machine) : Prop :=
  (next_block m ≤ next_block m')%positive ∧
  (∀ b cb', (b < next_block m)%positive → blocks m' !! b = Some cb' →
     ∃ cb, blocks m !! b = Some cb ∧ kind cb = kind cb') ∧
  ∃ l, events m' = l ++ events m ∧
       ∀ b k, EvDeleteObject b k ∈ l → (b < next_block m)%positive →
         ∃ cb, blocks m !! b = Some cb ∧ kind cb = k.

(** A computation that, started in a state that satisfies the invariant,
    never touches a deleted control block and returns to a state that
    satisfies the invariant. *)
Definition never_dangles {A} (c : M A) : Prop :=
  ∀ m, wf m →
    match c m with
    | Ret _ m' => wf m'
    | Undefined UseAfterFree => False
    | _ => True
    end.

(** The outcome [r] with the strong (weak) pointer objects replaced. *)
Definition with_strongs {A} (s : gmap positive shared_ptr) (r : outcome A) :
    outcome A :=
  match r with
  | Ret a m => Ret a (set_strongs s m)
  | Throw m => Throw (set_strongs s m)
  | Terminate m => Terminate (set_strongs s m)
  | Undefined f => Undefined f
  end.

Definition with_weaks {A} (s : gmap positive weak_ptr) (r : outcome A) :
    outcome A :=
  match r with
  | Ret a m => Ret a (set_weaks s m)
  | Throw m => Throw (set_weaks s m)
  | Terminate m => Terminate (set_weaks s m)
  | Undefined f => Undefined f
  end.

(** The state with the control block [b] set to [cb], and an outcome
    with its state transformed. *)
Definition put_block (b : block_id) (cb : control_block) (m : machine) : machine :=
  set_blocks (<[b := cb]> (blocks m)) m.

Definition map_outcome {A} (f : machine → machine) (r : outcome A) : outcome A :=
  match r with
  | Ret a m => Ret a (f m)
  | Throw m => Throw (f m)
  | Terminate m => Terminate (f m)
  | Undefined f' => Undefined f'
  end.

(** Two strong pointers, each on a block of its own. *)
Definition two_blocks : list op := [SpRaw 1 42 true; SpRaw 2 43 true].

Definition two_blocks_state : machine :=
  {| blocks := {[1%positive := ControlBlock 1 0 (Regular 42);
                 2%positive := ControlBlock 1 0 (Regular 43)]};
     next_block := 3%positive;
     strongs := {[1%positive := SharedPtr (Some 1%positive) 42;
                  2%positive := SharedPtr (Some 2%positive) 43]};
     weaks := ∅;
     events := [] |}.

(** The scenario carried to its end: the weak pointer is destroyed too. *)
Definition scenario_done : list op := scenario ++ [WpDtor 1].

Definition scenario_done_state : machine :=
  {| blocks := ∅; next_block := 2%positive; strongs := ∅; weaks := ∅;
     events := [EvDeleteBlock 1; EvDeleteObject 1 (Regular 42)] |}.

(** The operations on weak pointers that do not produce a strong one. *)
Definition weak_only (o : op) : bool :=
  match o with
  | WpDefault _ | WpCopy _ _ | WpMove _ _ | WpFromShared _ _
  | WpCopyAssign _ _ _ | WpMoveAssign _ _ _ | WpAssignShared _ _ _
  | WpSwap _ _ | WpDtor _ => true
  | _ => false
  end.

(** A strong pointer with two weak observers. *)
Definition observed_twice_state : machine :=
  {| blocks := {[1%positive := ControlBlock 1 2 (Regular 42)]};
     next_block := 2%positive;
     strongs := {[1%positive := SharedPtr (Some 1%positive) 42]};
     weaks := {[1%positive := WeakPtr (Some 1%positive) 42;
                2%positive := WeakPtr (Some 1%positive) 42]};
     events := [] |}.

(** One strong pointer built from the raw address 42. *)
Definition single_owner : list op := [SpRaw 1 42 true].

Definition single_owner_state : machine :=
  {| blocks := {[1%positive := ControlBlock 1 0 (Regular 42)]};
     next_block := 2%positive;
     strongs := {[1%positive := SharedPtr (Some 1%positive) 42]};
     weaks := ∅;
     events := [] |}.

(** An alias of it to the address 99, then both pointers destroyed. *)
Definition alias_and_drop : list op := [SpAlias 2 1 99; SpDtor 1; SpDtor 2].

(** The state after the allocation of the block [nb] with contents [cb]. *)
Definition alloc_block (nb : block_id) (cb : control_block) (m : machine) :
    machine :=
  {| blocks := <[nb := cb]> (blocks m); next_block := Pos.succ nb;
     strongs := strongs m; weaks := weaks m; events := events m |}.

(** A strong pointer that has been moved from. *)
Definition moved_from : list op := [SpRaw 1 42 true; SpMove 2 1].

Definition moved_from_state : machine :=
  {| blocks := {[1%positive := ControlBlock 1 0 (Regular 42)]};
     next_block := 2%positive;
     strongs := {[1%positive := null_sp;
                  2%positive := SharedPtr (Some 1%positive) 42]};
     weaks := ∅;
     events := [] |}.

(** ** Counting pointer objects in a store *)

Section owners.
Context {V : Type} (blk : V → option positive).
Implicit Types (s : gmap positive V) (v : V) (b x : positive).

Lemma owners_insert_fresh s x v b :
  s !! x = None →
  owners blk (<[x := v]> s) b = (owners blk s b + holds blk v b)%nat.
Proof.
  intros Hx. unfold owners, holds.
  destruct (decide (blk v = Some b)) as [Hb|Hb].
  - rewrite map_filter_insert_True by done.
    rewrite map_size_insert_None; [lia|].
    by rewrite map_lookup_filter_None; left.
  - rewrite map_filter_insert_False by done.
    rewrite delete_id by done. lia.
Qed.

Lemma owners_delete s x v b :
  s !! x = Some v →
  owners blk s b = (owners blk (delete x s) b + holds blk v b)%nat.
Proof.
  intros Hx.
  rewrite <- (insert_id s x v) at 1 by done.
  rewrite <- insert_delete_eq.
  apply owners_insert_fresh, lookup_delete_eq.
Qed.

Lemma owners_overwrite s x v v' b :
  s !! x = Some v →
  (owners blk (<[x := v']> s) b + holds blk v b)%nat
  = (owners blk s b + holds blk v' b)%nat.
Proof.
  intros Hx.
  rewrite <- (insert_delete_eq s x v').
  rewrite owners_insert_fresh by apply lookup_delete_eq.
  rewrite (owners_delete s x v b Hx). lia.
Qed.

Lemma owners_le_size s b : (owners blk s b ≤ size s)%nat.
Proof. apply map_subseteq_size, map_filter_subseteq. Qed.

Lemma owners_pos s x v b :
  s !! x = Some v → blk v = Some b → (0 < owners blk s b)%nat.
Proof.
  intros Hx Hb. rewrite (owners_delete s x v b Hx).
  unfold holds. rewrite decide_True by done. lia.
Qed.

End owners.

(** A store whose keys are all below [n] has at most [n - 1] entries
    (keys are positive). *)
Lemma size_below_nat {V : Type} (n : nat) (s : gmap positive V) :
  (∀ x v, s !! x = Some v → (Pos.to_nat x ≤ n)%nat) → (size s ≤ n)%nat.
Proof.
  revert s. induction n as [|n IH]; intros s Hs.
  - destruct (decide (s = ∅)) as [->|Hne]; [by rewrite map_size_empty|].
    apply map_choose in Hne as (x & v & Hx).
    specialize (Hs x v Hx). lia.
  - set (k := Pos.of_nat (S n)).
    destruct (s !! k) as [v|] eqn:Hk.
    + rewrite <- (insert_id s k v) by done.
      rewrite <- insert_delete_eq.
      rewrite map_size_insert_None by apply lookup_delete_eq.
      apply le_n_S, IH. intros x w Hx.
      apply lookup_delete_Some in Hx as [Hne Hx].
      specialize (Hs x w Hx).
      assert (Pos.to_nat x ≠ S n); [|lia].
      intros Heq. apply Hne. unfold k. rewrite <- Heq.
      by rewrite Pos2Nat.id.
    + etrans; [apply IH|lia]. intros x w Hx.
      specialize (Hs x w Hx).
      assert (Pos.to_nat x ≠ S n); [|lia].
      intros Heq. assert (x = k); [|congruence].
      unfold k. rewrite <- Heq. by rewrite Pos2Nat.id.
Qed.

Lemma size_in_space {V : Type} (s : gmap positive V) :
  (∀ x v, s !! x = Some v → Z.pos x < SIZE_MOD) →
  Z.of_nat (size s) < SIZE_MOD.
Proof.
  intros Hs.
  assert (size s ≤ Z.to_nat (SIZE_MOD - 1))%nat as Hle.
  { apply size_below_nat. intros x v Hx. specialize (Hs x v Hx).
    apply Nat2Z.inj_le. rewrite positive_nat_Z.
    rewrite Z2Nat.id; [lia|]. unfold SIZE_MOD in *. lia. }
  apply Nat2Z.inj_le in Hle. rewrite Z2Nat.id in Hle; [lia|].
  unfold SIZE_MOD. lia.
Qed.

(** ** Machine arithmetic *)

#[global] Arguments to_size_t : simpl never.
#[global] Arguments to_int : simpl never.
#[global] Arguments SIZE_MOD : simpl never.
#[global] Arguments INT_MOD : simpl never.
#[global] Arguments INT_MAX : simpl never.

Lemma to_size_t_small z : 0 ≤ z < SIZE_MOD → to_size_t z = z.
Proof. intros Hz. unfold to_size_t. by apply Z.mod_small. Qed.

Lemma to_int_small z : 0 ≤ z ≤ INT_MAX → to_int z = z.
Proof.
  intros Hz. unfold to_int, INT_MOD, INT_MAX in *.
  rewrite Z.mod_small by lia.
  destruct (Z.leb_spec z (2 ^ 31 - 1)); lia.
Qed.

(** ** What the control-block members do to a live block *)

Ltac unfold_members :=
  unfold inc_ref, dec_ref, inc_weak_ref, dec_weak_ref, object_deleted,
    get_strong_count, delete_object, delete_this, bind, load, store, emit, ret.

Section block_members.
Context (m : machine) (b : block_id) (cb : control_block).
Hypothesis Hb : blocks m !! b = Some cb.

Local Ltac go :=
  unfold_members; repeat (simpl; rewrite ?Hb, ?lookup_insert_eq).

Lemma inc_ref_eq :
  inc_ref b m =
    Ret tt (set_blocks
              (<[b := set_counter (to_size_t (counter cb + 1)) cb]> (blocks m)) m).
Proof. by go. Qed.

Lemma inc_weak_ref_eq :
  inc_weak_ref b m =
    Ret tt (set_blocks
              (<[b := set_weak_counter (to_size_t (weak_counter cb + 1)) cb]>
                 (blocks m)) m).
Proof. by go. Qed.

Lemma object_deleted_eq : object_deleted b m = Ret (counter cb =? 0) m.
Proof. by go. Qed.

(** [dec_ref] when other strong owners remain. *)
Lemma dec_ref_eq_shared :
  to_size_t (counter cb - 1) ≠ 0 →
  dec_ref b m =
    Ret tt (set_blocks
              (<[b := set_counter (to_size_t (counter cb - 1)) cb]> (blocks m)) m).
Proof.
  intros Hc. apply Z.eqb_neq in Hc. go. rewrite Hc. go. rewrite Hc.
  by rewrite andb_false_r.
Qed.

(** [dec_ref] by the last strong owner while weak pointers remain. *)
Lemma dec_ref_eq_last_weak :
  to_size_t (counter cb - 1) = 0 → weak_counter cb ≠ 0 →
  dec_ref b m =
    Ret tt {| blocks := <[b := set_counter 0 cb]> (blocks m);
              next_block := next_block m;
              strongs := strongs m; weaks := weaks m;
              events := EvDeleteObject b (kind cb) :: events m |}.
Proof.
  intros Hc Hw. apply Z.eqb_neq in Hw. go. rewrite Hc. go. by rewrite Hw.
Qed.

(** [dec_ref] by the last owner of any kind. *)
Lemma dec_ref_eq_last :
  to_size_t (counter cb - 1) = 0 → weak_counter cb = 0 →
  dec_ref b m =
    Ret tt {| blocks := delete b (blocks m);
              next_block := next_block m;
              strongs := strongs m; weaks := weaks m;
              events := EvDeleteBlock b :: EvDeleteObject b (kind cb) :: events m |}.
Proof.
  intros Hc Hw. go. rewrite Hc. go. rewrite Hw. go.
  by rewrite delete_insert_eq.
Qed.

Lemma dec_weak_ref_eq_shared :
  to_size_t (weak_counter cb - 1) ≠ 0 ∨ counter cb ≠ 0 →
  dec_weak_ref b m =
    Ret tt (set_blocks
              (<[b := set_weak_counter (to_size_t (weak_counter cb - 1)) cb]>
                 (blocks m)) m).
Proof.
  intros Hc. go.
  destruct Hc as [Hc|Hc]; apply Z.eqb_neq in Hc; rewrite Hc;
    by rewrite ?andb_false_r.
Qed.

Lemma dec_weak_ref_eq_last :
  to_size_t (weak_counter cb - 1) = 0 → counter cb = 0 →
  dec_weak_ref b m =
    Ret tt {| blocks := delete b (blocks m);
              next_block := next_block m;
              strongs := strongs m; weaks := weaks m;
              events := EvDeleteBlock b :: events m |}.
Proof.
  intros Hc Hs. go. rewrite Hc, Hs. go. by rewrite delete_insert_eq.
Qed.
End block_members.

(** ** Consequences of the invariant *)

Lemma wf_strong_live m x v b :
  wf m → strongs m !! x = Some v → sp_block v = Some b →
  ∃ cb, blocks m !! b = Some cb ∧ 0 < counter cb.
Proof.
  intros Hwf Hx Hb.
  pose proof (wf_strong m Hwf b) as Hs.
  pose proof (owners_pos sp_block _ _ _ _ Hx Hb) as Hpos.
  unfold live_strong, strong_count_of in Hs.
  destruct (blocks m !! b) as [cb|]; [|lia].
  exists cb. split; [done|lia].
Qed.

Lemma wf_weak_live m x v b :
  wf m → weaks m !! x = Some v → wp_block v = Some b →
  ∃ cb, blocks m !! b = Some cb ∧ 0 < weak_counter cb.
Proof.
  intros Hwf Hx Hb.
  pose proof (wf_weak m Hwf b) as Hs.
  pose proof (owners_pos wp_block _ _ _ _ Hx Hb) as Hpos.
  unfold live_weak, weak_count_of in Hs.
  destruct (blocks m !! b) as [cb|]; [|lia].
  exists cb. split; [done|lia].
Qed.

Lemma wf_counter_bound m b cb :
  wf m → blocks m !! b = Some cb →
  0 ≤ counter cb ∧ counter cb ≤ Z.of_nat (size (strongs m)) ∧
  Z.of_nat (size (strongs m)) < SIZE_MOD.
Proof.
  intros Hwf Hb.
  pose proof (wf_strong m Hwf b) as Hs.
  unfold live_strong, strong_count_of in Hs. rewrite Hb in Hs.
  pose proof (owners_le_size sp_block (strongs m) b).
  pose proof (size_in_space (strongs m) (wf_sp_space m Hwf)).
  lia.
Qed.

Lemma wf_weak_counter_bound m b cb :
  wf m → blocks m !! b = Some cb →
  0 ≤ weak_counter cb ∧ weak_counter cb ≤ Z.of_nat (size (weaks m)) ∧
  Z.of_nat (size (weaks m)) < SIZE_MOD.
Proof.
  intros Hwf Hb.
  pose proof (wf_weak m Hwf b) as Hs.
  unfold live_weak, weak_count_of in Hs. rewrite Hb in Hs.
  pose proof (owners_le_size wp_block (weaks m) b).
  pose proof (size_in_space (weaks m) (wf_wp_space m Hwf)).
  lia.
Qed.

(** Room for one more object: a fresh address inside the address space
    exists only if the store is not full. *)
Lemma size_fresh_in_space {V} (s : gmap positive V) x (v : V) :
  (∀ y w, s !! y = Some w → Z.pos y < SIZE_MOD) →
  s !! x = None → Z.pos x < SIZE_MOD →
  Z.of_nat (size s) + 1 < SIZE_MOD.
Proof.
  intros Hs Hx Hsp.
  assert (Z.of_nat (size (<[x := v]> s)) < SIZE_MOD) as Hlt.
  { apply size_in_space. intros y w Hy.
    apply lookup_insert_Some in Hy as [[<- _]|[_ Hy]]; eauto. }
  rewrite map_size_insert_None in Hlt by done. lia.
Qed.

(** ** Transitions that keep the invariant *)

Lemma wf_add_strong m x v b cb :
  wf m → strongs m !! x = None → Z.pos x < SIZE_MOD →
  sp_block v = Some b → blocks m !! b = Some cb → 0 < counter cb →
  wf {| blocks := <[b := set_counter (to_size_t (counter cb + 1)) cb]> (blocks m);
        next_block := next_block m;
        strongs := <[x := v]> (strongs m);
        weaks := weaks m;
        events := events m |}.
Proof.
  intros Hwf Hx Hsp Hv Hb Hpos.
  pose proof (wf_counter_bound m b cb Hwf Hb) as Hbound.
  pose proof (size_fresh_in_space (strongs m) x v (wf_sp_space m Hwf) Hx Hsp).
  rewrite to_size_t_small by lia.
  destruct Hwf as [Hs Hw Hh Hss Hws Hsn Hwn Hn Hd Hf Ho].
  constructor; simpl.
  - intros b0. specialize (Hs b0). unfold live_strong, strong_count_of in *. simpl.
    rewrite owners_insert_fresh by done. unfold holds. rewrite Hv.
    destruct (decide (b0 = b)) as [->|Hne].
    + rewrite lookup_insert_eq. simpl. rewrite decide_True by done.
      rewrite Hb in Hs. lia.
    + rewrite lookup_insert_ne by done. rewrite decide_False by congruence. lia.
  - intros b0. specialize (Hw b0). unfold live_weak, weak_count_of in *. simpl.
    destruct (decide (b0 = b)) as [->|Hne].
    + rewrite lookup_insert_eq. simpl. rewrite Hb in Hw. exact Hw.
    + by rewrite lookup_insert_ne.
  - intros b0 cb0 H0. apply lookup_insert_Some in H0 as [[<- <-]|[_ H0]]; simpl; eauto. lia.
  - intros y w Hy. apply lookup_insert_Some in Hy as [[<- _]|[_ Hy]]; eauto.
  - done.
  - intros y w Hy. apply lookup_insert_Some in Hy as [[<- <-]|[_ Hy]]; eauto. congruence.
  - done.
  - intros b0 cb0 H0. apply lookup_insert_Some in H0 as [[<- <-]|[_ H0]]; eauto.
  - intros b0. specialize (Hd b0). unfold payload_destructions, allocated in *. simpl.
    destruct (decide (b0 = b)) as [->|Hne].
    + rewrite lookup_insert_eq. simpl. rewrite Hb in Hd.
      rewrite Hd. destruct (decide _); [|done].
      destruct (Z.eqb_spec (counter cb) 0), (Z.eqb_spec (counter cb + 1) 0); lia.
    + by rewrite lookup_insert_ne.
  - intros b0. specialize (Hf b0). unfold block_deletions, allocated in *. simpl.
    destruct (decide (b0 = b)) as [->|Hne].
    + rewrite lookup_insert_eq. simpl. by rewrite Hb in Hf.
    + by rewrite lookup_insert_ne.
  - done.
Qed.

Ltac split_block b0 b :=
  destruct (decide (b0 = b)) as [->|?];
  [ rewrite ?lookup_insert_eq, ?lookup_delete_eq
  | rewrite ?lookup_insert_ne, ?lookup_delete_ne by done ].

(** Replacing the strong store by one with the same owners. *)
Lemma wf_change_strongs m s :
  wf m →
  (∀ b, owners sp_block s b = owners sp_block (strongs m) b) →
  (∀ x v, s !! x = Some v → Z.pos x < SIZE_MOD) →
  (∀ x v, s !! x = Some v → sp_block v = None → sp_ptr v = nullptr) →
  wf {| blocks := blocks m; next_block := next_block m; strongs := s;
        weaks := weaks m; events := events m |}.
Proof.
  intros [Hs Hw Hh Hss Hws Hsn Hwn Hn Hd Hf Ho] Hown Hsp Hnull.
  constructor; simpl; try done.
  intros b. unfold live_strong, strong_count_of. simpl.
  rewrite Hown. apply Hs.
Qed.

Lemma wf_change_weaks m s :
  wf m →
  (∀ b, owners wp_block s b = owners wp_block (weaks m) b) →
  (∀ x v, s !! x = Some v → Z.pos x < SIZE_MOD) →
  (∀ x v, s !! x = Some v → wp_block v = None → wp_ptr v = nullptr) →
  wf {| blocks := blocks m; next_block := next_block m; strongs := strongs m;
        weaks := s; events := events m |}.
Proof.
  intros [Hs Hw Hh Hss Hws Hsn Hwn Hn Hd Hf Ho] Hown Hsp Hnull.
  constructor; simpl; try done.
  intros b. unfold live_weak, weak_count_of. simpl.
  rewrite Hown. apply Hw.
Qed.

Lemma holds_none {V} (blk : V → option positive) v b :
  blk v = None → holds blk v b = 0%nat.
Proof. intros H. unfold holds. by rewrite H, decide_False. Qed.

Lemma holds_some {V} (blk : V → option positive) v b b0 :
  blk v = Some b → holds blk v b0 = if decide (b0 = b) then 1%nat else 0%nat.
Proof.
  intros H. unfold holds. rewrite H.
  destruct (decide (b0 = b)) as [->|Hne].
  - by rewrite decide_True.
  - rewrite decide_False; [done|congruence].
Qed.

(** The two stores after a swap and after a move. *)
Lemma owners_swap {V} (blk : V → option positive) (s : gmap positive V)
    x y vx vy b :
  s !! x = Some vx → s !! y = Some vy →
  owners blk (<[y := vx]> (<[x := vy]> s)) b = owners blk s b.
Proof.
  intros Hx Hy.
  assert (<[x := vy]> s !! y = Some vy) as Hy'.
  { destruct (decide (x = y)) as [->|Hne].
    - by rewrite lookup_insert_eq.
    - by rewrite lookup_insert_ne. }
  pose proof (owners_overwrite blk s x vx vy b Hx).
  pose proof (owners_overwrite blk _ y vy vx b Hy').
  lia.
Qed.

Lemma owners_move {V} (blk : V → option positive) (s : gmap positive V)
    x o v null b :
  s !! x = None → s !! o = Some v → blk null = None →
  owners blk (<[o := null]> (<[x := v]> s)) b = owners blk s b.
Proof.
  intros Hx Ho Hnull.
  assert (<[x := v]> s !! o = Some v) as Ho'.
  { rewrite lookup_insert_ne; [done|]. intros ->. congruence. }
  pose proof (owners_overwrite blk _ o v null b Ho') as H1.
  rewrite (owners_insert_fresh blk s x v b Hx) in H1.
  rewrite (holds_none blk null b Hnull) in H1. lia.
Qed.

Lemma wf_new_block m x k a :
  wf m → strongs m !! x = None → Z.pos x < SIZE_MOD →
  wf {| blocks := <[next_block m := ControlBlock 1 0 k]> (blocks m);
        next_block := Pos.succ (next_block m);
        strongs := <[x := SharedPtr (Some (next_block m)) a]> (strongs m);
        weaks := weaks m;
        events := events m |}.
Proof.
  intros Hwf Hx Hsp.
  assert (blocks m !! next_block m = None) as Hfresh.
  { destruct (blocks m !! next_block m) as [cb|] eqn:E; [|done].
    pose proof (wf_next m Hwf _ _ E) as Hlt. unfold allocated in Hlt. lia. }
  destruct Hwf as [Hs Hw Hh Hss Hws Hsn Hwn Hn Hd Hf Ho].
  constructor; simpl.
  - intros b0. specialize (Hs b0). unfold live_strong, strong_count_of in *. simpl.
    rewrite owners_insert_fresh by done.
    rewrite (holds_some sp_block _ (next_block m) b0) by done.
    split_block b0 (next_block m); simpl.
    + rewrite Hfresh in Hs. lia.
    + lia.
  - intros b0. specialize (Hw b0). unfold live_weak, weak_count_of in *. simpl.
    split_block b0 (next_block m); simpl; [|done].
    by rewrite Hfresh in Hw.
  - intros b0 cb0 H0. apply lookup_insert_Some in H0 as [[<- <-]|[_ H0]]; simpl; eauto. lia.
  - intros y w Hy. apply lookup_insert_Some in Hy as [[<- _]|[_ Hy]]; eauto.
  - done.
  - intros y w Hy. apply lookup_insert_Some in Hy as [[<- <-]|[_ Hy]]; eauto. done.
  - done.
  - intros b0 cb0 H0. unfold allocated. simpl.
    apply lookup_insert_Some in H0 as [[<- <-]|[_ H0]]; [lia|].
    apply Hn in H0. unfold allocated in H0. lia.
  - intros b0. specialize (Hd b0). unfold payload_destructions, allocated in *. simpl.
    rewrite Hd. split_block b0 (next_block m); simpl.
    + rewrite decide_False by lia. rewrite decide_True by lia. done.
    + destruct (decide (b0 < next_block m)%positive).
      * rewrite decide_True by lia. done.
      * rewrite decide_False by lia. done.
  - intros b0. specialize (Hf b0). unfold block_deletions, allocated in *. simpl.
    rewrite Hf. split_block b0 (next_block m); simpl.
    + rewrite decide_False by lia. rewrite decide_True by lia. done.
    + destruct (decide (b0 < next_block m)%positive).
      * rewrite decide_True by lia. done.
      * rewrite decide_False by lia. done.
  - done.
Qed.

Lemma wf_add_weak m x v b cb :
  wf m → weaks m !! x = None → Z.pos x < SIZE_MOD →
  wp_block v = Some b → blocks m !! b = Some cb →
  wf {| blocks := <[b := set_weak_counter (to_size_t (weak_counter cb + 1)) cb]> (blocks m);
        next_block := next_block m;
        strongs := strongs m;
        weaks := <[x := v]> (weaks m);
        events := events m |}.
Proof.
  intros Hwf Hx Hsp Hv Hb.
  pose proof (wf_weak_counter_bound m b cb Hwf Hb) as Hbound.
  pose proof (size_fresh_in_space (weaks m) x v (wf_wp_space m Hwf) Hx Hsp).
  rewrite to_size_t_small by lia.
  destruct Hwf as [Hs Hw Hh Hss Hws Hsn Hwn Hn Hd Hf Ho].
  constructor; simpl.
  - intros b0. specialize (Hs b0). unfold live_strong, strong_count_of in *. simpl.
    split_block b0 b; simpl; [|done]. by rewrite Hb in Hs.
  - intros b0. specialize (Hw b0). unfold live_weak, weak_count_of in *. simpl.
    rewrite owners_insert_fresh by done.
    rewrite (holds_some wp_block v b b0) by done.
    split_block b0 b; simpl.
    + rewrite Hb in Hw. lia.
    + lia.
  - intros b0 cb0 H0. apply lookup_insert_Some in H0 as [[<- <-]|[_ H0]]; simpl; eauto. lia.
  - done.
  - intros y w Hy. apply lookup_insert_Some in Hy as [[<- _]|[_ Hy]]; eauto.
  - done.
  - intros y w Hy. apply lookup_insert_Some in Hy as [[<- <-]|[_ Hy]]; eauto. congruence.
  - intros b0 cb0 H0. apply lookup_insert_Some in H0 as [[<- <-]|[_ H0]]; eauto.
  - intros b0. specialize (Hd b0). unfold payload_destructions, allocated in *. simpl.
    split_block b0 b; simpl; [|done]. by rewrite Hb in Hd.
  - intros b0. specialize (Hf b0). unfold block_deletions, allocated in *. simpl.
    split_block b0 b; simpl; [|done]. by rewrite Hb in Hf.
  - done.
Qed.

(** The last strong pointer to [b] goes away: [dec_ref] in its three cases. *)
Lemma wf_drop_strong m x v b cb m' :
  wf m → strongs m !! x = Some v → sp_block v = Some b →
  blocks m !! b = Some cb →
  dec_ref b m = Ret tt m' →
  wf (set_strongs (delete x (strongs m')) m').
Proof.
  intros Hwf Hx Hv Hb Hdec.
  pose proof (wf_counter_bound m b cb Hwf Hb) as Hbound.
  pose proof (wf_weak_counter_bound m b cb Hwf Hb) as Hwbound.
  destruct (wf_strong_live m x v b Hwf Hx Hv) as (cb' & Hb' & Hpos).
  assert (cb' = cb) as -> by congruence. clear Hb'.
  assert (to_size_t (counter cb - 1) = counter cb - 1) as Hsz
    by (apply to_size_t_small; lia).
  destruct Hwf as [Hs Hw Hh Hss Hws Hsn Hwn Hn Hd Hf Ho].
  assert (∀ b0, Z.of_nat (owners sp_block (delete x (strongs m)) b0)
                = strong_count_of m b0 - (if decide (b0 = b) then 1 else 0)) as Hown.
  { intros b0. specialize (Hs b0). unfold live_strong in Hs.
    rewrite (owners_delete sp_block _ x v b0 Hx) in Hs.
    rewrite (holds_some sp_block v b b0 Hv) in Hs.
    destruct (decide (b0 = b)); lia. }
  assert (∀ y w, delete x (strongs m) !! y = Some w → strongs m !! y = Some w) as Hsub.
  { intros y w Hy. by apply lookup_delete_Some in Hy as [_ Hy]. }
  destruct (decide (counter cb - 1 = 0)) as [Hc|Hc].
  - destruct (decide (weak_counter cb = 0)) as [Hwc|Hwc].
    + rewrite (dec_ref_eq_last m b cb Hb) in Hdec by congruence.
      injection Hdec as <-.
      constructor; simpl.
      * intros b0. unfold live_strong, strong_count_of in *. simpl.
        rewrite Hown. split_block b0 b; rewrite ?Hb; lia.
      * intros b0. specialize (Hw b0). unfold live_weak, weak_count_of in *. simpl.
        split_block b0 b; [|done]. rewrite Hb in Hw. lia.
      * intros b0 cb0 H0. apply lookup_delete_Some in H0 as [_ H0]. eauto.
      * eauto.
      * done.
      * eauto.
      * done.
      * intros b0 cb0 H0. apply lookup_delete_Some in H0 as [_ H0]. eauto.
      * intros b0. specialize (Hd b0). unfold payload_destructions, allocated in *.
        simpl. split_block b0 b.
        -- rewrite bool_decide_eq_true_2 by done. rewrite Hd, Hb.
           pose proof (Hn _ _ Hb) as Ha. unfold allocated in Ha.
           rewrite !decide_True by done.
           destruct (Z.eqb_spec (counter cb) 0); [lia|done].
        -- rewrite bool_decide_eq_false_2 by done. by rewrite Hd.
      * intros b0. specialize (Hf b0). unfold block_deletions, allocated in *.
        simpl. split_block b0 b.
        -- rewrite bool_decide_eq_true_2 by done. rewrite Hf, Hb.
           pose proof (Hn _ _ Hb) as Ha. unfold allocated in Ha.
           by rewrite !decide_True by done.
        -- rewrite bool_decide_eq_false_2 by done. by rewrite Hf.
      * intros b0. simpl. split; [|split; [done|apply Ho]].
        intros Hbb. apply bool_decide_eq_true_1 in Hbb as ->.
        rewrite bool_decide_eq_true_2 by done. lia.
    + rewrite (dec_ref_eq_last_weak m b cb Hb) in Hdec by congruence.
      injection Hdec as <-.
      constructor; simpl.
      * intros b0. unfold live_strong, strong_count_of in *. simpl.
        rewrite Hown. split_block b0 b; simpl; rewrite ?Hb; lia.
      * intros b0. specialize (Hw b0). unfold live_weak, weak_count_of in *. simpl.
        split_block b0 b; [|done]. by rewrite Hb in Hw.
      * intros b0 cb0 H0. apply lookup_insert_Some in H0 as [[<- <-]|[_ H0]]; simpl; eauto.
        right. lia.
      * eauto.
      * done.
      * eauto.
      * done.
      * intros b0 cb0 H0. apply lookup_insert_Some in H0 as [[<- <-]|[_ H0]]; eauto.
      * intros b0. specialize (Hd b0). unfold payload_destructions, allocated in *.
        simpl. split_block b0 b; simpl.
        -- rewrite bool_decide_eq_true_2 by done. rewrite Hd, Hb.
           pose proof (Hn _ _ Hb) as Ha. unfold allocated in Ha.
           rewrite !decide_True by done.
           destruct (Z.eqb_spec (counter cb) 0); [lia|done].
        -- rewrite bool_decide_eq_false_2 by done. by rewrite Hd.
      * intros b0. specialize (Hf b0). unfold block_deletions, allocated in *.
        simpl. split_block b0 b; simpl; [|done]. by rewrite Hb in Hf.
      * intros b0. simpl. split; [done|apply Ho].
  - rewrite (dec_ref_eq_shared m b cb Hb) in Hdec by congruence.
    injection Hdec as <-. rewrite Hsz.
    constructor; simpl.
    + intros b0. unfold live_strong, strong_count_of in *. simpl.
      rewrite Hown. split_block b0 b; simpl; rewrite ?Hb; lia.
    + intros b0. specialize (Hw b0). unfold live_weak, weak_count_of in *. simpl.
      split_block b0 b; [|done]. by rewrite Hb in Hw.
    + intros b0 cb0 H0. apply lookup_insert_Some in H0 as [[<- <-]|[_ H0]]; simpl; eauto.
      left. lia.
    + eauto.
    + done.
    + eauto.
    + done.
    + intros b0 cb0 H0. apply lookup_insert_Some in H0 as [[<- <-]|[_ H0]]; eauto.
    + intros b0. specialize (Hd b0). unfold payload_destructions, allocated in *.
      simpl. split_block b0 b; simpl; [|done]. rewrite Hd, Hb.
      destruct (decide _); [|done].
      destruct (Z.eqb_spec (counter cb) 0), (Z.eqb_spec (counter cb - 1) 0); lia.
    + intros b0. specialize (Hf b0). unfold block_deletions, allocated in *.
      simpl. split_block b0 b; simpl; [|done]. by rewrite Hb in Hf.
    + done.
Qed.

(** A weak pointer to [b] goes away: [dec_weak_ref] in its two cases. *)
Lemma wf_drop_weak m x v b cb m' :
  wf m → weaks m !! x = Some v → wp_block v = Some b →
  blocks m !! b = Some cb →
  dec_weak_ref b m = Ret tt m' →
  wf (set_weaks (delete x (weaks m')) m').
Proof.
  intros Hwf Hx Hv Hb Hdec.
  pose proof (wf_counter_bound m b cb Hwf Hb) as Hbound.
  pose proof (wf_weak_counter_bound m b cb Hwf Hb) as Hwbound.
  destruct (wf_weak_live m x v b Hwf Hx Hv) as (cb' & Hb' & Hpos).
  assert (cb' = cb) as -> by congruence. clear Hb'.
  assert (to_size_t (weak_counter cb - 1) = weak_counter cb - 1) as Hsz
    by (apply to_size_t_small; lia).
  destruct Hwf as [Hs Hw Hh Hss Hws Hsn Hwn Hn Hd Hf Ho].
  assert (∀ b0, Z.of_nat (owners wp_block (delete x (weaks m)) b0)
                = weak_count_of m b0 - (if decide (b0 = b) then 1 else 0)) as Hown.
  { intros b0. specialize (Hw b0). unfold live_weak in Hw.
    rewrite (owners_delete wp_block _ x v b0 Hx) in Hw.
    rewrite (holds_some wp_block v b b0 Hv) in Hw.
    destruct (decide (b0 = b)); lia. }
  assert (∀ y w, delete x (weaks m) !! y = Some w → weaks m !! y = Some w) as Hsub.
  { intros y w Hy. by apply lookup_delete_Some in Hy as [_ Hy]. }
  destruct (decide (weak_counter cb - 1 = 0 ∧ counter cb = 0)) as [[Hc Hc0]|Hc].
  - rewrite (dec_weak_ref_eq_last m b cb Hb) in Hdec by congruence.
    injection Hdec as <-.
    constructor; simpl.
    + intros b0. specialize (Hs b0). unfold live_strong, strong_count_of in *. simpl.
      split_block b0 b; [|done]. rewrite Hb in Hs. lia.
    + intros b0. unfold live_weak, weak_count_of in *. simpl.
      rewrite Hown. split_block b0 b; rewrite ?Hb; lia.
    + intros b0 cb0 H0. apply lookup_delete_Some in H0 as [_ H0]. eauto.
    + done.
    + eauto.
    + done.
    + eauto.
    + intros b0 cb0 H0. apply lookup_delete_Some in H0 as [_ H0]. eauto.
    + intros b0. specialize (Hd b0). unfold payload_destructions, allocated in *.
      simpl. split_block b0 b; [|done]. rewrite Hd, Hb.
      destruct (decide _); [|done].
      destruct (Z.eqb_spec (counter cb) 0); [done|lia].
    + intros b0. specialize (Hf b0). unfold block_deletions, allocated in *.
      simpl. split_block b0 b.
      * rewrite bool_decide_eq_true_2 by done. rewrite Hf, Hb.
        pose proof (Hn _ _ Hb) as Ha. unfold allocated in Ha.
        by rewrite !decide_True by done.
      * rewrite bool_decide_eq_false_2 by done. by rewrite Hf.
    + intros b0. simpl. split; [|apply Ho].
      intros Hbb. apply bool_decide_eq_true_1 in Hbb as ->.
      specialize (Hd b0). unfold payload_destructions in Hd. rewrite Hd, Hb.
      pose proof (Hn _ _ Hb) as Ha.
      rewrite decide_True by done.
      destruct (Z.eqb_spec (counter cb) 0); [lia|done].
  - rewrite (dec_weak_ref_eq_shared m b cb Hb) in Hdec
      by (destruct (decide (counter cb = 0)); [left; rewrite Hsz; lia|by right]).
    injection Hdec as <-. rewrite Hsz.
    constructor; simpl.
    + intros b0. specialize (Hs b0). unfold live_strong, strong_count_of in *. simpl.
      split_block b0 b; [|done]. by rewrite Hb in Hs.
    + intros b0. unfold live_weak, weak_count_of in *. simpl.
      rewrite Hown. split_block b0 b; simpl; rewrite ?Hb; lia.
    + intros b0 cb0 H0. apply lookup_insert_Some in H0 as [[<- <-]|[_ H0]]; simpl; eauto.
      lia.
    + done.
    + eauto.
    + done.
    + eauto.
    + intros b0 cb0 H0. apply lookup_insert_Some in H0 as [[<- <-]|[_ H0]]; eauto.
    + intros b0. specialize (Hd b0). unfold payload_destructions, allocated in *.
      simpl. split_block b0 b; simpl; [|done]. by rewrite Hb in Hd.
    + intros b0. specialize (Hf b0). unfold block_deletions, allocated in *.
      simpl. split_block b0 b; simpl; [|done]. by rewrite Hb in Hf.
    + done.
Qed.

(** ** Inversion of the monadic combinators *)

Lemma bind_ret_inv {A B} (c : M A) (k : A → M B) m b m' :
  bind c k m = Ret b m' → ∃ a m1, c m = Ret a m1 ∧ k a m1 = Ret b m'.
Proof. unfold bind. destruct (c m); [eauto|done..]. Qed.

Lemma noexcept_ret_inv {A} (c : M A) m a m' :
  noexcept c m = Ret a m' → c m = Ret a m'.
Proof. unfold noexcept. by destruct (c m). Qed.

Lemma try_catch_ret_inv {A} (c h : M A) m a m' :
  try_catch c h m = Ret a m' →
  c m = Ret a m' ∨ ∃ m1, c m = Throw m1 ∧ h m1 = Ret a m'.
Proof. unfold try_catch. destruct (c m); eauto; done. Qed.

Lemma ret_inv {A} (a b : A) m m' : ret a m = Ret b m' → b = a ∧ m' = m.
Proof. unfold ret. by intros [= -> ->]. Qed.

Lemma deref_ret_inv {A} ob (f : positive → M A) m a m' :
  deref ob f m = Ret a m' → ∃ b, ob = Some b ∧ f b m = Ret a m'.
Proof. destruct ob; [eauto|done]. Qed.

Lemma read_sp_inv x m v m' :
  read_sp x m = Ret v m' → m' = m ∧ strongs m !! x = Some v.
Proof. unfold read_sp. destruct (strongs m !! x); [by intros [= -> ->]|done]. Qed.

Lemma place_sp_inv x v m u m' :
  place_sp x v m = Ret u m' →
  Z.pos x < SIZE_MOD ∧ strongs m !! x = None ∧
  m' = set_strongs (<[x := v]> (strongs m)) m.
Proof.
  unfold place_sp, in_address_space.
  destruct (Z.ltb_spec (Z.pos x) SIZE_MOD); [|done]. simpl.
  destruct (strongs m !! x); [done|]. by intros [= <-].
Qed.

Lemma write_sp_inv x v m u m' :
  write_sp x v m = Ret u m' →
  is_Some (strongs m !! x) ∧ m' = set_strongs (<[x := v]> (strongs m)) m.
Proof. unfold write_sp. destruct (strongs m !! x); [|done]. intros [= <-]. eauto. Qed.

Lemma end_sp_inv x m u m' :
  end_sp x m = Ret u m' →
  is_Some (strongs m !! x) ∧ m' = set_strongs (delete x (strongs m)) m.
Proof. unfold end_sp. destruct (strongs m !! x); [|done]. intros [= <-]. eauto. Qed.

Lemma read_wp_inv x m v m' :
  read_wp x m = Ret v m' → m' = m ∧ weaks m !! x = Some v.
Proof. unfold read_wp. destruct (weaks m !! x); [by intros [= -> ->]|done]. Qed.

Lemma place_wp_inv x v m u m' :
  place_wp x v m = Ret u m' →
  Z.pos x < SIZE_MOD ∧ weaks m !! x = None ∧
  m' = set_weaks (<[x := v]> (weaks m)) m.
Proof.
  unfold place_wp, in_address_space.
  destruct (Z.ltb_spec (Z.pos x) SIZE_MOD); [|done]. simpl.
  destruct (weaks m !! x); [done|]. by intros [= <-].
Qed.

Lemma write_wp_inv x v m u m' :
  write_wp x v m = Ret u m' →
  is_Some (weaks m !! x) ∧ m' = set_weaks (<[x := v]> (weaks m)) m.
Proof. unfold write_wp. destruct (weaks m !! x); [|done]. intros [= <-]. eauto. Qed.

Lemma end_wp_inv x m u m' :
  end_wp x m = Ret u m' →
  is_Some (weaks m !! x) ∧ m' = set_weaks (delete x (weaks m)) m.
Proof. unfold end_wp. destruct (weaks m !! x); [|done]. intros [= <-]. eauto. Qed.

Lemma new_block_ret_inv ok k m b m' :
  new_block ok k m = Ret b m' →
  ok = true ∧ b = next_block m ∧
  m' = {| blocks := <[next_block m := ControlBlock 1 0 k]> (blocks m);
          next_block := Pos.succ (next_block m);
          strongs := strongs m; weaks := weaks m; events := events m |}.
Proof. unfold new_block. destruct ok; [|done]. by intros [= <- <-]. Qed.

Ltac msimpl := unfold set_strongs, set_weaks, set_blocks in *; simpl in *.

(** Inverts a successful run of straight-line monadic code. *)
Ltac minv :=
  repeat match goal with
    | H : noexcept _ _ = Ret _ _ |- _ => apply noexcept_ret_inv in H
    | H : bind _ _ _ = Ret _ _ |- _ =>
        let a := fresh "a" in let m1 := fresh "m" in let H1 := fresh "H" in
        apply bind_ret_inv in H as (a & m1 & H1 & H); cbv beta in H;
        try (match type of a with unit => destruct a end)
    | H : ret _ _ = Ret _ _ |- _ => apply ret_inv in H as [? ->]; subst
    | H : read_sp _ _ = Ret _ _ |- _ => apply read_sp_inv in H as [-> H]
    | H : read_wp _ _ = Ret _ _ |- _ => apply read_wp_inv in H as [-> H]
    | H : place_sp _ _ _ = Ret _ _ |- _ =>
        let H1 := fresh "Hsp" in let H2 := fresh "Hfresh" in
        apply place_sp_inv in H as (H1 & H2 & ->)
    | H : place_wp _ _ _ = Ret _ _ |- _ =>
        let H1 := fresh "Hsp" in let H2 := fresh "Hfresh" in
        apply place_wp_inv in H as (H1 & H2 & ->)
    | H : write_sp _ _ _ = Ret _ _ |- _ => apply write_sp_inv in H as [H ->]
    | H : write_wp _ _ _ = Ret _ _ |- _ => apply write_wp_inv in H as [H ->]
    | H : end_sp _ _ = Ret _ _ |- _ => apply end_sp_inv in H as [H ->]
    | H : end_wp _ _ = Ret _ _ |- _ => apply end_wp_inv in H as [H ->]
    | H : new_block _ _ _ = Ret _ _ |- _ =>
        apply new_block_ret_inv in H as (-> & -> & ->)
    | H : deref _ _ _ = Ret _ _ |- _ =>
        let b := fresh "b" in let E := fresh "Hblk" in
        apply deref_ret_inv in H as (b & E & H)
    end.

Lemma wf_insert_null_sp m x v :
  wf m → strongs m !! x = None → Z.pos x < SIZE_MOD →
  sp_block v = None → sp_ptr v = nullptr →
  wf {| blocks := blocks m; next_block := next_block m;
        strongs := <[x := v]> (strongs m);
        weaks := weaks m; events := events m |}.
Proof.
  intros Hwf Hx Hsp Hb Hp.
  apply wf_change_strongs; [done|..].
  - intros b. rewrite owners_insert_fresh by done.
    rewrite holds_none by done. lia.
  - intros y w Hy. apply lookup_insert_Some in Hy as [[<- _]|[_ Hy]]; [done|].
    by eapply wf_sp_space.
  - intros y w Hy. apply lookup_insert_Some in Hy as [[<- <-]|[_ Hy]]; [done|].
    by eapply wf_sp_null.
Qed.

Lemma wf_insert_null_wp m x v :
  wf m → weaks m !! x = None → Z.pos x < SIZE_MOD →
  wp_block v = None → wp_ptr v = nullptr →
  wf {| blocks := blocks m; next_block := next_block m;
        strongs := strongs m;
        weaks := <[x := v]> (weaks m); events := events m |}.
Proof.
  intros Hwf Hx Hsp Hb Hp.
  apply wf_change_weaks; [done|..].
  - intros b. rewrite owners_insert_fresh by done.
    rewrite holds_none by done. lia.
  - intros y w Hy. apply lookup_insert_Some in Hy as [[<- _]|[_ Hy]]; [done|].
    by eapply wf_wp_space.
  - intros y w Hy. apply lookup_insert_Some in Hy as [[<- <-]|[_ Hy]]; [done|].
    by eapply wf_wp_null.
Qed.

(** ** The basic operations keep the invariant *)

Lemma sp_default_wf m x m' :
  wf m → sp_default x m = Ret tt m' → wf m'.
Proof.
  intros Hwf H. unfold sp_default in H. minv. msimpl.
  by apply wf_insert_null_sp.
Qed.

Lemma sp_raw_wf m x a ok m' :
  wf m → sp_raw x a ok m = Ret tt m' → wf m'.
Proof.
  intros Hwf H. unfold sp_raw in H. minv.
  apply try_catch_ret_inv in H as [H|(m1 & _ & H)].
  - minv. msimpl. rewrite insert_insert_eq.
    by apply wf_new_block.
  - unfold emit, throw, bind in H. done.
Qed.

Lemma make_shared_wf m x a ok m' :
  wf m → make_shared x a ok m = Ret tt m' → wf m'.
Proof.
  intros Hwf H. unfold make_shared in H. minv.
  match goal with H : inplace_get _ _ = _ |- _ =>
    unfold inplace_get, bind, load, ret in H; simpl in H;
    rewrite lookup_insert_eq in H; simpl in H; injection H as <- <- end.
  msimpl. by apply wf_new_block.
Qed.

(** A new strong pointer that shares the block of an existing one. *)
Lemma wf_share_strong m x r rv a b m' :
  wf m → strongs m !! r = Some rv → sp_block rv = Some b →
  strongs m !! x = None → Z.pos x < SIZE_MOD →
  inc_ref b (set_strongs (<[x := SharedPtr (Some b) a]> (strongs m)) m) = Ret tt m' →
  wf m'.
Proof.
  intros Hwf Hr Hb Hx Hsp H.
  destruct (wf_strong_live m r rv b Hwf Hr Hb) as (cb & Hcb & Hpos).
  rewrite (inc_ref_eq _ b cb) in H by done. injection H as <-.
  msimpl. by apply wf_add_strong.
Qed.

Lemma sp_alias_wf m x r a m' :
  wf m → sp_alias x r a m = Ret tt m' → wf m'.
Proof.
  intros Hwf H. unfold sp_alias in H. minv. rewrite Hblk in *.
  by eapply wf_share_strong.
Qed.

Lemma sp_copy_wf m x o m' :
  wf m → sp_copy x o m = Ret tt m' → wf m'.
Proof.
  intros Hwf H. unfold sp_copy in H. minv.
  destruct (sp_block a) as [b|] eqn:Hb; simpl in H.
  - by eapply wf_share_strong.
  - minv. msimpl. apply wf_insert_null_sp; try done. simpl. by eapply wf_sp_null.
Qed.

Lemma sp_convert_wf m x r cast m' :
  wf m → sp_convert x r cast m = Ret tt m' → wf m'.
Proof.
  intros Hwf H. unfold sp_convert in H. minv. rewrite Hblk in *.
  by eapply wf_share_strong.
Qed.

Lemma sp_move_wf m x o m' :
  wf m → sp_move x o m = Ret tt m' → wf m'.
Proof.
  intros Hwf H. unfold sp_move in H. minv.
  destruct a as [ab ap]. msimpl.
  apply wf_change_strongs; [done|..].
  - intros b. by apply owners_move.
  - intros y w Hy.
    apply lookup_insert_Some in Hy as [[<- _]|[_ Hy]]; [by eapply wf_sp_space|].
    apply lookup_insert_Some in Hy as [[<- _]|[_ Hy]]; [done|].
    by eapply wf_sp_space.
  - intros y w Hy.
    apply lookup_insert_Some in Hy as [[<- <-]|[_ Hy]]; [done|].
    apply lookup_insert_Some in Hy as [[<- <-]|[_ Hy]]; by eapply wf_sp_null.
Qed.

Lemma sp_swap_wf m x y m' :
  wf m → sp_swap x y m = Ret tt m' → wf m'.
Proof.
  intros Hwf H. unfold sp_swap in H. minv. msimpl.
  apply wf_change_strongs; [done|..].
  - intros b. by apply owners_swap.
  - intros z w Hz.
    apply lookup_insert_Some in Hz as [[<- _]|[_ Hz]]; [by eapply wf_sp_space|].
    apply lookup_insert_Some in Hz as [[<- _]|[_ Hz]]; by eapply wf_sp_space.
  - intros z w Hz.
    apply lookup_insert_Some in Hz as [[<- <-]|[_ Hz]]; [by eapply wf_sp_null|].
    apply lookup_insert_Some in Hz as [[<- <-]|[_ Hz]]; by eapply wf_sp_null.
Qed.

Lemma sp_dtor_wf m x m' :
  wf m → sp_dtor x m = Ret tt m' → wf m'.
Proof.
  intros Hwf H. unfold sp_dtor in H. minv.
  destruct (sp_block a) as [b|] eqn:Hb; simpl in *.
  - destruct (wf_strong_live m x a b Hwf H0 Hb) as (cb & Hcb & _).
    by eapply wf_drop_strong.
  - minv. msimpl. apply wf_change_strongs; [done|..].
    + intros b. rewrite (owners_delete sp_block (strongs m) x a b) by done.
      rewrite holds_none by done. lia.
    + intros y w Hy. apply lookup_delete_Some in Hy as [_ Hy].
      by eapply wf_sp_space.
    + intros y w Hy. apply lookup_delete_Some in Hy as [_ Hy].
      by eapply wf_sp_null.
Qed.

Lemma wp_default_wf m x m' :
  wf m → wp_default x m = Ret tt m' → wf m'.
Proof.
  intros Hwf H. unfold wp_default in H. minv. msimpl.
  by apply wf_insert_null_wp.
Qed.

(** A new weak pointer that observes the block of an existing pointer. *)
Lemma wf_share_weak m x a b cb m' :
  wf m → blocks m !! b = Some cb →
  weaks m !! x = None → Z.pos x < SIZE_MOD →
  inc_weak_ref b (set_weaks (<[x := WeakPtr (Some b) a]> (weaks m)) m) = Ret tt m' →
  wf m'.
Proof.
  intros Hwf Hcb Hx Hsp H.
  rewrite (inc_weak_ref_eq _ b cb) in H by done. injection H as <-.
  msimpl. by apply wf_add_weak.
Qed.

Lemma wp_copy_wf m x o m' :
  wf m → wp_copy x o m = Ret tt m' → wf m'.
Proof.
  intros Hwf H. unfold wp_copy in H. minv.
  destruct (wp_block a) as [b|] eqn:Hb; simpl in H.
  - destruct (wf_weak_live m o a b Hwf H0 Hb) as (cb & Hcb & _).
    by eapply wf_share_weak.
  - minv. msimpl. apply wf_insert_null_wp; try done. simpl. by eapply wf_wp_null.
Qed.

Lemma wp_from_shared_wf m x o m' :
  wf m → wp_from_shared x o m = Ret tt m' → wf m'.
Proof.
  intros Hwf H. unfold wp_from_shared in H. minv.
  destruct (sp_block a) as [b|] eqn:Hb; simpl in H.
  - destruct (wf_strong_live m o a b Hwf H0 Hb) as (cb & Hcb & _).
    by eapply wf_share_weak.
  - minv. msimpl. apply wf_insert_null_wp; try done. simpl. by eapply wf_sp_null.
Qed.

Lemma wp_move_wf m x o m' :
  wf m → wp_move x o m = Ret tt m' → wf m'.
Proof.
  intros Hwf H. unfold wp_move in H. minv.
  destruct a as [ab ap]. msimpl.
  apply wf_change_weaks; [done|..].
  - intros b. by apply owners_move.
  - intros y w Hy.
    apply lookup_insert_Some in Hy as [[<- _]|[_ Hy]]; [by eapply wf_wp_space|].
    apply lookup_insert_Some in Hy as [[<- _]|[_ Hy]]; [done|].
    by eapply wf_wp_space.
  - intros y w Hy.
    apply lookup_insert_Some in Hy as [[<- <-]|[_ Hy]]; [done|].
    apply lookup_insert_Some in Hy as [[<- <-]|[_ Hy]]; by eapply wf_wp_null.
Qed.

Lemma wp_swap_wf m x y m' :
  wf m → wp_swap x y m = Ret tt m' → wf m'.
Proof.
  intros Hwf H. unfold wp_swap in H. minv. msimpl.
  apply wf_change_weaks; [done|..].
  - intros b. by apply owners_swap.
  - intros z w Hz.
    apply lookup_insert_Some in Hz as [[<- _]|[_ Hz]]; [by eapply wf_wp_space|].
    apply lookup_insert_Some in Hz as [[<- _]|[_ Hz]]; by eapply wf_wp_space.
  - intros z w Hz.
    apply lookup_insert_Some in Hz as [[<- <-]|[_ Hz]]; [by eapply wf_wp_null|].
    apply lookup_insert_Some in Hz as [[<- <-]|[_ Hz]]; by eapply wf_wp_null.
Qed.

Lemma wp_dtor_wf m x m' :
  wf m → wp_dtor x m = Ret tt m' → wf m'.
Proof.
  intros Hwf H. unfold wp_dtor in H. minv.
  destruct (wp_block a) as [b|] eqn:Hb; simpl in *.
  - destruct (wf_weak_live m x a b Hwf H0 Hb) as (cb & Hcb & _).
    by eapply wf_drop_weak.
  - minv. msimpl. apply wf_change_weaks; [done|..].
    + intros b. rewrite (owners_delete wp_block (weaks m) x a b) by done.
      rewrite holds_none by done. lia.
    + intros y w Hy. apply lookup_delete_Some in Hy as [_ Hy].
      by eapply wf_wp_space.
    + intros y w Hy. apply lookup_delete_Some in Hy as [_ Hy].
      by eapply wf_wp_null.
Qed.

Lemma lock_wf m x r m' :
  wf m → lock x r m = Ret tt m' → wf m'.
Proof.
  intros Hwf H. unfold lock in H. minv.
  destruct (wp_block a) as [b|] eqn:Hb; simpl in *.
  - destruct (wf_weak_live m x a b Hwf H0 Hb) as (cb & Hcb & _).
    rewrite (object_deleted_eq m b cb Hcb) in H1. injection H1 as <- <-.
    destruct (Z.eqb_spec (counter cb) 0) as [Hc|Hc].
    + by eapply sp_default_wf.
    + minv.
      match goal with H : inc_ref _ _ = _ |- _ =>
        rewrite (inc_ref_eq m b cb Hcb) in H; injection H as <- end.
      pose proof (wf_counter_bound m b cb Hwf Hcb).
      msimpl. apply wf_add_strong; try done. lia.
  - minv. by eapply sp_default_wf.
Qed.

(** ** The assignments and [reset] are built from the basic operations *)

Lemma sp_copy_assign_wf m x o t m' :
  wf m → sp_copy_assign x o t m = Ret tt m' → wf m'.
Proof.
  intros Hwf H. unfold sp_copy_assign in H. minv.
  destruct (decide (x = o)); minv; [done|].
  eauto using sp_copy_wf, sp_swap_wf, sp_dtor_wf.
Qed.

Lemma sp_move_assign_wf m x o t m' :
  wf m → sp_move_assign x o t m = Ret tt m' → wf m'.
Proof.
  intros Hwf H. unfold sp_move_assign in H. minv.
  eauto using sp_move_wf, sp_swap_wf, sp_dtor_wf.
Qed.

Lemma sp_reset_wf m x t m' :
  wf m → sp_reset x t m = Ret tt m' → wf m'.
Proof.
  intros Hwf H. unfold sp_reset in H. minv.
  eauto using sp_default_wf, sp_swap_wf, sp_dtor_wf.
Qed.

Lemma sp_reset_raw_wf m x a ok t m' :
  wf m → sp_reset_raw x a ok t m = Ret tt m' → wf m'.
Proof.
  intros Hwf H. unfold sp_reset_raw in H. minv.
  eauto using sp_raw_wf, sp_swap_wf, sp_dtor_wf.
Qed.

Lemma wp_copy_assign_wf m x o t m' :
  wf m → wp_copy_assign x o t m = Ret tt m' → wf m'.
Proof.
  intros Hwf H. unfold wp_copy_assign in H. minv.
  destruct (decide (o = x)); minv; [done|].
  eauto using wp_copy_wf, wp_swap_wf, wp_dtor_wf.
Qed.

Lemma wp_move_assign_wf m x o t m' :
  wf m → wp_move_assign x o t m = Ret tt m' → wf m'.
Proof.
  intros Hwf H. unfold wp_move_assign in H. minv.
  eauto using wp_move_wf, wp_swap_wf, wp_dtor_wf.
Qed.

Lemma wp_assign_shared_wf m x o t m' :
  wf m → wp_assign_shared x o t m = Ret tt m' → wf m'.
Proof.
  intros Hwf H. unfold wp_assign_shared in H. minv.
  eauto using wp_from_shared_wf, wp_swap_wf, wp_dtor_wf.
Qed.

(** ** Every program keeps the invariant *)

Lemma initial_wf : wf initial.
Proof.
  constructor; try done; intros b;
    unfold payload_destructions, block_deletions, allocated, initial;
    cbn [events blocks next_block count_events]; rewrite lookup_empty;
    (destruct (decide _); [lia|done]).
Qed.

Lemma step_wf o m m' :
  wf m → step o m = Ret tt m' → wf m'.
Proof.
  intros Hwf H. destruct o; cbn [step] in H.
  - by eapply sp_default_wf.
  - by eapply sp_default_wf.
  - by eapply sp_raw_wf.
  - by eapply sp_alias_wf.
  - by eapply sp_copy_wf.
  - by eapply sp_move_wf.
  - by eapply sp_copy_assign_wf.
  - by eapply sp_move_assign_wf.
  - by eapply sp_convert_wf.
  - by eapply sp_swap_wf.
  - by eapply sp_reset_wf.
  - by eapply sp_reset_raw_wf.
  - by eapply sp_dtor_wf.
  - by eapply make_shared_wf.
  - by eapply wp_default_wf.
  - by eapply wp_copy_wf.
  - by eapply wp_move_wf.
  - by eapply wp_from_shared_wf.
  - by eapply wp_copy_assign_wf.
  - by eapply wp_move_assign_wf.
  - by eapply wp_assign_shared_wf.
  - by eapply wp_swap_wf.
  - by eapply lock_wf.
  - by eapply wp_dtor_wf.
Qed.

Lemma run_wf p m m' :
  wf m → run p m = Ret tt m' → wf m'.
Proof.
  revert m. induction p as [|o p IH]; intros m Hwf H; cbn [run] in H.
  - by minv.
  - minv. eapply IH; [|done]. by eapply step_wf.
Qed.

Lemma run_app p q m :
  run (p ++ q) m = (run p ;; run q) m.
Proof.
  revert m. induction p as [|o p IH]; intros m; cbn [run app].
  - done.
  - unfold bind in *. by destruct (step o m).
Qed.

(** ** The log only grows *)

Lemma extends_refl m : extends m m.
Proof. split; [by exists []|lia]. Qed.

Lemma extends_trans m1 m2 m3 : extends m1 m2 → extends m2 m3 → extends m1 m3.
Proof.
  intros [[l1 H1] Hn1] [[l2 H2] Hn2]. split; [|lia].
  exists (l2 ++ l1). by rewrite H2, H1, app_assoc.
Qed.

Lemma extends_same m m' :
  events m' = events m → next_block m' = next_block m → extends m m'.
Proof. intros He Hn. split; [exists []; by rewrite He|lia]. Qed.

Create HintDb mono.

Lemma monotone_ret {A} (a : A) : monotone (ret a).
Proof. intros m. apply extends_refl. Qed.

Lemma monotone_throw {A} : monotone (@throw A).
Proof. intros m. apply extends_refl. Qed.

Lemma monotone_undefined {A} f : monotone (@undefined A f).
Proof. by intros m. Qed.

Lemma monotone_bind {A B} (c : M A) (k : A → M B) :
  monotone c → (∀ a, monotone (k a)) → monotone (bind c k).
Proof.
  intros Hc Hk m. unfold bind. specialize (Hc m).
  destruct (c m) as [a m1|m1|m1|f]; try done.
  specialize (Hk a m1). destruct (k a m1); try done; by eapply extends_trans.
Qed.

Lemma monotone_noexcept {A} (c : M A) : monotone c → monotone (noexcept c).
Proof. intros Hc m. unfold noexcept. specialize (Hc m). by destruct (c m). Qed.

Lemma monotone_try_catch {A} (c h : M A) :
  monotone c → monotone h → monotone (try_catch c h).
Proof.
  intros Hc Hh m. unfold try_catch. specialize (Hc m).
  destruct (c m) as [a m1|m1|m1|f]; try done.
  specialize (Hh m1). destruct (h m1); try done; by eapply extends_trans.
Qed.

Lemma monotone_emit e : monotone (emit e).
Proof. intros m. split; simpl; [by exists [e]|lia]. Qed.

Lemma monotone_load b : monotone (load b).
Proof. intros m. unfold load. destruct (blocks m !! b); [apply extends_refl|done]. Qed.

Lemma monotone_store b cb : monotone (store b cb).
Proof. intros m. unfold store. destruct (blocks m !! b); [by apply extends_same|done]. Qed.

Lemma monotone_new_block ok k : monotone (new_block ok k).
Proof.
  intros m. unfold new_block. destruct ok; [|apply extends_refl].
  split; simpl; [by exists []|lia].
Qed.

Lemma monotone_delete_this b : monotone (delete_this b).
Proof.
  intros m. unfold delete_this. destruct (blocks m !! b); [|done].
  split; simpl; [by exists [EvDeleteBlock b]|lia].
Qed.

Lemma monotone_place_sp x v : monotone (place_sp x v).
Proof.
  intros m. unfold place_sp. destruct (negb _); [done|].
  destruct (strongs m !! x); [done|by apply extends_same].
Qed.

Lemma monotone_read_sp x : monotone (read_sp x).
Proof. intros m. unfold read_sp. destruct (strongs m !! x); [apply extends_refl|done]. Qed.

Lemma monotone_write_sp x v : monotone (write_sp x v).
Proof. intros m. unfold write_sp. destruct (strongs m !! x); [by apply extends_same|done]. Qed.

Lemma monotone_end_sp x : monotone (end_sp x).
Proof. intros m. unfold end_sp. destruct (strongs m !! x); [by apply extends_same|done]. Qed.

Lemma monotone_place_wp x v : monotone (place_wp x v).
Proof.
  intros m. unfold place_wp. destruct (negb _); [done|].
  destruct (weaks m !! x); [done|by apply extends_same].
Qed.

Lemma monotone_read_wp x : monotone (read_wp x).
Proof. intros m. unfold read_wp. destruct (weaks m !! x); [apply extends_refl|done]. Qed.

Lemma monotone_write_wp x v : monotone (write_wp x v).
Proof. intros m. unfold write_wp. destruct (weaks m !! x); [by apply extends_same|done]. Qed.

Lemma monotone_end_wp x : monotone (end_wp x).
Proof. intros m. unfold end_wp. destruct (weaks m !! x); [by apply extends_same|done]. Qed.

#[global] Hint Resolve monotone_ret monotone_throw monotone_undefined
  monotone_emit monotone_load monotone_store monotone_new_block
  monotone_delete_this monotone_place_sp monotone_read_sp monotone_write_sp
  monotone_end_sp monotone_place_wp monotone_read_wp monotone_write_wp
  monotone_end_wp : mono.

(** Structural rules first, then case analysis on what the code branches on. *)
Ltac mono :=
  repeat first
    [ apply monotone_noexcept
    | apply monotone_try_catch
    | apply monotone_bind; [|intros ?]
    | solve [auto with mono]
    | match goal with
      | |- monotone (if ?c then _ else _) => destruct c
      | |- monotone (match ?o with _ => _ end) => destruct o
      | |- monotone (deref ?o _) => destruct o; simpl
      | |- monotone (if_block ?o _) => destruct o; simpl
      end ].

Lemma monotone_inc_ref b : monotone (inc_ref b).
Proof. unfold inc_ref. mono. Qed.

Lemma monotone_dec_ref b : monotone (dec_ref b).
Proof. unfold dec_ref, delete_object. mono. Qed.

Lemma monotone_inc_weak_ref b : monotone (inc_weak_ref b).
Proof. unfold inc_weak_ref. mono. Qed.

Lemma monotone_dec_weak_ref b : monotone (dec_weak_ref b).
Proof. unfold dec_weak_ref. mono. Qed.

Lemma monotone_object_deleted b : monotone (object_deleted b).
Proof. unfold object_deleted. mono. Qed.

#[global] Hint Resolve monotone_inc_ref monotone_dec_ref monotone_inc_weak_ref
  monotone_dec_weak_ref monotone_object_deleted : mono.

Lemma monotone_step o : monotone (step o).
Proof.
  destruct o; cbn [step];
    unfold sp_default, sp_nullptr, sp_raw, sp_alias, sp_copy, sp_move,
      sp_copy_assign, sp_move_assign, sp_convert, sp_swap, sp_reset,
      sp_reset_raw, sp_dtor, make_shared, inplace_get, wp_default, wp_copy,
      wp_move, wp_from_shared, wp_copy_assign, wp_move_assign,
      wp_assign_shared, wp_swap, lock, wp_dtor,
      sp_default, sp_raw, sp_copy, sp_move, sp_swap, sp_dtor,
      wp_copy, wp_move, wp_from_shared, wp_swap, wp_dtor;
    mono.
Qed.

Lemma monotone_run p : monotone (run p).
Proof.
  induction p as [|o p IH]; cbn [run].
  - apply monotone_ret.
  - apply monotone_bind; [apply monotone_step|done].
Qed.

Lemma run_extends p m m' : run p m = Ret tt m' → extends m m'.
Proof. intros H. pose proof (monotone_run p m) as Hm. by rewrite H in Hm. Qed.

Lemma count_events_app f l1 l2 :
  count_events f (l1 ++ l2) = (count_events f l1 + count_events f l2)%nat.
Proof. induction l1 as [|e l1 IH]; simpl; [done|]. rewrite IH. lia. Qed.

Lemma extends_payload_destructions m m' b :
  extends m m' → (payload_destructions m b ≤ payload_destructions m' b)%nat.
Proof.
  intros [[l Hl] _]. unfold payload_destructions.
  rewrite Hl, count_events_app. lia.
Qed.

Lemma extends_allocated m m' b : extends m m' → allocated m b → allocated m' b.
Proof. intros [_ Hn]. unfold allocated. lia. Qed.

(** ** Running an operation whose operands are known *)

Lemma in_address_space_true x : Z.pos x < SIZE_MOD → in_address_space x = true.
Proof. intros H. unfold in_address_space. by apply Z.ltb_lt. Qed.

Lemma place_sp_eq m x v :
  strongs m !! x = None → Z.pos x < SIZE_MOD →
  place_sp x v m = Ret tt (set_strongs (<[x := v]> (strongs m)) m).
Proof.
  intros Hx Hsp. unfold place_sp.
  by rewrite in_address_space_true, Hx.
Qed.

(** The temporary of a move assignment from the object itself. *)
Lemma self_move_store {V} (s : gmap positive V) x t (p null : V) :
  s !! x = Some p → s !! t = None →
  delete t (<[x := p]> (<[t := null]> (<[x := null]> (<[t := p]> s)))) = s.
Proof.
  intros Hx Ht. assert (x ≠ t) as Hne by congruence.
  apply map_eq. intros k.
  destruct (decide (k = t)) as [->|Hkt].
  - by rewrite lookup_delete_eq.
  - rewrite lookup_delete_ne by done.
    destruct (decide (k = x)) as [->|Hkx].
    + by rewrite lookup_insert_eq.
    + by rewrite !lookup_insert_ne by done.
Qed.

Lemma machine_eta m :
  {| blocks := blocks m; next_block := next_block m; strongs := strongs m;
     weaks := weaks m; events := events m |} = m.
Proof. by destruct m. Qed.

Ltac unfold_ops :=
  unfold sp_default, sp_nullptr, sp_raw, sp_alias, sp_copy, sp_move,
    sp_copy_assign, sp_move_assign, sp_convert, sp_swap, sp_reset,
    sp_reset_raw, sp_dtor, make_shared, inplace_get, wp_default, wp_copy,
    wp_move, wp_from_shared, wp_copy_assign, wp_move_assign,
    wp_assign_shared, wp_swap, lock, wp_dtor, use_count, sp_get,
    sp_default, sp_raw, sp_copy, sp_move, sp_swap, sp_dtor,
    wp_copy, wp_move, wp_from_shared, wp_swap, wp_dtor,
    noexcept, try_catch, throw, undefined, if_block, deref,
    read_sp, place_sp, write_sp, end_sp, read_wp, place_wp, write_wp, end_wp,
    new_block.

(** Runs the code on a machine whose relevant lookups are hypotheses. *)
Ltac mexec :=
  unfold_ops; unfold_members;
  repeat (progress (simpl; rewrite ?in_address_space_true by done;
                    simplify_map_eq)).

Lemma sp_eta p : {| sp_block := sp_block p; sp_ptr := sp_ptr p |} = p.
Proof. by destruct p. Qed.

Lemma wp_eta p : {| wp_block := wp_block p; wp_ptr := wp_ptr p |} = p.
Proof. by destruct p. Qed.

Lemma sp_move_assign_self m x t p :
  strongs m !! x = Some p → strongs m !! t = None → Z.pos t < SIZE_MOD →
  sp_move_assign x x t m = Ret tt m.
Proof.
  intros Hx Ht Hsp. assert (x ≠ t) as Hne by congruence.
  mexec. unfold set_strongs. simpl. rewrite sp_eta.
  rewrite (self_move_store (strongs m) x t p null_sp) by done.
  by rewrite machine_eta.
Qed.

Lemma wp_move_assign_self m x t p :
  weaks m !! x = Some p → weaks m !! t = None → Z.pos t < SIZE_MOD →
  wp_move_assign x x t m = Ret tt m.
Proof.
  intros Hx Ht Hsp. assert (x ≠ t) as Hne by congruence.
  mexec. unfold set_weaks. simpl. rewrite wp_eta.
  rewrite (self_move_store (weaks m) x t p null_wp) by done.
  by rewrite machine_eta.
Qed.

(** ** The example programs *)

Lemma reaches_scenario : reaches scenario initial scenario_state.
Proof. by vm_compute. Defined.

Lemma reaches_owner_and_observer :
  reaches owner_and_observer initial owner_and_observer_state.
Proof. by vm_compute. Defined.

Lemma reaches_single_owner : reaches single_owner initial single_owner_state.
Proof. by vm_compute. Defined.

(** ** Self-assignment *)

(** C7.  Copy self-assignment, [p = p] and [w = w], is a no-op: the
    operator returns at once and the whole machine state (stored block and
    address of every pointer, both counters of every control block, the
    log of payload destructions) is unchanged. *)
Theorem copy_self_assignment_is_noop (m : machine) (x tmp : positive) :
  sp_copy_assign x x tmp m = Ret tt m ∧
  wp_copy_assign x x tmp m = Ret tt m.
Proof.
  unfold sp_copy_assign, wp_copy_assign, noexcept, ret.
  by rewrite !decide_True by done.
Qed.

(** C10.  Move self-assignment, [p = std::move(p)] and [w = std::move(w)],
    also leaves the machine unchanged although the operators have no
    self-assignment check: the temporary takes the members over, gives
    them back in [swap] and is destroyed holding nothing.  No counter is
    touched and nothing is logged.  This holds for every strong pointer of
    every state, whether or not the state has weak pointers, and for every
    weak pointer likewise. *)
Theorem move_self_assignment_unchanged (m : machine) :
  (∀ (x tmp : positive) (p : shared_ptr),
     strongs m !! x = Some p →
     strongs m !! tmp = None → Z.pos tmp < SIZE_MOD →
     sp_move_assign x x tmp m = Ret tt m) ∧
  (∀ (y tmp : positive) (w : weak_ptr),
     weaks m !! y = Some w →
     weaks m !! tmp = None → Z.pos tmp < SIZE_MOD →
     wp_move_assign y y tmp m = Ret tt m).
Proof.
  split.
  - intros x tmp p Hx Ht Hsp. by eapply sp_move_assign_self.
  - intros y tmp w Hy Ht Hsp. by eapply wp_move_assign_self.
Qed.

Lemma move_self_assignment_unchanged_witness :
  sp_move_assign 1 1 2 single_owner_state = Ret tt single_owner_state ∧
  wp_move_assign 1 1 2 scenario_state = Ret tt scenario_state.
Proof.
  split.
  - apply (proj1 (move_self_assignment_unchanged single_owner_state) 1 2
             (SharedPtr (Some 1%positive) 42))%positive; by vm_compute.
  - apply (proj2 (move_self_assignment_unchanged scenario_state) 1 2
             (WeakPtr (Some 1%positive) 42))%positive; by vm_compute.
Defined.

(** ** Comparison *)

(** C8.  [a == b] holds exactly when [a.get()] equals [b.get()], whatever
    the control blocks are: equal addresses over different blocks compare
    equal, different addresses over one block compare unequal, [!=] is the
    negation, and a default-constructed pointer compares equal to
    [nullptr] from both sides. *)
Theorem equality_compares_addresses (a b : shared_ptr) (m : machine)
    (x : positive) :
  strongs m !! x = None → Z.pos x < SIZE_MOD →
  (sp_eq a b = true ↔ get a = get b) ∧
  sp_ne a b = negb (sp_eq a b) ∧
  (∀ b1 b2 p, sp_eq (SharedPtr b1 p) (SharedPtr b2 p) = true) ∧
  (∀ b0 p q, sp_eq (SharedPtr b0 p) (SharedPtr b0 q) = bool_decide (p = q)) ∧
  (sp_eq_nullptr a = true ↔ get a = nullptr) ∧
  nullptr_eq_sp a = sp_eq_nullptr a ∧
  ∃ m' v, sp_default x m = Ret tt m' ∧ strongs m' !! x = Some v ∧
          sp_eq_nullptr v = true ∧ nullptr_eq_sp v = true ∧
          sp_ne_nullptr v = false ∧ nullptr_ne_sp v = false.
Proof.
  intros Hx Hsp.
  unfold sp_eq, sp_ne, sp_eq_nullptr, nullptr_eq_sp, sp_ne_nullptr,
    nullptr_ne_sp, get.
  split; [apply Z.eqb_eq|]. split; [done|].
  split; [intros b1 b2 p; apply Z.eqb_refl|].
  split.
  { intros b0 p q. simpl. destruct (Z.eqb_spec p q).
    - by rewrite bool_decide_eq_true_2.
    - by rewrite bool_decide_eq_false_2. }
  split; [apply Z.eqb_eq|]. split; [done|].
  exists (set_strongs (<[x := null_sp]> (strongs m)) m), null_sp.
  split; [by apply place_sp_eq|].
  split; [|done]. unfold set_strongs. simpl. by rewrite lookup_insert_eq.
Qed.

Lemma equality_compares_addresses_witness :
  strongs initial !! 1%positive = None ∧ Z.pos 1 < SIZE_MOD ∧
  (sp_eq (SharedPtr (Some 1%positive) 42) (SharedPtr (Some 2%positive) 42) = true ↔
   get (SharedPtr (Some 1%positive) 42) = get (SharedPtr (Some 2%positive) 42)) ∧
  ∃ m' v, sp_default 1 initial = Ret tt m' ∧ strongs m' !! 1%positive = Some v ∧
          sp_eq_nullptr v = true.
Proof.
  do 2 (split; [by vm_compute|]).
  destruct (equality_compares_addresses
              (SharedPtr (Some 1%positive) 42) (SharedPtr (Some 2%positive) 42)
              initial 1)
    as (Heq & _ & _ & _ & _ & _ & m' & v & Hrun & Hv & Hnull & _);
    [by vm_compute..|].
  split; [exact Heq|]. exists m', v. by repeat split.
Defined.

(** ** Aliasing construction *)

(** C9.  The aliasing constructor calls [block->inc_ref()] without looking
    at [block].  From a source [r] without a control block the call goes
    through a null pointer (undefined behaviour), where the copy
    constructor, which tests [block] first, just copies the null pointer;
    from a source that holds a live block the strong count goes up by one
    and the new pointer reports the address it was given. *)
Theorem aliasing_needs_a_block (m : machine) (x r : positive) (rv : shared_ptr)
    (a : Z) :
  strongs m !! r = Some rv →
  strongs m !! x = None → Z.pos x < SIZE_MOD →
  match sp_block rv with
  | None =>
      sp_alias x r a m = Undefined NullDereference ∧
      sp_copy x r m = Ret tt (set_strongs (<[x := rv]> (strongs m)) m)
  | Some b =>
      ∀ cb, blocks m !! b = Some cb →
        sp_alias x r a m =
          Ret tt {| blocks := <[b := set_counter (to_size_t (counter cb + 1)) cb]>
                                (blocks m);
                    next_block := next_block m;
                    strongs := <[x := SharedPtr (Some b) a]> (strongs m);
                    weaks := weaks m;
                    events := events m |}
  end.
Proof.
  intros Hr Hx Hsp. destruct (sp_block rv) as [b|] eqn:Hb.
  - intros cb Hcb. by mexec.
  - split.
    + by mexec.
    + mexec. by rewrite <- Hb, sp_eta.
Qed.

Lemma aliasing_needs_a_block_witness :
  strongs default_only_state !! 1%positive = Some null_sp ∧
  strongs default_only_state !! 2%positive = None ∧
  Z.pos 2 < SIZE_MOD ∧
  sp_alias 2 1 7 default_only_state = Undefined NullDereference ∧
  sp_copy 2 1 default_only_state =
    Ret tt (set_strongs (<[2%positive := null_sp]> (strongs default_only_state))
              default_only_state).
Proof.
  do 3 (split; [by vm_compute|]).
  apply (aliasing_needs_a_block default_only_state 2 1 null_sp 7); by vm_compute.
Defined.

(** ** Construction from a raw address *)

(** C5.  When the allocation of the control block fails, the handler calls
    the deleter on the raw address, once, and rethrows; but the
    constructor is declared [noexcept], so the rethrown exception does not
    reach the caller: the program is terminated.  When the allocation
    succeeds the deleter is not called and the new block has
    [counter = 1], [weak_counter = 0]. *)
Theorem raw_construction_alloc_failure (m : machine) (x : positive) (a : Z) :
  strongs m !! x = None → Z.pos x < SIZE_MOD →
  sp_raw x a false m =
    Terminate {| blocks := blocks m; next_block := next_block m;
                 strongs := <[x := null_sp]> (strongs m);
                 weaks := weaks m;
                 events := EvDeleter a :: events m |} ∧
  sp_raw x a true m =
    Ret tt {| blocks := <[next_block m := ControlBlock 1 0 (Regular a)]> (blocks m);
              next_block := Pos.succ (next_block m);
              strongs := <[x := SharedPtr (Some (next_block m)) a]> (strongs m);
              weaks := weaks m;
              events := events m |}.
Proof.
  intros Hx Hsp. split.
  - by mexec.
  - mexec. unfold set_strongs. simpl. by rewrite insert_insert_eq.
Qed.

Lemma raw_construction_alloc_failure_witness :
  strongs initial !! 1%positive = None ∧ Z.pos 1 < SIZE_MOD ∧
  sp_raw 1 42 false initial =
    Terminate {| blocks := blocks initial; next_block := next_block initial;
                 strongs := <[1%positive := null_sp]> (strongs initial);
                 weaks := weaks initial;
                 events := EvDeleter 42 :: events initial |} ∧
  sp_raw 1 42 true initial =
    Ret tt {| blocks := <[next_block initial := ControlBlock 1 0 (Regular 42)]>
                          (blocks initial);
              next_block := Pos.succ (next_block initial);
              strongs := <[1%positive := SharedPtr (Some (next_block initial)) 42]>
                           (strongs initial);
              weaks := weaks initial;
              events := events initial |}.
Proof.
  do 2 (split; [by vm_compute|]).
  apply (raw_construction_alloc_failure initial 1 42); by vm_compute.
Defined.

(** ** Conversion to a related pointer type *)

(** C6.  Converting a non-null strong pointer (one with a stored address,
    or with a control block) shares its control block and raises the
    strong count by exactly one; the weak count is untouched and the result
    stores the converted address. *)
Theorem conversion_retains_once (p : list op) (m : machine) (x y : positive)
    (v : shared_ptr) (cast : Z → Z) :
  reaches p initial m →
  strongs m !! x = Some v →
  sp_ptr v ≠ nullptr ∨ sp_block v ≠ None →
  strongs m !! y = None → Z.pos y < SIZE_MOD →
  ∃ b cb m',
    sp_block v = Some b ∧ blocks m !! b = Some cb ∧
    sp_convert x y cast m = Ret tt m' ∧
    strongs m' !! y = Some (SharedPtr (Some b) (cast (sp_ptr v))) ∧
    strongs m' !! x = Some v ∧
    strong_count_of m' b = strong_count_of m b + 1 ∧
    weak_count_of m' b = weak_count_of m b ∧
    Z.of_nat (live_strong m' b) = Z.of_nat (live_strong m b) + 1.
Proof.
  intros Hreach Hx Hnn Hy Hsp.
  pose proof (run_wf _ _ _ initial_wf Hreach) as Hwf.
  destruct (sp_block v) as [b|] eqn:Hb.
  2:{ destruct Hnn as [Hnn|Hnn]; [|done].
      by pose proof (wf_sp_null m Hwf x v Hx Hb). }
  destruct (wf_strong_live m x v b Hwf Hx Hb) as (cb & Hcb & Hpos).
  pose proof (wf_counter_bound m b cb Hwf Hcb) as Hbound.
  pose proof (size_fresh_in_space (strongs m) y v (wf_sp_space m Hwf) Hy Hsp).
  assert (x ≠ y) as Hne by congruence.
  assert (sp_convert x y cast m =
    Ret tt {| blocks := <[b := set_counter (to_size_t (counter cb + 1)) cb]> (blocks m);
              next_block := next_block m;
              strongs := <[y := SharedPtr (Some b) (cast (sp_ptr v))]> (strongs m);
              weaks := weaks m; events := events m |}) as Hrun.
  { by mexec. }
  eexists b, cb, _. split; [done|]. split; [done|]. split; [exact Hrun|].
  pose proof (wf_strong m Hwf b) as Hs.
  assert (wf {| blocks := <[b := set_counter (to_size_t (counter cb + 1)) cb]> (blocks m);
              next_block := next_block m;
              strongs := <[y := SharedPtr (Some b) (cast (sp_ptr v))]> (strongs m);
              weaks := weaks m; events := events m |}) as Hwf'.
  { by apply wf_add_strong. }
  pose proof (wf_strong _ Hwf' b) as Hs'.
  assert (to_size_t (counter cb + 1) = counter cb + 1) as Hsz
    by (apply to_size_t_small; lia).
  unfold strong_count_of, weak_count_of in *. cbn [blocks strongs] in *.
  rewrite lookup_insert_eq in Hs'. rewrite !lookup_insert_eq.
  rewrite Hcb in *. cbn [counter weak_counter set_counter] in *.
  rewrite lookup_insert_ne by done.
  repeat split; try done; lia.
Qed.

Lemma conversion_retains_once_witness :
  reaches owner_and_observer initial owner_and_observer_state ∧
  strongs owner_and_observer_state !! 1%positive = Some (SharedPtr (Some 1%positive) 42) ∧
  (sp_ptr (SharedPtr (Some 1%positive) 42) ≠ nullptr ∨
   sp_block (SharedPtr (Some 1%positive) 42) ≠ None) ∧
  strongs owner_and_observer_state !! 2%positive = None ∧
  Z.pos 2 < SIZE_MOD ∧
  ∃ b cb m',
    sp_block (SharedPtr (Some 1%positive) 42) = Some b ∧
    blocks owner_and_observer_state !! b = Some cb ∧
    sp_convert 1 2 (λ a, a + 8) owner_and_observer_state = Ret tt m' ∧
    strongs m' !! 2%positive = Some (SharedPtr (Some b) (42 + 8)) ∧
    strongs m' !! 1%positive = Some (SharedPtr (Some 1%positive) 42) ∧
    strong_count_of m' b = strong_count_of owner_and_observer_state b + 1 ∧
    weak_count_of m' b = weak_count_of owner_and_observer_state b ∧
    Z.of_nat (live_strong m' b) =
      Z.of_nat (live_strong owner_and_observer_state b) + 1.
Proof.
  split; [exact reaches_owner_and_observer|].
  split; [by vm_compute|]. split; [by left|]. do 2 (split; [by vm_compute|]).
  apply (conversion_retains_once owner_and_observer owner_and_observer_state 1 2
           (SharedPtr (Some 1%positive) 42) (λ a, a + 8)).
  - exact reaches_owner_and_observer.
  - by vm_compute.
  - by left.
  - by vm_compute.
  - by vm_compute.
Defined.

(** ** [use_count] *)

Lemma sp_copy_eq m x o v b cb :
  strongs m !! o = Some v → sp_block v = Some b → blocks m !! b = Some cb →
  strongs m !! x = None → Z.pos x < SIZE_MOD →
  sp_copy x o m =
    Ret tt {| blocks := <[b := set_counter (to_size_t (counter cb + 1)) cb]> (blocks m);
              next_block := next_block m;
              strongs := <[x := v]> (strongs m);
              weaks := weaks m; events := events m |}.
Proof.
  intros Ho Hb Hcb Hx Hsp. assert (o ≠ x) as Hne by congruence.
  mexec. by rewrite <- Hb, sp_eta.
Qed.

Lemma copies_S n :
  copies (S n) = copies n ++ [SpCopy (Pos.of_nat (n + 2)) 1%positive].
Proof. unfold copies. by rewrite seq_S, map_app. Qed.

(** One owner built from a raw address, then [n] copies of it. *)
Lemma run_copies (n : nat) :
  Z.of_nat n + 2 < SIZE_MOD →
  ∃ m, run (SpRaw 1 42 true :: copies n) initial = Ret tt m ∧
       strongs m !! 1%positive = Some (SharedPtr (Some 1%positive) 42) ∧
       blocks m !! 1%positive = Some (ControlBlock (Z.of_nat n + 1) 0 (Regular 42)) ∧
       (∀ x, (n + 1 < Pos.to_nat x)%nat → strongs m !! x = None).
Proof.
  induction n as [|n IH]; intros Hn.
  - exists {| blocks := {[1%positive := ControlBlock 1 0 (Regular 42)]};
              next_block := 2%positive;
              strongs := {[1%positive := SharedPtr (Some 1%positive) 42]};
              weaks := ∅; events := [] |}.
    split; [by vm_compute|]. split; [by vm_compute|]. split; [by vm_compute|].
    intros x Hx. cbn [strongs]. apply lookup_singleton_None. lia.
  - destruct IH as (m & Hrun & Hs & Hb & Hfree); [lia|].
    rewrite copies_S, app_comm_cons, run_app.
    unfold bind at 1. rewrite Hrun. cbn [run step].
    assert (Z.pos (Pos.of_nat (n + 2)) < SIZE_MOD) as Hsp.
    { rewrite <- positive_nat_Z, Nat2Pos.id by lia. lia. }
    assert (strongs m !! Pos.of_nat (n + 2) = None) as Hx.
    { apply Hfree. rewrite Nat2Pos.id by lia. lia. }
    unfold bind.
    rewrite (sp_copy_eq m _ 1%positive _ 1%positive _ Hs eq_refl Hb Hx Hsp).
    eexists. split; [reflexivity|]. cbn [strongs blocks counter].
    split; [|split].
    + rewrite lookup_insert_ne; [done|]. intros Heq.
      rewrite <- Heq in Hs. congruence.
    + rewrite lookup_insert_eq. unfold set_counter. simpl.
      rewrite to_size_t_small by lia. do 2 f_equal. lia.
    + intros x Hlt. rewrite lookup_insert_ne.
      * apply Hfree. lia.
      * intros <-. rewrite Nat2Pos.id in Hlt by lia. lia.
Qed.

Lemma use_count_eq m x v b cb :
  strongs m !! x = Some v → sp_block v = Some b → blocks m !! b = Some cb →
  use_count x m = Ret (to_size_t (to_int (counter cb))) m.
Proof. intros Hx Hb Hcb. by mexec. Qed.

(** Up to [INT_MAX] owners, [use_count] is the number of live strong
    pointers that reference the block. *)
Lemma use_count_exact p m x v b :
  reaches p initial m →
  strongs m !! x = Some v → sp_block v = Some b →
  Z.of_nat (live_strong m b) ≤ INT_MAX →
  use_count x m = Ret (Z.of_nat (live_strong m b)) m.
Proof.
  intros Hreach Hx Hb Hle.
  pose proof (run_wf _ _ _ initial_wf Hreach) as Hwf.
  destruct (wf_strong_live m x v b Hwf Hx Hb) as (cb & Hcb & Hpos).
  pose proof (wf_strong m Hwf b) as Hs. unfold strong_count_of in Hs.
  rewrite Hcb in Hs. rewrite (use_count_eq m x v b cb) by done.
  rewrite <- Hs. rewrite to_int_small by lia.
  rewrite to_size_t_small; [done|]. unfold INT_MAX, SIZE_MOD in *. lia.
Qed.

(** C1.  The counters of a block do follow its owners ([run_wf]), but
    [use_count()] goes through [int get_strong_count()]: with 2^31 live
    strong pointers on one block (one built from a raw address and
    [INT_MAX] copies of it) the [size_t] counter 2147483648 is returned as
    the [int] -2147483648, which [use_count()] converts back to the
    [size_t] 18446744071562067968. *)
Theorem use_count_wraps_beyond_int_max :
  ∃ m, reaches many_owners initial m ∧
       strongs m !! 1%positive = Some (SharedPtr (Some 1%positive) 42) ∧
       strong_count_of m 1%positive = 2147483648 ∧
       Z.of_nat (live_strong m 1%positive) = 2147483648 ∧
       use_count 1%positive m = Ret 18446744071562067968 m.
Proof.
  destruct (run_copies (Z.to_nat INT_MAX)) as (m & Hrun & Hs & Hb & _).
  { rewrite Z2Nat.id; unfold INT_MAX, SIZE_MOD; lia. }
  rewrite Z2Nat.id in Hb by (unfold INT_MAX; lia).
  exists m. split; [exact Hrun|]. split; [done|].
  pose proof (run_wf _ _ _ initial_wf Hrun) as Hwf.
  pose proof (wf_strong m Hwf 1%positive) as Hown.
  unfold strong_count_of in *. rewrite Hb in *. cbn [counter] in *.
  split; [done|]. split; [done|].
  rewrite (use_count_eq m 1%positive _ 1%positive _ Hs eq_refl Hb).
  done.
Qed.

(** ** Destruction of the payload *)

Lemma counter_in_range m b cb :
  wf m → blocks m !! b = Some cb →
  0 ≤ counter cb < SIZE_MOD ∧ 0 ≤ weak_counter cb < SIZE_MOD.
Proof.
  intros Hwf Hb.
  pose proof (wf_counter_bound m b cb Hwf Hb).
  pose proof (wf_weak_counter_bound m b cb Hwf Hb). lia.
Qed.



(** ** Reclaiming the control block *)

(** Between calls that run no user code, in every reachable state a
    control block has been deleted at most once, and it is gone exactly
    when it was allocated and nobody holds it any more: a block that is
    still there has a strong or a weak owner, and a deletion in the log
    always comes after the destruction of the payload.  On a live block,
    the release of the last strong pointer destroys the payload at once
    and keeps the block while weak pointers remain, and deletes the block
    as well when there are none; the release of the last weak pointer
    deletes the block if the strong count is already zero; every other
    release only decrements. *)
Lemma block_reclaimed_once (p : list op) (m : machine) (b : positive) :
  reaches p initial m →
  (block_deletions m b ≤ 1)%nat ∧
  (block_deletions m b = 1%nat ↔ allocated m b ∧ blocks m !! b = None) ∧
  payload_first b (events m) ∧
  (∀ cb, blocks m !! b = Some cb →
     (0 < counter cb ∨ 0 < weak_counter cb) ∧
     (counter cb = 1 → 0 < weak_counter cb →
        dec_ref b m =
          Ret tt {| blocks := <[b := set_counter 0 cb]> (blocks m);
                    next_block := next_block m;
                    strongs := strongs m; weaks := weaks m;
                    events := EvDeleteObject b (kind cb) :: events m |}) ∧
     (counter cb = 1 → weak_counter cb = 0 →
        dec_ref b m =
          Ret tt {| blocks := delete b (blocks m);
                    next_block := next_block m;
                    strongs := strongs m; weaks := weaks m;
                    events := EvDeleteBlock b :: EvDeleteObject b (kind cb)
                                :: events m |}) ∧
     (1 < counter cb →
        dec_ref b m =
          Ret tt (set_blocks (<[b := set_counter (counter cb - 1) cb]> (blocks m)) m)) ∧
     (weak_counter cb = 1 → counter cb = 0 →
        dec_weak_ref b m =
          Ret tt {| blocks := delete b (blocks m);
                    next_block := next_block m;
                    strongs := strongs m; weaks := weaks m;
                    events := EvDeleteBlock b :: events m |}) ∧
     (0 < weak_counter cb → 1 < weak_counter cb ∨ 0 < counter cb →
        dec_weak_ref b m =
          Ret tt (set_blocks
                    (<[b := set_weak_counter (weak_counter cb - 1) cb]> (blocks m)) m))).
Proof.
  intros Hreach.
  pose proof (run_wf _ _ _ initial_wf Hreach) as Hwf.
  pose proof (wf_deleted m Hwf b) as Hd.
  split; [|split; [|split]].
  - rewrite Hd. destruct (decide _); [|lia].
    destruct (blocks m !! b); lia.
  - rewrite Hd. destruct (decide (allocated m b)) as [Ha|Ha].
    + destruct (blocks m !! b) as [cb|]; split; try done. by intros [_ ?].
    + split; [done|]. by intros [? _].
  - apply (wf_order m Hwf).
  - intros cb Hb.
    destruct (counter_in_range m b cb Hwf Hb) as [Hc Hw].
    split; [by eapply wf_held|].
    split; [|split; [|split; [|split]]].
    + intros H1 Hpos. apply (dec_ref_eq_last_weak m b cb Hb); [|lia]. by rewrite H1.
    + intros H1 H0. apply (dec_ref_eq_last m b cb Hb); [|done]. by rewrite H1.
    + intros H1. rewrite <- (to_size_t_small (counter cb - 1)) by lia.
      apply (dec_ref_eq_shared m b cb Hb). rewrite to_size_t_small by lia. lia.
    + intros H1 H0. apply (dec_weak_ref_eq_last m b cb Hb); [|done]. by rewrite H1.
    + intros Hpos Hor. rewrite <- (to_size_t_small (weak_counter cb - 1)) by lia.
      apply (dec_weak_ref_eq_shared m b cb Hb).
      rewrite to_size_t_small by lia. lia.
Qed.

Lemma block_reclaimed_once_witness :
  reaches scenario initial scenario_state ∧
  (block_deletions scenario_state 1 ≤ 1)%nat ∧
  dec_weak_ref 1 scenario_state =
    Ret tt {| blocks := delete 1%positive (blocks scenario_state);
              next_block := next_block scenario_state;
              strongs := strongs scenario_state; weaks := weaks scenario_state;
              events := EvDeleteBlock 1 :: events scenario_state |}.
Proof.
  split; [exact reaches_scenario|].
  destruct (block_reclaimed_once scenario scenario_state 1 reaches_scenario)
    as (Hle & _ & _ & Hlive).
  split; [exact Hle|].
  destruct (Hlive (ControlBlock 0 1 (Regular 42))) as (_ & _ & _ & _ & Hlast & _);
    [by vm_compute|].
  apply Hlast; by vm_compute.
Defined.

(** ** Calls that run user code *)

(** Unfolds the calls that run user code. *)
Ltac unfold_nested :=
  cbn [Reentrant.run Reentrant.run_with Reentrant.step];
  unfold Reentrant.sp_copy_assign, Reentrant.sp_move_assign,
    Reentrant.sp_reset, Reentrant.sp_reset_raw, Reentrant.wp_copy_assign,
    Reentrant.wp_move_assign, Reentrant.wp_assign_shared,
    Reentrant.sp_raw, Reentrant.make_shared, Reentrant.construct,
    Reentrant.sp_dtor, Reentrant.wp_dtor, Reentrant.dec_ref,
    Reentrant.dec_weak_ref, Reentrant.delete_object, Reentrant.delete_this,
    Reentrant.if_blockN, Reentrant.noexceptN, Reentrant.try_catchN,
    Reentrant.bindN, Reentrant.retN, Reentrant.throwN, Reentrant.lift.

Lemma run_nil U d : agrees (Reentrant.run U d []) (ret tt).
Proof. by destruct d. Qed.

(** *** The bound on the nesting *)

Lemma below_refl {A} (n : Reentrant.N A) : below n n.
Proof. by intros m r. Qed.

Lemma below_bind {A B} (n n' : Reentrant.N A) (k k' : A → Reentrant.N B) :
  below n n' → (∀ a, below (k a) (k' a)) →
  below (Reentrant.bindN n k) (Reentrant.bindN n' k').
Proof.
  intros Hn Hk m r. unfold Reentrant.bindN.
  destruct (n m) as [o|] eqn:E; [|done].
  rewrite (Hn m o E). destruct o; first [done|apply Hk].
Qed.

Lemma below_noexcept {A} (n n' : Reentrant.N A) :
  below n n' → below (Reentrant.noexceptN n) (Reentrant.noexceptN n').
Proof.
  intros Hn m r. unfold Reentrant.noexceptN.
  destruct (n m) as [o|] eqn:E; [|done].
  by rewrite (Hn m o E).
Qed.

Lemma below_try_catch {A} (n n' h h' : Reentrant.N A) :
  below n n' → below h h' →
  below (Reentrant.try_catchN n h) (Reentrant.try_catchN n' h').
Proof.
  intros Hn Hh m r. unfold Reentrant.try_catchN.
  destruct (n m) as [o|] eqn:E; [|done].
  rewrite (Hn m o E). destruct o; first [done|apply Hh].
Qed.

Lemma below_if_block ob (f f' : positive → Reentrant.N unit) :
  (∀ b, below (f b) (f' b)) →
  below (Reentrant.if_blockN ob f) (Reentrant.if_blockN ob f').
Proof. intros H. destruct ob; [apply H|apply below_refl]. Qed.

Create HintDb deeper.

#[global] Hint Resolve below_refl : deeper.

Ltac deeper :=
  repeat first
    [ solve [auto with deeper]
    | apply below_noexcept
    | apply below_try_catch
    | apply below_if_block; intros ?
    | apply below_bind; [|intros ?]
    | progress cbv zeta
    | match goal with
      | |- below (if ?c then _ else _) _ => destruct c
      | |- below (match ?k with Regular _ => _ | Inplace _ => _ end) _ =>
          destruct k
      end ].

Section deeper.

Variable U : user.
Variables exec exec' : list op → Reentrant.N unit.
Hypothesis exec_below : ∀ p, below (exec p) (exec' p).

#[local] Hint Resolve exec_below : deeper.

Lemma below_construct b k :
  below (Reentrant.construct U exec b k) (Reentrant.construct U exec' b k).
Proof. unfold Reentrant.construct. deeper. Qed.

Lemma below_delete_object b :
  below (Reentrant.delete_object U exec b) (Reentrant.delete_object U exec' b).
Proof. unfold Reentrant.delete_object. deeper. Qed.

Lemma below_delete_this b :
  below (Reentrant.delete_this U exec b) (Reentrant.delete_this U exec' b).
Proof. unfold Reentrant.delete_this. deeper. Qed.

#[local] Hint Resolve below_construct below_delete_object
  below_delete_this : deeper.

Lemma below_dec_ref b :
  below (Reentrant.dec_ref U exec b) (Reentrant.dec_ref U exec' b).
Proof. unfold Reentrant.dec_ref. deeper. Qed.

Lemma below_dec_weak_ref b :
  below (Reentrant.dec_weak_ref U exec b) (Reentrant.dec_weak_ref U exec' b).
Proof. unfold Reentrant.dec_weak_ref. deeper. Qed.

#[local] Hint Resolve below_dec_ref below_dec_weak_ref : deeper.

Lemma below_sp_dtor x :
  below (Reentrant.sp_dtor U exec x) (Reentrant.sp_dtor U exec' x).
Proof. unfold Reentrant.sp_dtor. deeper. Qed.

Lemma below_wp_dtor x :
  below (Reentrant.wp_dtor U exec x) (Reentrant.wp_dtor U exec' x).
Proof. unfold Reentrant.wp_dtor. deeper. Qed.

Lemma below_sp_raw x a ok :
  below (Reentrant.sp_raw U exec x a ok) (Reentrant.sp_raw U exec' x a ok).
Proof. unfold Reentrant.sp_raw. deeper. Qed.

Lemma below_make_shared r a ok :
  below (Reentrant.make_shared U exec r a ok)
        (Reentrant.make_shared U exec' r a ok).
Proof. unfold Reentrant.make_shared. deeper. Qed.

#[local] Hint Resolve below_sp_dtor below_wp_dtor below_sp_raw
  below_make_shared : deeper.

Lemma below_step o :
  below (Reentrant.step U exec o) (Reentrant.step U exec' o).
Proof.
  destruct o; cbn [Reentrant.step]; auto with deeper.
  - unfold Reentrant.sp_copy_assign. deeper.
  - unfold Reentrant.sp_move_assign. deeper.
  - unfold Reentrant.sp_reset. deeper.
  - unfold Reentrant.sp_reset_raw. deeper.
  - unfold Reentrant.wp_copy_assign. deeper.
  - unfold Reentrant.wp_move_assign. deeper.
  - unfold Reentrant.wp_assign_shared. deeper.
Qed.

Lemma below_run_with p :
  below (Reentrant.run_with U exec p) (Reentrant.run_with U exec' p).
Proof.
  induction p as [|o p IH]; [apply below_refl|].
  cbn [Reentrant.run_with]. apply below_bind; [apply below_step|done].
Qed.

End deeper.

(** The bound only cuts runs short: what a program gives with one bound
    it gives with every larger one. *)
Lemma run_deeper U d p : below (Reentrant.run U d p) (Reentrant.run U (S d) p).
Proof.
  revert p. induction d as [|d IH]; intros p.
  - destruct p; [apply below_refl|by intros m r].
  - change (below (Reentrant.run_with U (Reentrant.run U d) p)
                  (Reentrant.run_with U (Reentrant.run U (S d)) p)).
    by apply below_run_with.
Qed.

Lemma run_deeper_le U d d' p :
  (d ≤ d')%nat → below (Reentrant.run U d p) (Reentrant.run U d' p).
Proof.
  induction 1 as [|d' _ IH]; [apply below_refl|].
  intros m r H. by apply run_deeper, IH.
Qed.

(** ** A payload that holds the last observer of its own block *)

(** C3.  The claim fails when the payload owns the last weak pointer on its
    own block (an object that observes itself).  Take a block with one
    strong and one weak pointer, the weak one being destroyed by the
    destructor of the payload.  When the strong pointer is released,
    [dec_ref] brings the strong counter to 0 and calls [delete_object()];
    from inside it the destructor of the weak pointer calls
    [dec_weak_ref], which finds both counters 0 and deletes the block:
    the block is reclaimed in the middle of the strong release, and
    [delete_object()] returns to a [dec_ref] whose block is gone.  The
    next thing [dec_ref] does is to read the two counters of that block
    (and, when it reads two zeroes there, to delete it a second time):
    the release of the last strong pointer is undefined behaviour, and so
    is every program that comes to it. *)
Theorem observer_in_payload_frees_block (U : user) (d : nat) (m : machine)
    (x w b : positive) (a p q : Z) (rest : list op) :
  strongs m !! x = Some (SharedPtr (Some b) p) →
  weaks m !! w = Some (WeakPtr (Some b) q) →
  blocks m !! b = Some (ControlBlock 1 1 (Regular a)) →
  on_delete_object U (Regular a) = [WpDtor w] →
  on_delete_this U a = [] →
  Reentrant.delete_object U (Reentrant.run U (S d)) b
      (set_blocks (<[b := ControlBlock 0 1 (Regular a)]> (blocks m)) m)
    = Some (Ret tt {| blocks := delete b (blocks m);
                      next_block := next_block m;
                      strongs := strongs m;
                      weaks := delete w (weaks m);
                      events := EvDeleteBlock b
                                  :: EvDeleteObject b (Regular a)
                                  :: events m |}) ∧
  Reentrant.dec_ref U (Reentrant.run U (S d)) b m
    = Some (Undefined UseAfterFree) ∧
  Reentrant.run U (S (S d)) (SpDtor x :: rest) m
    = Some (Undefined UseAfterFree).
Proof.
  intros Hx Hw Hb Hobj Hthis.
  assert (Reentrant.delete_object U (Reentrant.run U (S d)) b
            (set_blocks (<[b := ControlBlock 0 1 (Regular a)]> (blocks m)) m)
          = Some (Ret tt {| blocks := delete b (blocks m);
                            next_block := next_block m;
                            strongs := strongs m;
                            weaks := delete w (weaks m);
                            events := EvDeleteBlock b
                                        :: EvDeleteObject b (Regular a)
                                        :: events m |})) as Hdel.
  { unfold_nested. mexec. rewrite Hobj. unfold_nested. mexec.
    rewrite Hthis, run_nil. mexec.
    unfold set_weaks. simpl. by rewrite !delete_insert_eq. }
  assert (Reentrant.dec_ref U (Reentrant.run U (S d)) b m
          = Some (Undefined UseAfterFree)) as Hdec.
  { unfold Reentrant.dec_ref, Reentrant.bindN at 1 2, Reentrant.lift.
    unfold load at 1. rewrite Hb. unfold store. rewrite Hb. simpl.
    change (to_size_t (1 - 1)) with 0. simpl.
    unfold Reentrant.bindN at 1.
    change (set_counter 0 (ControlBlock 1 1 (Regular a)))
      with (ControlBlock 0 1 (Regular a)).
    change (Reentrant.run_with U (Reentrant.run U d))
      with (Reentrant.run U (S d)).
    rewrite Hdel. unfold Reentrant.bindN, Reentrant.lift, load. simpl.
    by rewrite lookup_delete_eq. }
  split; [exact Hdel|]. split; [exact Hdec|].
  cbn [Reentrant.run Reentrant.run_with Reentrant.step].
  unfold Reentrant.bindN at 1.
  unfold Reentrant.sp_dtor, Reentrant.noexceptN, Reentrant.bindN at 1,
    Reentrant.lift, read_sp.
  rewrite Hx. cbn [sp_block Reentrant.if_blockN].
  unfold Reentrant.bindN at 1.
  change (Reentrant.run_with U (Reentrant.run U d))
    with (Reentrant.run U (S d)).
  by rewrite Hdec.
Qed.

Lemma observer_in_payload_frees_block_witness :
  Reentrant.run self_observer 1 observe_self initial
    = Some (Ret tt observe_self_state) ∧
  Reentrant.run self_observer 2 [SpDtor 1] observe_self_state
    = Some (Undefined UseAfterFree).
Proof.
  split; [by vm_compute|].
  destruct (observer_in_payload_frees_block self_observer 0
              observe_self_state 1 9 1 42 42 42 [])
    as (_ & _ & H); [by vm_compute..|].
  exact H.
Defined.

(** ** [lock] *)

Lemma lock_eq_null m x w r :
  weaks m !! x = Some w → wp_block w = None →
  strongs m !! r = None → Z.pos r < SIZE_MOD →
  lock x r m = Ret tt (set_strongs (<[r := null_sp]> (strongs m)) m).
Proof. intros Hx Hb Hr Hsp. by mexec. Qed.

Lemma lock_eq_expired m x w r b cb :
  weaks m !! x = Some w → wp_block w = Some b →
  blocks m !! b = Some cb → counter cb = 0 →
  strongs m !! r = None → Z.pos r < SIZE_MOD →
  lock x r m = Ret tt (set_strongs (<[r := null_sp]> (strongs m)) m).
Proof. intros Hx Hb Hcb Hc Hr Hsp. mexec. rewrite Hc. by mexec. Qed.

Lemma lock_eq_live m x w r b cb :
  weaks m !! x = Some w → wp_block w = Some b →
  blocks m !! b = Some cb → counter cb ≠ 0 →
  strongs m !! r = None → Z.pos r < SIZE_MOD →
  lock x r m =
    Ret tt {| blocks := <[b := set_counter (to_size_t (counter cb + 1)) cb]> (blocks m);
              next_block := next_block m;
              strongs := <[r := SharedPtr (Some b) (wp_ptr w)]> (strongs m);
              weaks := weaks m; events := events m |}.
Proof.
  intros Hx Hb Hcb Hc Hr Hsp. mexec.
  apply Z.eqb_neq in Hc. rewrite Hc. by mexec.
Qed.

(** Once the strong count of an allocated block is zero it stays zero. *)
Lemma expired_forever q m m' b :
  wf m → allocated m b → strong_count_of m b = 0 →
  reaches q m m' → strong_count_of m' b = 0.
Proof.
  intros Hwf Ha H0 Hq.
  pose proof (run_wf _ _ _ Hwf Hq) as Hwf'.
  pose proof (run_extends _ _ _ Hq) as Hext.
  pose proof (extends_payload_destructions m m' b Hext) as Hle.
  pose proof (extends_allocated m m' b Hext Ha) as Ha'.
  rewrite (wf_destroyed m Hwf b) in Hle.
  rewrite (wf_destroyed m' Hwf' b) in Hle.
  rewrite !decide_True in Hle by done.
  unfold strong_count_of in *.
  destruct (blocks m' !! b) as [cb'|]; [|done].
  destruct (Z.eqb_spec (counter cb') 0); [done|].
  destruct (blocks m !! b) as [cb|]; [|lia].
  destruct (Z.eqb_spec (counter cb) 0); lia.
Qed.

(** C4.  [w.lock()] in a reachable state: it returns a null strong
    pointer exactly when [w] has no control block or the strong count of
    its block is zero; otherwise the strong count goes up by one and the
    result holds the block and the address of [w].  Once the strong count
    of the block is zero, [lock] on any weak pointer to it returns null in
    every later state. *)
Theorem lock_spec (p : list op) (m : machine) (x r : positive) (w : weak_ptr) :
  reaches p initial m →
  weaks m !! x = Some w →
  strongs m !! r = None → Z.pos r < SIZE_MOD →
  ∃ m' v,
    lock x r m = Ret tt m' ∧ strongs m' !! r = Some v ∧
    (v = null_sp ↔
       wp_block w = None ∨ ∃ b, wp_block w = Some b ∧ strong_count_of m b = 0) ∧
    (v = null_sp → blocks m' = blocks m) ∧
    (v ≠ null_sp →
       ∃ b, wp_block w = Some b ∧ v = SharedPtr (Some b) (wp_ptr w) ∧
            strong_count_of m' b = strong_count_of m b + 1 ∧
            weak_count_of m' b = weak_count_of m b) ∧
    (∀ b q m2 x2 w2 r2,
       wp_block w = Some b → strong_count_of m b = 0 →
       reaches q m m2 →
       weaks m2 !! x2 = Some w2 → wp_block w2 = Some b →
       strongs m2 !! r2 = None → Z.pos r2 < SIZE_MOD →
       lock x2 r2 m2 = Ret tt (set_strongs (<[r2 := null_sp]> (strongs m2)) m2)).
Proof.
  intros Hreach Hx Hr Hsp.
  pose proof (run_wf _ _ _ initial_wf Hreach) as Hwf.
  assert (∀ b q m2 x2 w2 r2,
       wp_block w = Some b → strong_count_of m b = 0 →
       reaches q m m2 →
       weaks m2 !! x2 = Some w2 → wp_block w2 = Some b →
       strongs m2 !! r2 = None → Z.pos r2 < SIZE_MOD →
       lock x2 r2 m2 = Ret tt (set_strongs (<[r2 := null_sp]> (strongs m2)) m2))
    as Hperm.
  { intros b q m2 x2 w2 r2 Hb H0 Hq Hx2 Hb2 Hr2 Hsp2.
    destruct (wf_weak_live m x w b Hwf Hx Hb) as (cb & Hcb & _).
    pose proof (wf_next m Hwf b cb Hcb) as Ha.
    pose proof (expired_forever q m m2 b Hwf Ha H0 Hq) as H2.
    pose proof (run_wf _ _ _ Hwf Hq) as Hwf2.
    destruct (wf_weak_live m2 x2 w2 b Hwf2 Hx2 Hb2) as (cb2 & Hcb2 & _).
    unfold strong_count_of in H2. rewrite Hcb2 in H2.
    by eapply lock_eq_expired. }
  destruct (wp_block w) as [b|] eqn:Hb.
  - destruct (wf_weak_live m x w b Hwf Hx Hb) as (cb & Hcb & _).
    destruct (decide (counter cb = 0)) as [Hc|Hc].
    + exists (set_strongs (<[r := null_sp]> (strongs m)) m), null_sp.
      split; [by eapply lock_eq_expired|].
      split; [unfold set_strongs; simpl; by rewrite lookup_insert_eq|].
      split; [|split; [done|split; [done|done]]].
      split; [|done]. intros _. right. exists b. split; [done|].
      unfold strong_count_of. by rewrite Hcb.
    + pose proof (wf_counter_bound m b cb Hwf Hcb) as Hbound.
      pose proof (size_fresh_in_space (strongs m) r null_sp
                    (wf_sp_space m Hwf) Hr Hsp).
      eexists _, (SharedPtr (Some b) (wp_ptr w)).
      split; [by eapply lock_eq_live|].
      split; [unfold set_strongs; simpl; by rewrite lookup_insert_eq|].
      split; [|split; [done|split; [|done]]].
      * split; [done|]. intros [?|(b' & Hb' & H0)]; [done|].
        injection Hb' as <-. unfold strong_count_of in H0.
        rewrite Hcb in H0. done.
      * intros _. exists b. split; [done|]. split; [done|].
        unfold strong_count_of, weak_count_of. simpl.
        rewrite lookup_insert_eq, Hcb. simpl.
        rewrite to_size_t_small by lia. done.
  - exists (set_strongs (<[r := null_sp]> (strongs m)) m), null_sp.
    split; [by eapply lock_eq_null|].
    split; [unfold set_strongs; simpl; by rewrite lookup_insert_eq|].
    split; [|split; [done|split; [done|done]]].
    split; [by left|done].
Qed.

Lemma lock_spec_witness :
  reaches scenario initial scenario_state ∧
  weaks scenario_state !! 1%positive = Some (WeakPtr (Some 1%positive) 42) ∧
  strongs scenario_state !! 3%positive = None ∧
  Z.pos 3 < SIZE_MOD ∧
  (∃ m', lock 1 3 scenario_state = Ret tt m' ∧
         strongs m' !! 3%positive = Some null_sp) ∧
  reaches [WpCopy 2 1] scenario_state scenario_later_state ∧
  lock 2 3 scenario_later_state =
    Ret tt (set_strongs (<[3%positive := null_sp]> (strongs scenario_later_state))
              scenario_later_state).
Proof.
  split; [exact reaches_scenario|]. do 3 (split; [by vm_compute|]).
  destruct (lock_spec scenario scenario_state 1 3 (WeakPtr (Some 1%positive) 42))
    as (m' & v & Hlock & Hv & Hnull & _ & _ & Hlater).
  - exact reaches_scenario.
  - by vm_compute.
  - by vm_compute.
  - by vm_compute.
  - split; [|split; [by vm_compute|]].
    + exists m'. split; [exact Hlock|].
      assert (v = null_sp) as <-; [|exact Hv].
      apply Hnull. right. exists 1%positive. by vm_compute.
    + apply (Hlater 1%positive [WpCopy 2 1] scenario_later_state 2%positive
               (WeakPtr (Some 1%positive) 42) 3%positive); by vm_compute.
Defined.

(** ** Relations kept by the code *)

Section keeps.
Context (R : machine → machine → Prop).
Hypothesis R_refl : ∀ m, R m m.
Hypothesis R_trans : ∀ m1 m2 m3, R m1 m2 → R m2 m3 → R m1 m3.

Lemma keeps_ret {A} (a : A) : keeps R (ret a).
Proof. intros m. apply R_refl. Qed.

Lemma keeps_throw {A} : keeps R (@throw A).
Proof. intros m. apply R_refl. Qed.

Lemma keeps_undefined {A} f : keeps R (@undefined A f).
Proof. by intros m. Qed.

Lemma keeps_bind {A B} (c : M A) (k : A → M B) :
  keeps R c → (∀ a, keeps R (k a)) → keeps R (bind c k).
Proof.
  intros Hc Hk m. unfold bind. specialize (Hc m).
  destruct (c m) as [a m1|m1|m1|f]; try done.
  specialize (Hk a m1). destruct (k a m1); try done; by eapply R_trans.
Qed.

Lemma keeps_noexcept {A} (c : M A) : keeps R c → keeps R (noexcept c).
Proof. intros Hc m. unfold noexcept. specialize (Hc m). by destruct (c m). Qed.

Lemma keeps_try_catch {A} (c h : M A) :
  keeps R c → keeps R h → keeps R (try_catch c h).
Proof.
  intros Hc Hh m. unfold try_catch. specialize (Hc m).
  destruct (c m) as [a m1|m1|m1|f]; try done.
  specialize (Hh m1). destruct (h m1); try done; by eapply R_trans.
Qed.

Lemma keeps_ret_inv {A} (c : M A) m a m' : keeps R c → c m = Ret a m' → R m m'.
Proof. intros Hc H. specialize (Hc m). by rewrite H in Hc. Qed.
End keeps.

(** Structural rules (with the proof [tr] that the relation is
    transitive), then the leaves from the hint database [db], then case
    analysis on what the code branches on. *)
Tactic Notation "keeps_with" ident(db) constr(tr) :=
  repeat first
    [ solve [auto with db]
    | apply keeps_noexcept
    | apply (keeps_try_catch _ tr)
    | apply (keeps_bind _ tr); [|intros ?]
    | match goal with
      | |- keeps _ (if ?c then _ else _) => destruct c
      | |- keeps _ (match ?o with _ => _ end) => destruct o
      | |- keeps _ (deref ?o _) => destruct o; simpl
      | |- keeps _ (if_block ?o _) => destruct o; simpl
      end ].

(** *** The control block members do not touch the pointer objects *)

Lemma same_pointers_refl m : same_pointers m m.
Proof. by split. Qed.

Lemma same_pointers_trans m1 m2 m3 :
  same_pointers m1 m2 → same_pointers m2 m3 → same_pointers m1 m3.
Proof. intros [H1 H2] [H3 H4]. split; congruence. Qed.

Create HintDb frames.

Lemma frame_load b : keeps same_pointers (load b).
Proof. intros m. unfold load. by destruct (blocks m !! b). Qed.

Lemma frame_store b cb : keeps same_pointers (store b cb).
Proof. intros m. unfold store. by destruct (blocks m !! b). Qed.

Lemma frame_emit e : keeps same_pointers (emit e).
Proof. by intros m. Qed.

Lemma frame_delete_this b : keeps same_pointers (delete_this b).
Proof. intros m. unfold delete_this. by destruct (blocks m !! b). Qed.

Lemma frame_ret {A} (a : A) : keeps same_pointers (ret a).
Proof. apply keeps_ret, same_pointers_refl. Qed.

#[global] Hint Resolve frame_load frame_store frame_emit frame_delete_this
  frame_ret : frames.

Ltac frame := keeps_with frames same_pointers_trans.

Lemma frame_inc_ref b : keeps same_pointers (inc_ref b).
Proof. unfold inc_ref. frame. Qed.

Lemma frame_dec_ref b : keeps same_pointers (dec_ref b).
Proof. unfold dec_ref, delete_object. frame. Qed.

Lemma frame_inc_weak_ref b : keeps same_pointers (inc_weak_ref b).
Proof. unfold inc_weak_ref. frame. Qed.

Lemma frame_dec_weak_ref b : keeps same_pointers (dec_weak_ref b).
Proof. unfold dec_weak_ref. frame. Qed.

(** *** [swap] *)

Lemma swap_store {V} (s : gmap positive V) x y vx vy :
  s !! x = Some vx → s !! y = Some vy →
  <[y := vy]> (<[x := vx]> (<[y := vx]> (<[x := vy]> s))) = s.
Proof.
  intros Hx Hy. apply map_eq. intros k.
  destruct (decide (k = y)) as [->|Hky].
  - by rewrite lookup_insert_eq.
  - rewrite lookup_insert_ne by done.
    destruct (decide (k = x)) as [->|Hkx].
    + by rewrite lookup_insert_eq.
    + by rewrite !lookup_insert_ne by done.
Qed.

Lemma sp_swap_eq m x y vx vy :
  strongs m !! x = Some vx → strongs m !! y = Some vy →
  sp_swap x y m = Ret tt (set_strongs (<[y := vx]> (<[x := vy]> (strongs m))) m).
Proof.
  intros Hx Hy. destruct (decide (x = y)) as [->|Hne]; by mexec.
Qed.

Lemma wp_swap_eq m x y vx vy :
  weaks m !! x = Some vx → weaks m !! y = Some vy →
  wp_swap x y m = Ret tt (set_weaks (<[y := vx]> (<[x := vy]> (weaks m))) m).
Proof.
  intros Hx Hy. destruct (decide (x = y)) as [->|Hne]; by mexec.
Qed.

Lemma swapped_lookups {V} (s : gmap positive V) x y vx vy :
  s !! x = Some vx → s !! y = Some vy →
  <[y := vx]> (<[x := vy]> s) !! x = Some vy ∧
  <[y := vx]> (<[x := vy]> s) !! y = Some vx.
Proof.
  intros Hx Hy. split; [|by rewrite lookup_insert_eq].
  destruct (decide (x = y)) as [->|Hne].
  - rewrite lookup_insert_eq. congruence.
  - by rewrite lookup_insert_ne, lookup_insert_eq.
Qed.

Lemma sp_swap_twice m x y vx vy :
  strongs m !! x = Some vx → strongs m !! y = Some vy →
  (sp_swap x y ;; sp_swap x y) m = Ret tt m.
Proof.
  intros Hx Hy.
  destruct (swapped_lookups (strongs m) x y vx vy Hx Hy) as [Hx' Hy'].
  unfold bind. rewrite (sp_swap_eq m x y vx vy Hx Hy).
  rewrite (sp_swap_eq (set_strongs (<[y := vx]> (<[x := vy]> (strongs m))) m)
             x y vy vx Hx' Hy').
  unfold set_strongs. simpl. rewrite swap_store by done.
  by rewrite machine_eta.
Qed.

Lemma wp_swap_twice m x y vx vy :
  weaks m !! x = Some vx → weaks m !! y = Some vy →
  (wp_swap x y ;; wp_swap x y) m = Ret tt m.
Proof.
  intros Hx Hy.
  destruct (swapped_lookups (weaks m) x y vx vy Hx Hy) as [Hx' Hy'].
  unfold bind. rewrite (wp_swap_eq m x y vx vy Hx Hy).
  rewrite (wp_swap_eq (set_weaks (<[y := vx]> (<[x := vy]> (weaks m))) m)
             x y vy vx Hx' Hy').
  unfold set_weaks. simpl. rewrite swap_store by done.
  by rewrite machine_eta.
Qed.

(** X1.  [swap] exchanges the members of the two pointers and nothing
    else: no control block is touched, nothing is logged, every block has
    as many owners as before, and swapping twice gives the original state
    back.  This holds for any two strong pointers of any state, and for
    any two weak pointers of any state, also when both operands are the
    same object. *)
Theorem swap_exchanges_members (m : machine) :
  (∀ (x y : positive) (vx vy : shared_ptr),
     strongs m !! x = Some vx → strongs m !! y = Some vy →
     sp_swap x y m
       = Ret tt (set_strongs (<[y := vx]> (<[x := vy]> (strongs m))) m) ∧
     (∀ b, owners sp_block (<[y := vx]> (<[x := vy]> (strongs m))) b
           = live_strong m b) ∧
     (sp_swap x y ;; sp_swap x y) m = Ret tt m) ∧
  (∀ (u v : positive) (wu wv : weak_ptr),
     weaks m !! u = Some wu → weaks m !! v = Some wv →
     wp_swap u v m
       = Ret tt (set_weaks (<[v := wu]> (<[u := wv]> (weaks m))) m) ∧
     (∀ b, owners wp_block (<[v := wu]> (<[u := wv]> (weaks m))) b
           = live_weak m b) ∧
     (wp_swap u v ;; wp_swap u v) m = Ret tt m).
Proof.
  split.
  - intros x y vx vy Hx Hy.
    split; [by apply sp_swap_eq|].
    split; [intros b; by apply owners_swap|].
    by eapply sp_swap_twice.
  - intros u v wu wv Hu Hv.
    split; [by apply wp_swap_eq|].
    split; [intros b; by apply owners_swap|].
    by eapply wp_swap_twice.
Qed.

Lemma swap_exchanges_members_witness :
  sp_swap 1 2 two_blocks_state
    = Ret tt {| blocks := blocks two_blocks_state;
                next_block := 3%positive;
                strongs := {[1%positive := SharedPtr (Some 2%positive) 43;
                             2%positive := SharedPtr (Some 1%positive) 42]};
                weaks := ∅;
                events := [] |} ∧
  wp_swap 1 2 observer_and_null_state
    = Ret tt {| blocks := blocks observer_and_null_state;
                next_block := 2%positive;
                strongs := strongs observer_and_null_state;
                weaks := {[1%positive := null_wp;
                           2%positive := WeakPtr (Some 1%positive) 42]};
                events := [] |}.
Proof.
  split.
  - destruct (proj1 (swap_exchanges_members two_blocks_state) 1 2
                (SharedPtr (Some 1%positive) 42)
                (SharedPtr (Some 2%positive) 43))%positive
      as (H & _); [by vm_compute..|].
    rewrite H. by vm_compute.
  - destruct (proj2 (swap_exchanges_members observer_and_null_state) 1 2
                (WeakPtr (Some 1%positive) 42) null_wp)%positive
      as (H & _); [by vm_compute..|].
    rewrite H. by vm_compute.
Defined.

(** *** Releasing a reference does not depend on the pointer objects *)

Lemma dec_ref_dead b m :
  blocks m !! b = None → dec_ref b m = Undefined UseAfterFree.
Proof. intros Hb. unfold_members. simpl. by rewrite Hb. Qed.

Lemma dec_weak_ref_dead b m :
  blocks m !! b = None → dec_weak_ref b m = Undefined UseAfterFree.
Proof. intros Hb. unfold_members. simpl. by rewrite Hb. Qed.

(** [dec_ref] and [dec_weak_ref] either return or fail on a dead block. *)
Lemma dec_ref_outcome b m :
  (∃ m', dec_ref b m = Ret tt m') ∨ dec_ref b m = Undefined UseAfterFree.
Proof.
  destruct (blocks m !! b) as [cb|] eqn:Hb; [left|right; by apply dec_ref_dead].
  destruct (decide (to_size_t (counter cb - 1) = 0)) as [Hc|Hc].
  - destruct (decide (weak_counter cb = 0)) as [Hw|Hw].
    + eexists. by apply dec_ref_eq_last.
    + eexists. by apply dec_ref_eq_last_weak.
  - eexists. by apply dec_ref_eq_shared.
Qed.

Lemma dec_weak_ref_outcome b m :
  (∃ m', dec_weak_ref b m = Ret tt m') ∨ dec_weak_ref b m = Undefined UseAfterFree.
Proof.
  destruct (blocks m !! b) as [cb|] eqn:Hb; [left|right; by apply dec_weak_ref_dead].
  destruct (decide (to_size_t (weak_counter cb - 1) = 0 ∧ counter cb = 0))
    as [[Hc Hs]|Hc].
  - eexists. by apply (dec_weak_ref_eq_last m b cb Hb).
  - eexists. apply (dec_weak_ref_eq_shared m b cb Hb).
    destruct (decide (counter cb = 0)); [left|by right].
    intros Hz. by apply Hc.
Qed.

Lemma dec_ref_set_strongs b s m :
  dec_ref b (set_strongs s m) = with_strongs s (dec_ref b m).
Proof.
  destruct (blocks m !! b) as [cb|] eqn:Hb.
  - destruct (decide (to_size_t (counter cb - 1) = 0)) as [Hc|Hc].
    + destruct (decide (weak_counter cb = 0)) as [Hw|Hw].
      * by rewrite (dec_ref_eq_last m b cb Hb Hc Hw),
          (dec_ref_eq_last (set_strongs s m) b cb Hb Hc Hw).
      * by rewrite (dec_ref_eq_last_weak m b cb Hb Hc Hw),
          (dec_ref_eq_last_weak (set_strongs s m) b cb Hb Hc Hw).
    + by rewrite (dec_ref_eq_shared m b cb Hb Hc),
        (dec_ref_eq_shared (set_strongs s m) b cb Hb Hc).
  - by rewrite (dec_ref_dead b m Hb), (dec_ref_dead b (set_strongs s m) Hb).
Qed.

Lemma dec_weak_ref_set_weaks b s m :
  dec_weak_ref b (set_weaks s m) = with_weaks s (dec_weak_ref b m).
Proof.
  destruct (blocks m !! b) as [cb|] eqn:Hb.
  - destruct (decide (to_size_t (weak_counter cb - 1) = 0 ∧ counter cb = 0))
      as [[Hc Hs]|Hc].
    + by rewrite (dec_weak_ref_eq_last m b cb Hb Hc Hs),
        (dec_weak_ref_eq_last (set_weaks s m) b cb Hb Hc Hs).
    + assert (to_size_t (weak_counter cb - 1) ≠ 0 ∨ counter cb ≠ 0) as Hor.
      { destruct (decide (counter cb = 0)); [left|by right].
        intros Hz. by apply Hc. }
      by rewrite (dec_weak_ref_eq_shared m b cb Hb Hor),
        (dec_weak_ref_eq_shared (set_weaks s m) b cb Hb Hor).
  - by rewrite (dec_weak_ref_dead b m Hb), (dec_weak_ref_dead b (set_weaks s m) Hb).
Qed.

Lemma release_set_strongs ob s m :
  if_block ob dec_ref (set_strongs s m) = with_strongs s (if_block ob dec_ref m).
Proof. destruct ob; [apply dec_ref_set_strongs|done]. Qed.

Lemma release_set_weaks ob s m :
  if_block ob dec_weak_ref (set_weaks s m) = with_weaks s (if_block ob dec_weak_ref m).
Proof. destruct ob; [apply dec_weak_ref_set_weaks|done]. Qed.

Lemma release_outcome ob m :
  (∃ m', if_block ob dec_ref m = Ret tt m' ∧ same_pointers m m') ∨
  if_block ob dec_ref m = Undefined UseAfterFree.
Proof.
  destruct ob as [b|]; simpl.
  - destruct (dec_ref_outcome b m) as [[m' H]|H]; [left|by right].
    exists m'. split; [done|]. by apply (keeps_ret_inv _ _ _ _ _ (frame_dec_ref b) H).
  - left. exists m. split; [done|apply same_pointers_refl].
Qed.

Lemma release_weak_outcome ob m :
  (∃ m', if_block ob dec_weak_ref m = Ret tt m' ∧ same_pointers m m') ∨
  if_block ob dec_weak_ref m = Undefined UseAfterFree.
Proof.
  destruct ob as [b|]; simpl.
  - destruct (dec_weak_ref_outcome b m) as [[m' H]|H]; [left|by right].
    exists m'. split; [done|].
    by apply (keeps_ret_inv _ _ _ _ _ (frame_dec_weak_ref b) H).
  - left. exists m. split; [done|apply same_pointers_refl].
Qed.

(** The destructor: release, then the object is gone. *)
Lemma sp_dtor_eq m x v :
  strongs m !! x = Some v →
  sp_dtor x m = with_strongs (delete x (strongs m)) (if_block (sp_block v) dec_ref m).
Proof.
  intros Hx. unfold sp_dtor, bind, read_sp. rewrite Hx.
  destruct (release_outcome (sp_block v) m) as [(m' & -> & Hs & _)| -> ]; [|done].
  unfold end_sp, with_strongs. by rewrite Hs, Hx.
Qed.

Lemma wp_dtor_eq m x v :
  weaks m !! x = Some v →
  wp_dtor x m = with_weaks (delete x (weaks m)) (if_block (wp_block v) dec_weak_ref m).
Proof.
  intros Hx. unfold wp_dtor, bind, read_wp. rewrite Hx.
  destruct (release_weak_outcome (wp_block v) m) as [(m' & -> & _ & Hs)| -> ]; [|done].
  unfold end_wp, with_weaks. by rewrite Hs, Hx.
Qed.

(** *** Move construction *)

Lemma sp_move_eq m x o v :
  strongs m !! o = Some v → strongs m !! x = None → Z.pos x < SIZE_MOD →
  sp_move x o m =
    Ret tt (set_strongs (<[o := null_sp]> (<[x := v]> (strongs m))) m).
Proof.
  intros Ho Hx Hsp. assert (o ≠ x) as Hne by congruence.
  mexec. by rewrite sp_eta.
Qed.

Lemma wp_move_eq m x o v :
  weaks m !! o = Some v → weaks m !! x = None → Z.pos x < SIZE_MOD →
  wp_move x o m =
    Ret tt (set_weaks (<[o := null_wp]> (<[x := v]> (weaks m))) m).
Proof.
  intros Ho Hx Hsp. assert (o ≠ x) as Hne by congruence.
  mexec. by rewrite wp_eta.
Qed.

(** X2.  Move construction hands the members over: the new pointer holds
    what the source held, the source is left null, and neither a control
    block nor the log is touched, so every block keeps its number of
    owners.  This holds for every strong pointer of every state, and for
    every weak pointer of every state. *)
Theorem move_construction_transfers (m : machine) :
  (∀ (x o : positive) (v : shared_ptr),
     strongs m !! o = Some v → strongs m !! x = None → Z.pos x < SIZE_MOD →
     sp_move x o m
       = Ret tt (set_strongs (<[o := null_sp]> (<[x := v]> (strongs m))) m) ∧
     (∀ b, owners sp_block (<[o := null_sp]> (<[x := v]> (strongs m))) b
           = live_strong m b)) ∧
  (∀ (y q : positive) (w : weak_ptr),
     weaks m !! q = Some w → weaks m !! y = None → Z.pos y < SIZE_MOD →
     wp_move y q m
       = Ret tt (set_weaks (<[q := null_wp]> (<[y := w]> (weaks m))) m) ∧
     (∀ b, owners wp_block (<[q := null_wp]> (<[y := w]> (weaks m))) b
           = live_weak m b)).
Proof.
  split.
  - intros x o v Ho Hx Hsp.
    split; [by apply sp_move_eq|]. intros b. by apply owners_move.
  - intros y q w Hq Hy Hsp.
    split; [by apply wp_move_eq|]. intros b. by apply owners_move.
Qed.

Lemma move_construction_transfers_witness :
  sp_move 2 1 single_owner_state
    = Ret tt {| blocks := blocks single_owner_state;
                next_block := 2%positive;
                strongs := {[1%positive := null_sp;
                             2%positive := SharedPtr (Some 1%positive) 42]};
                weaks := ∅;
                events := [] |} ∧
  wp_move 2 1 scenario_state
    = Ret tt {| blocks := blocks scenario_state;
                next_block := 2%positive;
                strongs := ∅;
                weaks := {[1%positive := null_wp;
                           2%positive := WeakPtr (Some 1%positive) 42]};
                events := events scenario_state |}.
Proof.
  split.
  - destruct (proj1 (move_construction_transfers single_owner_state) 2 1
                (SharedPtr (Some 1%positive) 42))%positive
      as (H & _); [by vm_compute..|].
    rewrite H. by vm_compute.
  - destruct (proj2 (move_construction_transfers scenario_state) 2 1
                (WeakPtr (Some 1%positive) 42))%positive
      as (H & _); [by vm_compute..|].
    rewrite H. by vm_compute.
Defined.

(** *** [reset()] *)

Lemma reset_store (s : gmap positive shared_ptr) x t v :
  s !! x = Some v → s !! t = None →
  delete t (<[x := null_sp]> (<[t := v]> (<[t := null_sp]> s)))
  = <[x := null_sp]> (delete x s).
Proof.
  intros Hx Ht. assert (x ≠ t) as Hne by congruence.
  apply map_eq. intros k.
  destruct (decide (k = t)) as [->|Hkt].
  - rewrite lookup_delete_eq, lookup_insert_ne, lookup_delete_ne by done. done.
  - rewrite lookup_delete_ne by done.
    destruct (decide (k = x)) as [->|Hkx].
    + by rewrite !lookup_insert_eq.
    + by rewrite !lookup_insert_ne, lookup_delete_ne by done.
Qed.

Lemma sp_reset_eq m x t v :
  strongs m !! x = Some v → strongs m !! t = None → Z.pos t < SIZE_MOD →
  sp_reset x t m =
    with_strongs (<[x := null_sp]> (delete x (strongs m)))
      (if_block (sp_block v) dec_ref m).
Proof.
  intros Hx Ht Hsp. assert (x ≠ t) as Hne by congruence.
  unfold sp_reset, noexcept, bind, sp_default.
  rewrite (place_sp_eq m t null_sp Ht Hsp).
  rewrite (sp_swap_eq _ t x null_sp v);
    [|unfold set_strongs; simpl; by rewrite ?lookup_insert_eq, ?lookup_insert_ne..].
  rewrite (sp_dtor_eq _ t v);
    [|unfold set_strongs; simpl; by rewrite lookup_insert_ne, lookup_insert_eq].
  rewrite !release_set_strongs.
  destruct (release_outcome (sp_block v) m) as [(m' & -> & _)| -> ]; [|done].
  unfold with_strongs, set_strongs. simpl.
  by rewrite reset_store.
Qed.

Lemma use_count_null m x v :
  strongs m !! x = Some v → sp_block v = None → use_count x m = Ret 0 m.
Proof. intros Hx Hb. by mexec. Qed.

(** As long as no user code runs in between, [p.reset()] does what
    destroying [p] and default-constructing it again in place does. *)
Lemma reset_eq_dtor_default (m : machine) (x tmp : positive)
    (v : shared_ptr) :
  strongs m !! x = Some v → Z.pos x < SIZE_MOD →
  strongs m !! tmp = None → Z.pos tmp < SIZE_MOD →
  sp_reset x tmp m = (sp_dtor x ;; sp_default x) m ∧
  (∀ m', sp_reset x tmp m = Ret tt m' →
     strongs m' = <[x := null_sp]> (strongs m) ∧
     weaks m' = weaks m ∧
     use_count x m' = Ret 0 m').
Proof.
  intros Hx Hspx Ht Hspt.
  rewrite (sp_reset_eq m x tmp v Hx Ht Hspt). split.
  - unfold bind. rewrite (sp_dtor_eq m x v Hx).
    destruct (release_outcome (sp_block v) m) as [(m' & -> & _)| -> ]; [|done].
    unfold with_strongs, sp_default.
    rewrite place_sp_eq; [done| |done].
    unfold set_strongs. simpl. apply lookup_delete_eq.
  - intros m' H.
    destruct (release_outcome (sp_block v) m) as [(m1 & Hr & Hs & Hw)|Hr];
      rewrite Hr in H; [|done].
    injection H as <-. unfold set_strongs. simpl.
    rewrite insert_delete_eq. split; [done|]. split; [done|].
    apply (use_count_null _ x null_sp); [|done].
    simpl. apply lookup_insert_eq.
Qed.

(** *** Move assignment from another pointer *)

Lemma move_assign_store {V} (s : gmap positive V) x o t (vx vo null : V) :
  s !! x = Some vx → s !! o = Some vo → s !! t = None → x ≠ o →
  delete t (<[x := vo]> (<[t := vx]> (<[o := null]> (<[t := vo]> s))))
  = <[o := null]> (<[x := vo]> (delete x s)).
Proof.
  intros Hx Ho Ht Hne.
  assert (x ≠ t) as Hxt by congruence. assert (o ≠ t) as Hot by congruence.
  apply map_eq. intros k.
  destruct (decide (k = t)) as [->|Hkt].
  - rewrite lookup_delete_eq, !lookup_insert_ne, lookup_delete_ne by done. done.
  - rewrite lookup_delete_ne by done.
    destruct (decide (k = x)) as [->|Hkx].
    + rewrite lookup_insert_eq, lookup_insert_ne, lookup_insert_eq by done. done.
    + rewrite !(lookup_insert_ne _ x) by done. rewrite lookup_insert_ne by done.
      destruct (decide (k = o)) as [->|Hko].
      * by rewrite !lookup_insert_eq.
      * by rewrite !lookup_insert_ne, lookup_delete_ne by done.
Qed.

(** As long as no user code runs in between, [p = std::move(q)] from a
    different pointer does what destroying [p] and move-constructing it
    from [q] in place does. *)
Lemma move_assign_eq_dtor_move (m : machine)
    (x o tmp : positive) (vx vo : shared_ptr) :
  strongs m !! x = Some vx → strongs m !! o = Some vo → x ≠ o →
  Z.pos x < SIZE_MOD →
  strongs m !! tmp = None → Z.pos tmp < SIZE_MOD →
  sp_move_assign x o tmp m = (sp_dtor x ;; sp_move x o) m ∧
  sp_move_assign x o tmp m =
    with_strongs (<[o := null_sp]> (<[x := vo]> (delete x (strongs m))))
      (if_block (sp_block vx) dec_ref m).
Proof.
  intros Hx Ho Hne Hspx Ht Hspt.
  assert (x ≠ tmp) as Hxt by congruence. assert (o ≠ tmp) as Hot by congruence.
  assert (sp_move_assign x o tmp m =
    with_strongs (<[o := null_sp]> (<[x := vo]> (delete x (strongs m))))
      (if_block (sp_block vx) dec_ref m)) as Heq.
  { unfold sp_move_assign, noexcept, bind.
    rewrite (sp_move_eq m tmp o vo Ho Ht Hspt).
    rewrite (sp_swap_eq _ tmp x vo vx);
      [|unfold set_strongs; simpl;
        by rewrite ?lookup_insert_ne, ?lookup_insert_eq by done..].
    rewrite (sp_dtor_eq _ tmp vx);
      [|unfold set_strongs; simpl; by rewrite lookup_insert_ne, lookup_insert_eq].
    rewrite !release_set_strongs.
    destruct (release_outcome (sp_block vx) m) as [(m' & -> & _)| -> ]; [|done].
    unfold with_strongs, set_strongs. simpl.
    by rewrite (move_assign_store (strongs m) x o tmp vx vo null_sp). }
  split; [|exact Heq]. rewrite Heq.
  unfold bind. rewrite (sp_dtor_eq m x vx Hx).
  destruct (release_outcome (sp_block vx) m) as [(m' & -> & _)| -> ]; [|done].
  unfold with_strongs.
  rewrite (sp_move_eq _ x o vo); [done| | |done].
  - unfold set_strongs. simpl. by rewrite lookup_delete_ne.
  - unfold set_strongs. simpl. apply lookup_delete_eq.
Qed.

Lemma reaches_two_blocks : reaches two_blocks initial two_blocks_state.
Proof. by vm_compute. Defined.

(** *** Copy assignment from another pointer *)

Lemma owners_two {V} (blk : V → option positive) (s : gmap positive V)
    x o vx vo b :
  s !! x = Some vx → s !! o = Some vo → x ≠ o →
  blk vx = Some b → blk vo = Some b → (2 ≤ owners blk s b)%nat.
Proof.
  intros Hx Ho Hne Hbx Hbo.
  rewrite (owners_delete blk s x vx b Hx).
  assert (delete x s !! o = Some vo) as Ho' by by rewrite lookup_delete_ne.
  rewrite (owners_delete blk _ o vo b Ho').
  unfold holds. rewrite !decide_True by done. lia.
Qed.

Lemma copy_assign_store {V} (s : gmap positive V) x t (vx vo : V) :
  s !! x = Some vx → s !! t = None →
  delete t (<[x := vo]> (<[t := vx]> (<[t := vo]> s)))
  = <[x := vo]> (delete x s).
Proof.
  intros Hx Ht. assert (x ≠ t) as Hxt by congruence.
  apply map_eq. intros k.
  destruct (decide (k = t)) as [->|Hkt].
  - rewrite lookup_delete_eq, lookup_insert_ne, lookup_delete_ne by done. done.
  - rewrite lookup_delete_ne by done.
    destruct (decide (k = x)) as [->|Hkx].
    + by rewrite !lookup_insert_eq.
    + by rewrite !lookup_insert_ne, lookup_delete_ne by done.
Qed.

Lemma sp_copy_null_eq m x o v :
  strongs m !! o = Some v → sp_block v = None →
  strongs m !! x = None → Z.pos x < SIZE_MOD →
  sp_copy x o m = Ret tt (set_strongs (<[x := v]> (strongs m)) m).
Proof.
  intros Ho Hb Hx Hsp. assert (o ≠ x) as Hne by congruence.
  mexec. by rewrite <- Hb, sp_eta.
Qed.

(** [dec_ref] on one block and an update of another block commute. *)
Lemma dec_ref_put_other b b' cb' m :
  b ≠ b' →
  dec_ref b (put_block b' cb' m) = map_outcome (put_block b' cb') (dec_ref b m).
Proof.
  intros Hne.
  assert (blocks (put_block b' cb' m) !! b = blocks m !! b) as Hl.
  { unfold put_block, set_blocks. simpl. by rewrite lookup_insert_ne. }
  destruct (blocks m !! b) as [cb|] eqn:Hb.
  - destruct (decide (to_size_t (counter cb - 1) = 0)) as [Hc|Hc].
    + destruct (decide (weak_counter cb = 0)) as [Hw|Hw].
      * rewrite (dec_ref_eq_last m b cb Hb Hc Hw),
          (dec_ref_eq_last _ b cb Hl Hc Hw).
        unfold map_outcome, put_block, set_blocks. simpl.
        by rewrite delete_insert_ne.
      * rewrite (dec_ref_eq_last_weak m b cb Hb Hc Hw),
          (dec_ref_eq_last_weak _ b cb Hl Hc Hw).
        unfold map_outcome, put_block, set_blocks. simpl.
        by rewrite insert_insert_ne.
    + rewrite (dec_ref_eq_shared m b cb Hb Hc),
        (dec_ref_eq_shared _ b cb Hl Hc).
      unfold map_outcome, put_block, set_blocks. simpl.
      by rewrite insert_insert_ne.
  - by rewrite (dec_ref_dead b m Hb), (dec_ref_dead b _ Hl).
Qed.

Lemma dec_ref_other_lookup b b' m m' :
  b ≠ b' → dec_ref b m = Ret tt m' → blocks m' !! b' = blocks m !! b'.
Proof.
  intros Hne H.
  destruct (blocks m !! b) as [cb|] eqn:Hb;
    [|by rewrite (dec_ref_dead b m Hb) in H].
  destruct (decide (to_size_t (counter cb - 1) = 0)) as [Hc|Hc].
  - destruct (decide (weak_counter cb = 0)) as [Hw|Hw].
    + rewrite (dec_ref_eq_last m b cb Hb Hc Hw) in H. injection H as <-.
      simpl. by rewrite lookup_delete_ne.
    + rewrite (dec_ref_eq_last_weak m b cb Hb Hc Hw) in H. injection H as <-.
      simpl. by rewrite lookup_insert_ne.
  - rewrite (dec_ref_eq_shared m b cb Hb Hc) in H. injection H as <-.
    simpl. by rewrite lookup_insert_ne.
Qed.

Lemma dec_ref_live b m cb :
  blocks m !! b = Some cb → ∃ m', dec_ref b m = Ret tt m' ∧ same_pointers m m'.
Proof.
  intros Hb. destruct (dec_ref_outcome b m) as [[m' H]|H].
  - exists m'. split; [done|].
    by apply (keeps_ret_inv _ _ _ _ _ (frame_dec_ref b) H).
  - destruct (decide (to_size_t (counter cb - 1) = 0)) as [Hc|Hc].
    + destruct (decide (weak_counter cb = 0)) as [Hw|Hw].
      * by rewrite (dec_ref_eq_last m b cb Hb Hc Hw) in H.
      * by rewrite (dec_ref_eq_last_weak m b cb Hb Hc Hw) in H.
    + by rewrite (dec_ref_eq_shared m b cb Hb Hc) in H.
Qed.

(** As long as no user code runs in between, [p = q] from a different
    pointer does what destroying [p] and copy-constructing it from [q] in
    place does. *)
Lemma copy_assign_eq_dtor_copy (p : list op) (m : machine)
    (x o tmp : positive) (vx vo : shared_ptr) :
  reaches p initial m →
  strongs m !! x = Some vx → strongs m !! o = Some vo → x ≠ o →
  strongs m !! tmp = None → Z.pos tmp < SIZE_MOD →
  sp_copy_assign x o tmp m = (sp_dtor x ;; sp_copy x o) m ∧
  ∃ m', sp_copy_assign x o tmp m = Ret tt m' ∧
        strongs m' = <[x := vo]> (strongs m) ∧ weaks m' = weaks m.
Proof.
  intros Hreach Hx Ho Hne Ht Hspt.
  pose proof (run_wf _ _ _ initial_wf Hreach) as Hwf.
  pose proof (wf_sp_space m Hwf x vx Hx) as Hspx.
  assert (x ≠ tmp) as Hxt by congruence. assert (o ≠ tmp) as Hot by congruence.
  assert (∀ m1, strongs m1 = <[tmp := vo]> (strongs m) →
            sp_swap tmp x m1 =
              Ret tt (set_strongs (<[x := vo]> (<[tmp := vx]> (strongs m1))) m1))
    as Hswap.
  { intros m1 Hs1. apply sp_swap_eq; rewrite Hs1.
    - apply lookup_insert_eq.
    - by rewrite lookup_insert_ne. }
  assert (∀ m2 S, strongs m2 = <[x := vo]> (<[tmp := vx]> S) →
            sp_dtor tmp m2 =
              with_strongs (delete tmp (strongs m2)) (if_block (sp_block vx) dec_ref m2))
    as Hdtor.
  { intros m2 S Hs2. apply sp_dtor_eq. rewrite Hs2.
    by rewrite lookup_insert_ne, lookup_insert_eq. }
  assert (delete x (strongs m) !! o = Some vo) as Ho' by by rewrite lookup_delete_ne.
  assert (delete x (strongs m) !! x = None) as Hx' by apply lookup_delete_eq.
  assert (<[x := vo]> (delete x (strongs m)) = <[x := vo]> (strongs m)) as Hfin
    by apply insert_delete_eq.
  assert (sp_copy_assign x o tmp m
          = match sp_block vo with
            | None =>
                with_strongs (<[x := vo]> (delete x (strongs m)))
                  (if_block (sp_block vx) dec_ref m)
            | Some b' =>
                match blocks m !! b' with
                | Some cb' =>
                    with_strongs (<[x := vo]> (delete x (strongs m)))
                      (if_block (sp_block vx) dec_ref
                         (put_block b' (set_counter (to_size_t (counter cb' + 1)) cb') m))
                | None => Undefined UseAfterFree
                end
            end) as Hlhs.
  { unfold sp_copy_assign, noexcept, bind. rewrite decide_False by done.
    destruct (sp_block vo) as [b'|] eqn:Hbo.
    - destruct (wf_strong_live m o vo b' Hwf Ho Hbo) as (cb' & Hcb' & _).
      rewrite Hcb'.
      rewrite (sp_copy_eq m tmp o vo b' cb' Ho Hbo Hcb' Ht Hspt).
      rewrite Hswap by done. simpl.
      erewrite Hdtor by (unfold set_strongs; simpl; done).
      unfold set_strongs at 1 2. simpl.
      rewrite (copy_assign_store (strongs m) x tmp vx vo Hx Ht).
      change (if_block (sp_block vx) dec_ref ?mm) with
        (if_block (sp_block vx) dec_ref mm).
      match goal with
      | |- context [if_block _ dec_ref ?mm] =>
          change mm with
            (set_strongs (<[x := vo]> (<[tmp := vx]> (<[tmp := vo]> (strongs m))))
               (put_block b' (set_counter (to_size_t (counter cb' + 1)) cb') m))
      end.
      rewrite release_set_strongs.
      by destruct (release_outcome (sp_block vx) (put_block b' (set_counter (to_size_t (counter cb' + 1)) cb') m)) as [(m' & -> & _)| -> ].
    - rewrite (sp_copy_null_eq m tmp o vo Ho Hbo Ht Hspt).
      rewrite Hswap by done. simpl.
      erewrite Hdtor by (unfold set_strongs; simpl; done).
      unfold set_strongs at 1 2. simpl.
      rewrite (copy_assign_store (strongs m) x tmp vx vo Hx Ht).
      match goal with
      | |- context [if_block _ dec_ref ?mm] =>
          change mm with
            (set_strongs (<[x := vo]> (<[tmp := vx]> (<[tmp := vo]> (strongs m)))) m)
      end.
      rewrite release_set_strongs.
      by destruct (release_outcome (sp_block vx) m) as [(m' & -> & _)| -> ]. }
  assert (∃ m', sp_copy_assign x o tmp m = Ret tt m' ∧
                strongs m' = <[x := vo]> (strongs m) ∧ weaks m' = weaks m) as Hex.
  { rewrite Hlhs, Hfin.
    assert (∀ m0, weaks m0 = weaks m →
              (∀ b, sp_block vx = Some b → is_Some (blocks m0 !! b)) →
              ∃ m', with_strongs (<[x := vo]> (strongs m))
                      (if_block (sp_block vx) dec_ref m0) = Ret tt m' ∧
                    strongs m' = <[x := vo]> (strongs m) ∧ weaks m' = weaks m)
      as Hrel.
    { intros m0 Hw0 Hlive. destruct (sp_block vx) as [b|]; simpl.
      - destruct (Hlive b eq_refl) as [cb Hcb].
        destruct (dec_ref_live b m0 cb Hcb) as (m' & -> & _ & Hw').
        eexists. split; [done|]. simpl. split; [done|congruence].
      - eexists. split; [done|]. by simpl. }
    destruct (sp_block vo) as [b'|] eqn:Hbo.
    - destruct (wf_strong_live m o vo b' Hwf Ho Hbo) as (cb' & Hcb' & _).
      rewrite Hcb'. apply Hrel; [done|].
      intros b Hb. destruct (wf_strong_live m x vx b Hwf Hx Hb) as (cb & Hcb & _).
      unfold put_block, set_blocks. simpl.
      destruct (decide (b = b')) as [->|Hbb].
      + rewrite lookup_insert_eq. eauto.
      + rewrite lookup_insert_ne by done. eauto.
    - apply Hrel; [done|].
      intros b Hb. destruct (wf_strong_live m x vx b Hwf Hx Hb) as (cb & Hcb & _).
      eauto. }
  split; [|exact Hex].
  rewrite Hlhs. unfold bind. rewrite (sp_dtor_eq m x vx Hx).
  destruct (sp_block vo) as [b'|] eqn:Hbo.
  - destruct (wf_strong_live m o vo b' Hwf Ho Hbo) as (cb' & Hcb' & Hpos').
    rewrite Hcb'.
    destruct (sp_block vx) as [b|] eqn:Hbx; simpl.
    + destruct (wf_strong_live m x vx b Hwf Hx Hbx) as (cb & Hcb & Hpos).
      destruct (decide (b = b')) as [->|Hbb].
      * (* both pointers share the block *)
        assert (cb = cb') as -> by congruence.
        pose proof (wf_counter_bound m b' cb' Hwf Hcb') as Hbound.
        pose proof (size_fresh_in_space (strongs m) tmp vo
                      (wf_sp_space m Hwf) Ht Hspt) as Hroom.
        pose proof (owners_two sp_block (strongs m) x o vx vo b' Hx Ho Hne Hbx Hbo)
          as Htwo.
        pose proof (wf_strong m Hwf b') as Hs.
        unfold live_strong, strong_count_of in Hs. rewrite Hcb' in Hs.
        assert (to_size_t (counter cb' + 1) = counter cb' + 1) as Hup
          by (apply to_size_t_small; lia).
        assert (to_size_t (counter cb' - 1) = counter cb' - 1) as Hdown
          by (apply to_size_t_small; lia).
        rewrite (dec_ref_eq_shared m b' cb' Hcb') by lia.
        rewrite (dec_ref_eq_shared _ b' (set_counter (to_size_t (counter cb' + 1)) cb'));
          [| unfold put_block, set_blocks; simpl; apply lookup_insert_eq
           | simpl; rewrite Hup; rewrite to_size_t_small by lia; lia ].
        unfold with_strongs.
        rewrite (sp_copy_eq _ x o vo b' (set_counter (to_size_t (counter cb' - 1)) cb'));
          [| done | done
           | unfold set_strongs, set_blocks; simpl; apply lookup_insert_eq
           | done | done ].
        unfold put_block, set_strongs, set_blocks, set_counter. simpl.
        rewrite !insert_insert_eq. rewrite Hup, Hdown.
        rewrite !to_size_t_small by lia.
        do 4 f_equal. lia.
      * rewrite dec_ref_put_other by done.
        destruct (dec_ref_live b m cb Hcb) as (m' & Hdec & _).
        rewrite Hdec. unfold map_outcome, with_strongs.
        rewrite (sp_copy_eq _ x o vo b' cb'); [done|done|done| |done|done].
        unfold set_strongs. simpl.
        by rewrite (dec_ref_other_lookup b b' m m' Hbb Hdec).
    + unfold ret, with_strongs.
      by rewrite (sp_copy_eq _ x o vo b' cb').
  - destruct (release_outcome (sp_block vx) m) as [(m' & -> & _)| -> ]; [|done].
    unfold with_strongs.
    by rewrite (sp_copy_null_eq _ x o vo).
Qed.

(** *** Temporary owners and observers *)

Lemma set_counter_back c c' cb :
  counter cb = c → set_counter c (set_counter c' cb) = cb.
Proof. intros <-. by destruct cb. Qed.

Lemma set_weak_counter_back c c' cb :
  weak_counter cb = c → set_weak_counter c (set_weak_counter c' cb) = cb.
Proof. intros <-. by destruct cb. Qed.

Lemma wp_from_shared_eq m x o v b cb :
  strongs m !! o = Some v → sp_block v = Some b → blocks m !! b = Some cb →
  weaks m !! x = None → Z.pos x < SIZE_MOD →
  wp_from_shared x o m =
    Ret tt {| blocks := <[b := set_weak_counter (to_size_t (weak_counter cb + 1)) cb]>
                          (blocks m);
              next_block := next_block m;
              strongs := strongs m;
              weaks := <[x := WeakPtr (Some b) (sp_ptr v)]> (weaks m);
              events := events m |}.
Proof. intros Ho Hb Hcb Hx Hsp. by mexec. Qed.

Lemma wp_from_shared_null_eq m x o v :
  strongs m !! o = Some v → sp_block v = None →
  weaks m !! x = None → Z.pos x < SIZE_MOD →
  wp_from_shared x o m =
    Ret tt (set_weaks (<[x := WeakPtr None (sp_ptr v)]> (weaks m)) m).
Proof. intros Ho Hb Hx Hsp. by mexec. Qed.

(** A strong pointer at [x] on the block [b], added to a reachable state
    together with its reference, goes away without a trace. *)
Lemma drop_added_strong m x v b cb :
  wf m → blocks m !! b = Some cb → 0 < counter cb →
  strongs m !! x = None → Z.pos x < SIZE_MOD → sp_block v = Some b →
  sp_dtor x {| blocks := <[b := set_counter (to_size_t (counter cb + 1)) cb]> (blocks m);
               next_block := next_block m;
               strongs := <[x := v]> (strongs m);
               weaks := weaks m; events := events m |}
  = Ret tt m.
Proof.
  intros Hwf Hcb Hpos Hx Hsp Hb.
  pose proof (wf_counter_bound m b cb Hwf Hcb) as Hbound.
  pose proof (size_fresh_in_space (strongs m) x v (wf_sp_space m Hwf) Hx Hsp).
  assert (to_size_t (counter cb + 1) = counter cb + 1) as Hup
    by (apply to_size_t_small; lia).
  rewrite (sp_dtor_eq _ x v) by (simpl; apply lookup_insert_eq).
  rewrite Hb. simpl.
  rewrite (dec_ref_eq_shared _ b (set_counter (to_size_t (counter cb + 1)) cb));
    [| simpl; apply lookup_insert_eq
     | simpl; rewrite Hup; rewrite to_size_t_small by lia; lia ].
  unfold with_strongs, set_strongs, set_blocks. simpl.
  rewrite insert_insert_eq, Hup.
  replace (counter cb + 1 - 1) with (counter cb) by lia.
  rewrite to_size_t_small by lia.
  rewrite set_counter_back by done.
  rewrite insert_id by done. rewrite delete_insert_id by done.
  by rewrite machine_eta.
Qed.

Lemma drop_null_strong m x v :
  strongs m !! x = None → sp_block v = None →
  sp_dtor x (set_strongs (<[x := v]> (strongs m)) m) = Ret tt m.
Proof.
  intros Hx Hb.
  rewrite (sp_dtor_eq _ x v) by (simpl; apply lookup_insert_eq).
  rewrite Hb. simpl. unfold with_strongs, ret, set_strongs. simpl.
  rewrite delete_insert_id by done. by rewrite machine_eta.
Qed.

Lemma drop_added_weak m x v b cb :
  wf m → blocks m !! b = Some cb → 0 < counter cb ∨ 0 < weak_counter cb →
  weaks m !! x = None → Z.pos x < SIZE_MOD → wp_block v = Some b →
  wp_dtor x {| blocks := <[b := set_weak_counter (to_size_t (weak_counter cb + 1)) cb]>
                           (blocks m);
               next_block := next_block m;
               strongs := strongs m;
               weaks := <[x := v]> (weaks m); events := events m |}
  = Ret tt m.
Proof.
  intros Hwf Hcb Hpos Hx Hsp Hb.
  pose proof (wf_counter_bound m b cb Hwf Hcb) as Hbound.
  pose proof (wf_weak_counter_bound m b cb Hwf Hcb) as Hwbound.
  pose proof (size_fresh_in_space (weaks m) x v (wf_wp_space m Hwf) Hx Hsp).
  assert (to_size_t (weak_counter cb + 1) = weak_counter cb + 1) as Hup
    by (apply to_size_t_small; lia).
  rewrite (wp_dtor_eq _ x v) by (simpl; apply lookup_insert_eq).
  rewrite Hb. simpl.
  rewrite (dec_weak_ref_eq_shared _ b
             (set_weak_counter (to_size_t (weak_counter cb + 1)) cb));
    [| simpl; apply lookup_insert_eq
     | simpl; rewrite Hup;
       replace (weak_counter cb + 1 - 1) with (weak_counter cb) by lia;
       rewrite to_size_t_small by lia; lia ].
  unfold with_weaks, set_weaks, set_blocks. simpl.
  rewrite insert_insert_eq, Hup.
  replace (weak_counter cb + 1 - 1) with (weak_counter cb) by lia.
  rewrite to_size_t_small by lia.
  rewrite set_weak_counter_back by done.
  rewrite insert_id by done. rewrite delete_insert_id by done.
  by rewrite machine_eta.
Qed.

Lemma drop_null_weak m x v :
  weaks m !! x = None → wp_block v = None →
  wp_dtor x (set_weaks (<[x := v]> (weaks m)) m) = Ret tt m.
Proof.
  intros Hx Hb.
  rewrite (wp_dtor_eq _ x v) by (simpl; apply lookup_insert_eq).
  rewrite Hb. simpl. unfold with_weaks, ret, set_weaks. simpl.
  rewrite delete_insert_id by done. by rewrite machine_eta.
Qed.

(** X6.  In a reachable state a temporary leaves no trace: copying a
    strong pointer and destroying the copy, taking a weak pointer from a
    strong one and destroying it, and locking a weak pointer and
    destroying the result each give back exactly the state they started
    from (same counters, nothing destroyed, nothing logged).  Each of the
    three holds wherever its own operand exists: the first two need no
    weak pointer in the state, the third needs no strong one. *)
Theorem temporaries_leave_no_trace (p : list op) (m : machine) :
  reaches p initial m →
  (∀ (o x : positive) (v : shared_ptr),
     strongs m !! o = Some v →
     strongs m !! x = None → Z.pos x < SIZE_MOD →
     (sp_copy x o ;; sp_dtor x) m = Ret tt m) ∧
  (∀ (o y : positive) (v : shared_ptr),
     strongs m !! o = Some v →
     weaks m !! y = None → Z.pos y < SIZE_MOD →
     (wp_from_shared y o ;; wp_dtor y) m = Ret tt m) ∧
  (∀ (q x : positive) (w : weak_ptr),
     weaks m !! q = Some w →
     strongs m !! x = None → Z.pos x < SIZE_MOD →
     (lock q x ;; sp_dtor x) m = Ret tt m).
Proof.
  intros Hreach.
  pose proof (run_wf _ _ _ initial_wf Hreach) as Hwf.
  unfold bind. split; [|split].
  - intros o x v Ho Hx Hspx.
    destruct (sp_block v) as [b|] eqn:Hb.
    + destruct (wf_strong_live m o v b Hwf Ho Hb) as (cb & Hcb & Hpos).
      rewrite (sp_copy_eq m x o v b cb Ho Hb Hcb Hx Hspx).
      by apply drop_added_strong.
    + rewrite (sp_copy_null_eq m x o v Ho Hb Hx Hspx).
      by apply drop_null_strong.
  - intros o y v Ho Hy Hspy.
    destruct (sp_block v) as [b|] eqn:Hb.
    + destruct (wf_strong_live m o v b Hwf Ho Hb) as (cb & Hcb & Hpos).
      rewrite (wp_from_shared_eq m y o v b cb Ho Hb Hcb Hy Hspy).
      apply drop_added_weak; try done. by left.
    + rewrite (wp_from_shared_null_eq m y o v Ho Hb Hy Hspy).
      by apply drop_null_weak.
  - intros q x w Hq Hx Hspx.
    destruct (wp_block w) as [b|] eqn:Hb.
    + destruct (wf_weak_live m q w b Hwf Hq Hb) as (cb & Hcb & Hwpos).
      destruct (decide (counter cb = 0)) as [Hc|Hc].
      * rewrite (lock_eq_expired m q w x b cb Hq Hb Hcb Hc Hx Hspx).
        by apply drop_null_strong.
      * rewrite (lock_eq_live m q w x b cb Hq Hb Hcb Hc Hx Hspx).
        pose proof (wf_counter_bound m b cb Hwf Hcb).
        apply drop_added_strong; try done. lia.
    + rewrite (lock_eq_null m q w x Hq Hb Hx Hspx).
      by apply drop_null_strong.
Qed.

Lemma temporaries_leave_no_trace_witness :
  (sp_copy 2 1 ;; sp_dtor 2) single_owner_state = Ret tt single_owner_state ∧
  (wp_from_shared 2 1 ;; wp_dtor 2) single_owner_state
    = Ret tt single_owner_state ∧
  (lock 1 2 ;; sp_dtor 2) scenario_state = Ret tt scenario_state ∧
  (lock 1 2 ;; sp_dtor 2) owner_and_observer_state
    = Ret tt owner_and_observer_state.
Proof.
  destruct (temporaries_leave_no_trace single_owner single_owner_state
              reaches_single_owner) as (Hc & Hw & _).
  destruct (temporaries_leave_no_trace scenario scenario_state
              reaches_scenario) as (_ & _ & He).
  destruct (temporaries_leave_no_trace owner_and_observer
              owner_and_observer_state reaches_owner_and_observer)
    as (_ & _ & Hl).
  split; [|split; [|split]].
  - apply (Hc 1 2 (SharedPtr (Some 1%positive) 42))%positive; by vm_compute.
  - apply (Hw 1 2 (SharedPtr (Some 1%positive) 42))%positive; by vm_compute.
  - apply (He 1 2 (WeakPtr (Some 1%positive) 42))%positive; by vm_compute.
  - apply (Hl 1 2 (WeakPtr (Some 1%positive) 42))%positive; by vm_compute.
Defined.

(** ** What holds in every reachable state *)



(** The states reached by calls that run no user code: no pointer dangles
    and nothing has leaked. *)
Lemma reachable_no_dangling_no_leak (p : list op) (m : machine) :
  reaches p initial m →
  (∀ x v b, strongs m !! x = Some v → sp_block v = Some b →
     ∃ cb, blocks m !! b = Some cb ∧ 0 < counter cb) ∧
  (∀ x w b, weaks m !! x = Some w → wp_block w = Some b →
     ∃ cb, blocks m !! b = Some cb ∧ 0 < weak_counter cb) ∧
  (∀ x v, strongs m !! x = Some v → sp_block v = None → get v = nullptr) ∧
  (strongs m = ∅ → weaks m = ∅ →
     blocks m = ∅ ∧
     ∀ b, allocated m b →
       payload_destructions m b = 1%nat ∧ block_deletions m b = 1%nat ∧
       payload_first b (events m)).
Proof.
  intros Hreach.
  pose proof (run_wf _ _ _ initial_wf Hreach) as Hwf.
  split; [intros x v b; by apply wf_strong_live|].
  split; [intros x w b; by apply wf_weak_live|].
  split; [intros x v; by apply wf_sp_null|].
  intros Hs Hw.
  assert (blocks m = ∅) as He.
  { apply map_empty. intros b.
    destruct (blocks m !! b) as [cb|] eqn:Hb; [|done].
    pose proof (wf_strong m Hwf b) as H1. pose proof (wf_weak m Hwf b) as H2.
    pose proof (wf_held m Hwf b cb Hb) as H3.
    unfold live_strong, strong_count_of, owners in H1.
    unfold live_weak, weak_count_of, owners in H2.
    rewrite Hb, Hs, map_filter_empty, map_size_empty in H1.
    rewrite Hb, Hw, map_filter_empty, map_size_empty in H2. lia. }
  split; [done|]. intros b Ha.
  pose proof (wf_destroyed m Hwf b) as Hd.
  pose proof (wf_deleted m Hwf b) as Hf.
  rewrite He, lookup_empty, decide_True in Hd by done.
  rewrite He, lookup_empty, decide_True in Hf by done.
  split; [done|]. split; [done|]. apply (wf_order m Hwf).
Qed.

Lemma reaches_scenario_done : reaches scenario_done initial scenario_done_state.
Proof. by vm_compute. Defined.

(** ** No use of a deleted control block *)

Lemma bind_undefined_inv {A B} (c : M A) (k : A → M B) m f :
  bind c k m = Undefined f →
  c m = Undefined f ∨ ∃ a m1, c m = Ret a m1 ∧ k a m1 = Undefined f.
Proof.
  unfold bind. destruct (c m) as [a m1|m1|m1|f']; intros H; try done.
  - right. by exists a, m1.
  - left. by injection H as ->.
Qed.

Lemma noexcept_undefined_inv {A} (c : M A) m f :
  noexcept c m = Undefined f → c m = Undefined f.
Proof. unfold noexcept. by destruct (c m). Qed.

Lemma try_catch_undefined_inv {A} (c h : M A) m f :
  try_catch c h m = Undefined f →
  c m = Undefined f ∨ ∃ m1, c m = Throw m1 ∧ h m1 = Undefined f.
Proof.
  unfold try_catch. destruct (c m) as [a m1|m1|m1|f']; intros H; try done.
  - right. by exists m1.
  - left. by injection H as ->.
Qed.

Lemma read_sp_not_uaf x m : read_sp x m ≠ Undefined UseAfterFree.
Proof. unfold read_sp. by destruct (strongs m !! x). Qed.

Lemma place_sp_not_uaf x v m : place_sp x v m ≠ Undefined UseAfterFree.
Proof.
  unfold place_sp. destruct (negb _); [done|]. by destruct (strongs m !! x).
Qed.

Lemma write_sp_not_uaf x v m : write_sp x v m ≠ Undefined UseAfterFree.
Proof. unfold write_sp. by destruct (strongs m !! x). Qed.

Lemma end_sp_not_uaf x m : end_sp x m ≠ Undefined UseAfterFree.
Proof. unfold end_sp. by destruct (strongs m !! x). Qed.

Lemma read_wp_not_uaf x m : read_wp x m ≠ Undefined UseAfterFree.
Proof. unfold read_wp. by destruct (weaks m !! x). Qed.

Lemma place_wp_not_uaf x v m : place_wp x v m ≠ Undefined UseAfterFree.
Proof.
  unfold place_wp. destruct (negb _); [done|]. by destruct (weaks m !! x).
Qed.

Lemma write_wp_not_uaf x v m : write_wp x v m ≠ Undefined UseAfterFree.
Proof. unfold write_wp. by destruct (weaks m !! x). Qed.

Lemma end_wp_not_uaf x m : end_wp x m ≠ Undefined UseAfterFree.
Proof. unfold end_wp. by destruct (weaks m !! x). Qed.

Lemma new_block_not_undefined ok k m f : new_block ok k m ≠ Undefined f.
Proof. unfold new_block. by destruct ok. Qed.

(** Splits a run that ended in the use of a deleted block into the call
    that failed, discarding the calls that cannot fail that way. *)
Ltac uinv :=
  repeat match goal with
    | H : noexcept _ _ = Undefined _ |- _ => apply noexcept_undefined_inv in H
    | H : bind _ _ _ = Undefined _ |- _ =>
        let a := fresh "a" in let m1 := fresh "m" in let H1 := fresh "H" in
        apply bind_undefined_inv in H as [H|(a & m1 & H1 & H)]; cbv beta in H
    | H : try_catch _ _ _ = Undefined _ |- _ =>
        let m1 := fresh "m" in let H1 := fresh "H" in
        apply try_catch_undefined_inv in H as [H|(m1 & H1 & H)]
    | H : read_sp _ _ = Undefined UseAfterFree |- _ => by apply read_sp_not_uaf in H
    | H : place_sp _ _ _ = Undefined UseAfterFree |- _ => by apply place_sp_not_uaf in H
    | H : write_sp _ _ _ = Undefined UseAfterFree |- _ => by apply write_sp_not_uaf in H
    | H : end_sp _ _ = Undefined UseAfterFree |- _ => by apply end_sp_not_uaf in H
    | H : read_wp _ _ = Undefined UseAfterFree |- _ => by apply read_wp_not_uaf in H
    | H : place_wp _ _ _ = Undefined UseAfterFree |- _ => by apply place_wp_not_uaf in H
    | H : write_wp _ _ _ = Undefined UseAfterFree |- _ => by apply write_wp_not_uaf in H
    | H : end_wp _ _ = Undefined UseAfterFree |- _ => by apply end_wp_not_uaf in H
    | H : new_block _ _ _ = Undefined _ |- _ => by apply new_block_not_undefined in H
    | H : ret _ _ = Undefined _ |- _ => discriminate H
    | H : throw _ = Undefined _ |- _ => discriminate H
    | H : emit _ _ = Undefined _ |- _ => discriminate H
    | H : undefined NullDereference _ = Undefined UseAfterFree |- _ => discriminate H
    end.

(** From the invariant and an operation that returns the invariant, to
    [never_dangles]: what is left is the case of a deleted block. *)
Lemma never_dangles_intro {A} (c : M A) :
  (∀ m a m', wf m → c m = Ret a m' → wf m') →
  (∀ m, wf m → c m ≠ Undefined UseAfterFree) →
  never_dangles c.
Proof.
  intros Hret Hu m Hwf. specialize (Hu m Hwf).
  destruct (c m) as [a m'|m'|m'|f] eqn:H; try done.
  - by eapply Hret.
  - by destruct f.
Qed.

Lemma never_dangles_bind {A B} (c : M A) (k : A → M B) :
  never_dangles c → (∀ a, never_dangles (k a)) → never_dangles (bind c k).
Proof.
  intros Hc Hk m Hwf. unfold bind. specialize (Hc m Hwf).
  destruct (c m) as [a m1|m1|m1|f]; try done.
  apply (Hk a m1 Hc).
Qed.

Lemma never_dangles_noexcept {A} (c : M A) :
  never_dangles c → never_dangles (noexcept c).
Proof.
  intros Hc m Hwf. unfold noexcept. specialize (Hc m Hwf). by destruct (c m).
Qed.

Lemma never_dangles_ret {A} (a : A) : never_dangles (ret a).
Proof. by intros m Hwf. Qed.

Lemma dec_weak_ref_live b m cb :
  blocks m !! b = Some cb → ∃ m', dec_weak_ref b m = Ret tt m' ∧ same_pointers m m'.
Proof.
  intros Hb. destruct (dec_weak_ref_outcome b m) as [[m' H]|H].
  - exists m'. split; [done|].
    by apply (keeps_ret_inv _ _ _ _ _ (frame_dec_weak_ref b) H).
  - destruct (decide (to_size_t (weak_counter cb - 1) = 0 ∧ counter cb = 0))
      as [[Hc Hs]|Hc].
    + by rewrite (dec_weak_ref_eq_last m b cb Hb Hc Hs) in H.
    + rewrite (dec_weak_ref_eq_shared m b cb Hb) in H; [done|].
      destruct (decide (counter cb = 0)); [left|by right].
      intros Hz. by apply Hc.
Qed.

(** A member call on a live block does not fail. *)
Ltac live_call :=
  match goal with
  | H : inc_ref ?b ?m = Undefined _, Hb : blocks _ !! ?b = Some ?cb |- _ =>
      rewrite (inc_ref_eq m b cb Hb) in H; discriminate H
  | H : inc_weak_ref ?b ?m = Undefined _, Hb : blocks _ !! ?b = Some ?cb |- _ =>
      rewrite (inc_weak_ref_eq m b cb Hb) in H; discriminate H
  | H : object_deleted ?b ?m = Undefined _, Hb : blocks _ !! ?b = Some ?cb |- _ =>
      rewrite (object_deleted_eq m b cb Hb) in H; discriminate H
  | H : dec_ref ?b ?m = Undefined _, Hb : blocks _ !! ?b = Some ?cb |- _ =>
      let Hd := fresh in
      destruct (dec_ref_live b m cb Hb) as (? & Hd & _);
      rewrite Hd in H; discriminate H
  | H : dec_weak_ref ?b ?m = Undefined _, Hb : blocks _ !! ?b = Some ?cb |- _ =>
      let Hd := fresh in
      destruct (dec_weak_ref_live b m cb Hb) as (? & Hd & _);
      rewrite Hd in H; discriminate H
  end.

Lemma nd_sp_default x : never_dangles (sp_default x).
Proof.
  apply never_dangles_intro; [intros m [] m'; apply sp_default_wf|].
  intros m Hwf H. unfold sp_default in H. uinv.
Qed.

Lemma nd_sp_raw x a ok : never_dangles (sp_raw x a ok).
Proof.
  apply never_dangles_intro; [intros m [] m'; apply sp_raw_wf|].
  intros m Hwf H. unfold sp_raw in H. uinv.
Qed.

Lemma nd_make_shared x a ok : never_dangles (make_shared x a ok).
Proof.
  apply never_dangles_intro; [intros m [] m'; apply make_shared_wf|].
  intros m Hwf H. unfold make_shared in H. uinv. minv.
  unfold inplace_get, bind, load in H. simpl in H.
  by rewrite lookup_insert_eq in H.
Qed.

Lemma nd_sp_alias x r a : never_dangles (sp_alias x r a).
Proof.
  apply never_dangles_intro; [intros m [] m'; apply sp_alias_wf|].
  intros m Hwf H. unfold sp_alias in H. uinv. minv.
  destruct (sp_block a0) as [b|] eqn:Hb; simpl in H; [|done].
  destruct (wf_strong_live m r a0 b Hwf) as (cb & Hcb & _); [done..|].
  live_call.
Qed.

(** The block a pointer of the state holds is live. *)
Ltac held_block Hwf :=
  match goal with
  | Hx : strongs ?m !! ?x = Some ?v, Hb : sp_block ?v = Some ?b |- _ =>
      let cb := fresh "cb" in let Hcb := fresh "Hcb" in
      destruct (wf_strong_live m x v b Hwf Hx Hb) as (cb & Hcb & _)
  | Hx : weaks ?m !! ?x = Some ?v, Hb : wp_block ?v = Some ?b |- _ =>
      let cb := fresh "cb" in let Hcb := fresh "Hcb" in
      destruct (wf_weak_live m x v b Hwf Hx Hb) as (cb & Hcb & _)
  end.

Lemma nd_sp_copy x o : never_dangles (sp_copy x o).
Proof.
  apply never_dangles_intro; [intros m [] m'; apply sp_copy_wf|].
  intros m Hwf H. unfold sp_copy in H. uinv. minv.
  match goal with H : if_block (sp_block ?v) _ _ = _ |- _ =>
    destruct (sp_block v) as [b|] eqn:Hb; simpl in H; [|done] end.
  held_block Hwf. live_call.
Qed.

Lemma nd_sp_convert x r cast : never_dangles (sp_convert x r cast).
Proof.
  apply never_dangles_intro; [intros m [] m'; apply sp_convert_wf|].
  intros m Hwf H. unfold sp_convert in H. uinv. minv.
  match goal with H : deref (sp_block ?v) _ _ = _ |- _ =>
    destruct (sp_block v) as [b|] eqn:Hb; simpl in H; [|done] end.
  held_block Hwf. live_call.
Qed.

Lemma nd_sp_move x o : never_dangles (sp_move x o).
Proof.
  apply never_dangles_intro; [intros m [] m'; apply sp_move_wf|].
  intros m Hwf H. unfold sp_move in H. uinv.
Qed.

Lemma nd_sp_swap x y : never_dangles (sp_swap x y).
Proof.
  apply never_dangles_intro; [intros m [] m'; apply sp_swap_wf|].
  intros m Hwf H. unfold sp_swap in H. uinv.
Qed.

Lemma nd_sp_dtor x : never_dangles (sp_dtor x).
Proof.
  apply never_dangles_intro; [intros m [] m'; apply sp_dtor_wf|].
  intros m Hwf H. unfold sp_dtor in H. uinv. minv.
  match goal with H : if_block (sp_block ?v) _ _ = _ |- _ =>
    destruct (sp_block v) as [b|] eqn:Hb; simpl in H; [|done] end.
  held_block Hwf. live_call.
Qed.

Lemma nd_wp_default x : never_dangles (wp_default x).
Proof.
  apply never_dangles_intro; [intros m [] m'; apply wp_default_wf|].
  intros m Hwf H. unfold wp_default in H. uinv.
Qed.

Lemma nd_wp_copy x o : never_dangles (wp_copy x o).
Proof.
  apply never_dangles_intro; [intros m [] m'; apply wp_copy_wf|].
  intros m Hwf H. unfold wp_copy in H. uinv. minv.
  match goal with H : if_block (wp_block ?v) _ _ = _ |- _ =>
    destruct (wp_block v) as [b|] eqn:Hb; simpl in H; [|done] end.
  held_block Hwf. live_call.
Qed.

Lemma nd_wp_from_shared x o : never_dangles (wp_from_shared x o).
Proof.
  apply never_dangles_intro; [intros m [] m'; apply wp_from_shared_wf|].
  intros m Hwf H. unfold wp_from_shared in H. uinv. minv.
  match goal with H : if_block (sp_block ?v) _ _ = _ |- _ =>
    destruct (sp_block v) as [b|] eqn:Hb; simpl in H; [|done] end.
  held_block Hwf. live_call.
Qed.

Lemma nd_wp_move x o : never_dangles (wp_move x o).
Proof.
  apply never_dangles_intro; [intros m [] m'; apply wp_move_wf|].
  intros m Hwf H. unfold wp_move in H. uinv.
Qed.

Lemma nd_wp_swap x y : never_dangles (wp_swap x y).
Proof.
  apply never_dangles_intro; [intros m [] m'; apply wp_swap_wf|].
  intros m Hwf H. unfold wp_swap in H. uinv.
Qed.

Lemma nd_wp_dtor x : never_dangles (wp_dtor x).
Proof.
  apply never_dangles_intro; [intros m [] m'; apply wp_dtor_wf|].
  intros m Hwf H. unfold wp_dtor in H. uinv. minv.
  match goal with H : if_block (wp_block ?v) _ _ = _ |- _ =>
    destruct (wp_block v) as [b|] eqn:Hb; simpl in H; [|done] end.
  held_block Hwf. live_call.
Qed.

Lemma nd_lock x r : never_dangles (lock x r).
Proof.
  apply never_dangles_intro; [intros m [] m'; apply lock_wf|].
  intros m Hwf H. unfold lock in H. uinv; minv.
  - match goal with H : match wp_block ?v with _ => _ end _ = _ |- _ =>
      destruct (wp_block v) as [b|] eqn:Hb; [|done] end.
    held_block Hwf. live_call.
  - match goal with H : match wp_block ?v with _ => _ end _ = Ret _ _ |- _ =>
      destruct (wp_block v) as [b|] eqn:Hb; [|minv] end.
    + held_block Hwf.
      match goal with H : object_deleted _ _ = Ret _ _ |- _ =>
        rewrite (object_deleted_eq _ b cb Hcb) in H; injection H as <- <- end.
      destruct (counter cb =? 0).
      * by apply place_sp_not_uaf in H.
      * uinv. simpl in H. live_call.
    + by apply place_sp_not_uaf in H.
Qed.

Create HintDb nodangle.

#[global] Hint Resolve nd_sp_default nd_sp_raw nd_make_shared nd_sp_alias
  nd_sp_copy nd_sp_convert nd_sp_move nd_sp_swap nd_sp_dtor nd_wp_default
  nd_wp_copy nd_wp_from_shared nd_wp_move nd_wp_swap nd_wp_dtor nd_lock
  never_dangles_ret : nodangle.

Ltac nodangle :=
  repeat first
    [ solve [auto with nodangle]
    | apply never_dangles_noexcept
    | apply never_dangles_bind; [|intros ?]
    | match goal with
      | |- never_dangles (if ?c then _ else _) => destruct c
      end ].

Lemma nd_step o : never_dangles (step o).
Proof.
  destruct o; cbn [step];
    try solve [auto with nodangle];
    unfold sp_nullptr, sp_copy_assign, sp_move_assign, sp_reset, sp_reset_raw,
      wp_copy_assign, wp_move_assign, wp_assign_shared;
    nodangle.
Qed.

Lemma nd_run p : never_dangles (run p).
Proof.
  induction p as [|o p IH]; cbn [run].
  - apply never_dangles_ret.
  - apply never_dangles_bind; [apply nd_step|done].
Qed.

(** Calls that run no user code never touch a control block that has been
    deleted. *)
Lemma run_not_use_after_free (p : list op) :
  run p initial ≠ Undefined UseAfterFree.
Proof.
  intros H. pose proof (nd_run p initial initial_wf) as Hnd.
  by rewrite H in Hnd.
Qed.

(** ** Weak pointers do not own *)

Lemma strong_view_kept_refl m : strong_view_kept m m.
Proof. by repeat split. Qed.

Lemma strong_view_kept_trans m1 m2 m3 :
  strong_view_kept m1 m2 → strong_view_kept m2 m3 → strong_view_kept m1 m3.
Proof.
  intros (H1 & H2 & H3) (H4 & H5 & H6). split; [congruence|].
  split; intros b; [by rewrite H5|by rewrite H6].
Qed.

Create HintDb weakly.

Lemma weakly_ret {A} (a : A) : keeps strong_view_kept (ret a).
Proof. apply keeps_ret, strong_view_kept_refl. Qed.

Lemma weakly_read_sp x : keeps strong_view_kept (read_sp x).
Proof.
  intros m. unfold read_sp.
  destruct (strongs m !! x); [apply strong_view_kept_refl|done].
Qed.

Lemma weakly_read_wp x : keeps strong_view_kept (read_wp x).
Proof.
  intros m. unfold read_wp.
  destruct (weaks m !! x); [apply strong_view_kept_refl|done].
Qed.

Lemma weakly_place_wp x v : keeps strong_view_kept (place_wp x v).
Proof.
  intros m. unfold place_wp. destruct (negb _); [done|].
  by destruct (weaks m !! x).
Qed.

Lemma weakly_write_wp x v : keeps strong_view_kept (write_wp x v).
Proof. intros m. unfold write_wp. by destruct (weaks m !! x). Qed.

Lemma weakly_end_wp x : keeps strong_view_kept (end_wp x).
Proof. intros m. unfold end_wp. by destruct (weaks m !! x). Qed.

Lemma weakly_inc_weak_ref b : keeps strong_view_kept (inc_weak_ref b).
Proof.
  intros m. destruct (blocks m !! b) as [cb|] eqn:Hb.
  - rewrite (inc_weak_ref_eq m b cb Hb).
    split; [done|]. split; [|done]. intros b0.
    unfold strong_count_of. simpl.
    destruct (decide (b0 = b)) as [->|Hne].
    + by rewrite lookup_insert_eq, Hb.
    + by rewrite lookup_insert_ne.
  - unfold_members. simpl. by rewrite Hb.
Qed.

Lemma weakly_dec_weak_ref b : keeps strong_view_kept (dec_weak_ref b).
Proof.
  intros m. destruct (blocks m !! b) as [cb|] eqn:Hb;
    [|by rewrite (dec_weak_ref_dead b m Hb)].
  destruct (decide (to_size_t (weak_counter cb - 1) = 0 ∧ counter cb = 0))
    as [[Hc Hs]|Hc].
  - rewrite (dec_weak_ref_eq_last m b cb Hb Hc Hs).
    split; [done|]. split; [|done]. intros b0.
    unfold strong_count_of. simpl.
    destruct (decide (b0 = b)) as [->|Hne].
    + by rewrite lookup_delete_eq, Hb.
    + by rewrite lookup_delete_ne.
  - rewrite (dec_weak_ref_eq_shared m b cb Hb).
    + split; [done|]. split; [|done]. intros b0.
      unfold strong_count_of. simpl.
      destruct (decide (b0 = b)) as [->|Hne].
      * by rewrite lookup_insert_eq, Hb.
      * by rewrite lookup_insert_ne.
    + destruct (decide (counter cb = 0)); [left|by right].
      intros Hz. by apply Hc.
Qed.

#[global] Hint Resolve weakly_ret weakly_read_sp weakly_read_wp weakly_place_wp
  weakly_write_wp weakly_end_wp weakly_inc_weak_ref weakly_dec_weak_ref : weakly.

Lemma weakly_step o : weak_only o = true → keeps strong_view_kept (step o).
Proof.
  destruct o; try done; intros _; cbn [step];
    unfold wp_default, wp_copy, wp_move, wp_from_shared, wp_copy_assign,
      wp_move_assign, wp_assign_shared, wp_swap, wp_dtor,
      wp_copy, wp_move, wp_from_shared, wp_swap, wp_dtor;
    keeps_with weakly strong_view_kept_trans.
Qed.

Lemma weakly_run p : forallb weak_only p = true → keeps strong_view_kept (run p).
Proof.
  induction p as [|o p IH]; cbn [run forallb]; intros H.
  - apply weakly_ret.
  - apply andb_true_iff in H as [Ho Hp].
    apply (keeps_bind _ strong_view_kept_trans); [by apply weakly_step|].
    intros _. by apply IH.
Qed.

(** Calls on weak pointers that run no user code leave the strong
    pointers, the strong counts and the payloads alone. *)
Lemma weak_only_keeps_strong_view (p : list op) (m m' : machine) :
  forallb weak_only p = true → reaches p m m' →
  strongs m' = strongs m ∧
  (∀ b, strong_count_of m' b = strong_count_of m b) ∧
  (∀ b, payload_destructions m' b = payload_destructions m b).
Proof.
  intros Hp Hrun. pose proof (weakly_run p Hp m) as Hk.
  unfold reaches in Hrun. by rewrite Hrun in Hk.
Qed.

(** ** The variant of a block is fixed at construction *)

Lemma descends_refl m : descends m m.
Proof.
  split; [lia|]. split; [eauto|]. exists []. split; [done|].
  intros b k Hin. by apply elem_of_nil in Hin.
Qed.

Lemma descends_trans m1 m2 m3 : descends m1 m2 → descends m2 m3 → descends m1 m3.
Proof.
  intros (Hn1 & Hb1 & l1 & He1 & Hl1) (Hn2 & Hb2 & l2 & He2 & Hl2).
  split; [lia|]. split.
  - intros b cb3 Hlt H3.
    destruct (Hb2 b cb3) as (cb2 & H2 & Hk2); [lia|done|].
    destruct (Hb1 b cb2) as (cb1 & H1 & Hk1); [done..|].
    exists cb1. split; [done|congruence].
  - exists (l2 ++ l1). split; [by rewrite He2, He1, app_assoc|].
    intros b k Hin Hlt. apply elem_of_app in Hin as [Hin|Hin].
    + destruct (Hl2 b k Hin) as (cb2 & H2 & Hk2); [lia|].
      destruct (Hb1 b cb2) as (cb1 & H1 & Hk1); [done..|].
      exists cb1. split; [done|congruence].
    + by apply Hl1.
Qed.

(** A step that leaves the heap, the allocator and the log alone. *)
Lemma descends_same m m' :
  blocks m' = blocks m → next_block m' = next_block m → events m' = events m →
  descends m m'.
Proof.
  intros Hb Hn He. split; [lia|]. split.
  - intros b cb' _. rewrite Hb. eauto.
  - exists []. split; [by rewrite He|].
    intros b k Hin. by apply elem_of_nil in Hin.
Qed.

(** A step that rewrites the counters of the block [b]. *)
Lemma descends_store m b cb cb' :
  blocks m !! b = Some cb → kind cb' = kind cb →
  descends m (set_blocks (<[b := cb']> (blocks m)) m).
Proof.
  intros Hb Hk. split; [simpl; lia|]. split.
  - intros b0 cb0 _. simpl. intros H0.
    apply lookup_insert_Some in H0 as [[<- <-]|[_ H0]]; eauto.
  - exists []. split; [done|].
    intros b0 k Hin. by apply elem_of_nil in Hin.
Qed.

Create HintDb variant.

Lemma variant_ret {A} (a : A) : keeps descends (ret a).
Proof. apply keeps_ret, descends_refl. Qed.

Lemma variant_throw {A} : keeps descends (@throw A).
Proof. apply keeps_throw, descends_refl. Qed.

Lemma variant_undefined {A} f : keeps descends (@undefined A f).
Proof. apply keeps_undefined. Qed.

Lemma variant_emit_deleter a : keeps descends (emit (EvDeleter a)).
Proof.
  intros m. split; [simpl; lia|]. split; [simpl; eauto|].
  exists [EvDeleter a]. split; [done|].
  intros b k Hin. apply list_elem_of_singleton in Hin. done.
Qed.

Lemma variant_new_block ok k : keeps descends (new_block ok k).
Proof.
  intros m. unfold new_block. destruct ok; [|apply descends_refl].
  split; [simpl; lia|]. split.
  - intros b cb' Hlt. simpl. intros H.
    rewrite lookup_insert_ne in H by lia. eauto.
  - exists []. split; [done|].
    intros b k' Hin. by apply elem_of_nil in Hin.
Qed.

Lemma variant_load b : keeps descends (load b).
Proof. intros m. unfold load. destruct (blocks m !! b); [apply descends_refl|done]. Qed.

Lemma variant_place_sp x v : keeps descends (place_sp x v).
Proof.
  intros m. unfold place_sp. destruct (negb _); [done|].
  destruct (strongs m !! x); [done|by apply descends_same].
Qed.

Lemma variant_read_sp x : keeps descends (read_sp x).
Proof. intros m. unfold read_sp. destruct (strongs m !! x); [apply descends_refl|done]. Qed.

Lemma variant_write_sp x v : keeps descends (write_sp x v).
Proof. intros m. unfold write_sp. destruct (strongs m !! x); [by apply descends_same|done]. Qed.

Lemma variant_end_sp x : keeps descends (end_sp x).
Proof. intros m. unfold end_sp. destruct (strongs m !! x); [by apply descends_same|done]. Qed.

Lemma variant_place_wp x v : keeps descends (place_wp x v).
Proof.
  intros m. unfold place_wp. destruct (negb _); [done|].
  destruct (weaks m !! x); [done|by apply descends_same].
Qed.

Lemma variant_read_wp x : keeps descends (read_wp x).
Proof. intros m. unfold read_wp. destruct (weaks m !! x); [apply descends_refl|done]. Qed.

Lemma variant_write_wp x v : keeps descends (write_wp x v).
Proof. intros m. unfold write_wp. destruct (weaks m !! x); [by apply descends_same|done]. Qed.

Lemma variant_end_wp x : keeps descends (end_wp x).
Proof. intros m. unfold end_wp. destruct (weaks m !! x); [by apply descends_same|done]. Qed.

Lemma variant_inc_ref b : keeps descends (inc_ref b).
Proof.
  intros m. destruct (blocks m !! b) as [cb|] eqn:Hb.
  - rewrite (inc_ref_eq m b cb Hb). by apply (descends_store m b cb).
  - unfold_members. simpl. by rewrite Hb.
Qed.

Lemma variant_inc_weak_ref b : keeps descends (inc_weak_ref b).
Proof.
  intros m. destruct (blocks m !! b) as [cb|] eqn:Hb.
  - rewrite (inc_weak_ref_eq m b cb Hb). by apply (descends_store m b cb).
  - unfold_members. simpl. by rewrite Hb.
Qed.

Lemma variant_object_deleted b : keeps descends (object_deleted b).
Proof.
  intros m. destruct (blocks m !! b) as [cb|] eqn:Hb.
  - rewrite (object_deleted_eq m b cb Hb). apply descends_refl.
  - unfold_members. simpl. by rewrite Hb.
Qed.

Lemma variant_dec_ref b : keeps descends (dec_ref b).
Proof.
  intros m. destruct (blocks m !! b) as [cb|] eqn:Hb;
    [|by rewrite (dec_ref_dead b m Hb)].
  destruct (decide (to_size_t (counter cb - 1) = 0)) as [Hc|Hc].
  - destruct (decide (weak_counter cb = 0)) as [Hw|Hw].
    + rewrite (dec_ref_eq_last m b cb Hb Hc Hw).
      split; [simpl; lia|]. split.
      * intros b0 cb0 _. simpl. intros H0.
        apply lookup_delete_Some in H0 as [_ H0]. eauto.
      * exists [EvDeleteBlock b; EvDeleteObject b (kind cb)]. split; [done|].
        intros b0 k Hin _.
        apply elem_of_cons in Hin as [Hin|Hin]; [done|].
        apply list_elem_of_singleton in Hin. injection Hin as -> ->. eauto.
    + rewrite (dec_ref_eq_last_weak m b cb Hb Hc Hw).
      split; [simpl; lia|]. split.
      * intros b0 cb0 _. simpl. intros H0.
        apply lookup_insert_Some in H0 as [[<- <-]|[_ H0]]; eauto.
      * exists [EvDeleteObject b (kind cb)]. split; [done|].
        intros b0 k Hin _.
        apply list_elem_of_singleton in Hin. injection Hin as -> ->. eauto.
  - rewrite (dec_ref_eq_shared m b cb Hb Hc). by apply (descends_store m b cb).
Qed.

Lemma variant_dec_weak_ref b : keeps descends (dec_weak_ref b).
Proof.
  intros m. destruct (blocks m !! b) as [cb|] eqn:Hb;
    [|by rewrite (dec_weak_ref_dead b m Hb)].
  destruct (decide (to_size_t (weak_counter cb - 1) = 0 ∧ counter cb = 0))
    as [[Hc Hs]|Hc].
  - rewrite (dec_weak_ref_eq_last m b cb Hb Hc Hs).
    split; [simpl; lia|]. split.
    + intros b0 cb0 _. simpl. intros H0.
      apply lookup_delete_Some in H0 as [_ H0]. eauto.
    + exists [EvDeleteBlock b]. split; [done|].
      intros b0 k Hin _. by apply list_elem_of_singleton in Hin.
  - rewrite (dec_weak_ref_eq_shared m b cb Hb).
    + by apply (descends_store m b cb).
    + destruct (decide (counter cb = 0)); [left|by right].
      intros Hz. by apply Hc.
Qed.

#[global] Hint Resolve variant_ret variant_throw variant_undefined
  variant_emit_deleter variant_new_block variant_load variant_place_sp
  variant_read_sp variant_write_sp variant_end_sp variant_place_wp
  variant_read_wp variant_write_wp variant_end_wp variant_inc_ref
  variant_inc_weak_ref variant_object_deleted variant_dec_ref
  variant_dec_weak_ref : variant.

Lemma variant_step o : keeps descends (step o).
Proof.
  destruct o; cbn [step];
    unfold sp_default, sp_nullptr, sp_raw, sp_alias, sp_copy, sp_move,
      sp_copy_assign, sp_move_assign, sp_convert, sp_swap, sp_reset,
      sp_reset_raw, sp_dtor, make_shared, inplace_get, wp_default, wp_copy,
      wp_move, wp_from_shared, wp_copy_assign, wp_move_assign,
      wp_assign_shared, wp_swap, lock, wp_dtor,
      sp_default, sp_raw, sp_copy, sp_move, sp_swap, sp_dtor,
      wp_copy, wp_move, wp_from_shared, wp_swap, wp_dtor;
    keeps_with variant descends_trans.
Qed.

Lemma variant_run p : keeps descends (run p).
Proof.
  induction p as [|o p IH]; cbn [run].
  - apply variant_ret.
  - apply (keeps_bind _ descends_trans); [apply variant_step|done].
Qed.

Lemma count_events_zero_not_in f l e :
  count_events f l = 0%nat → f e = true → e ∉ l.
Proof.
  induction l as [|e' l IH]; intros Hc He Hin; simpl in Hc.
  - by apply elem_of_nil in Hin.
  - apply elem_of_cons in Hin as [->|Hin].
    + rewrite He in Hc. lia.
    + apply IH; [lia|done..].
Qed.

(** X11.  How the payload of a block is destroyed is decided when the
    block is constructed and by nothing later: as long as the block lives
    its variant (deleter with the raw address given to the constructor, or
    in-place destructor) is unchanged, and a destruction of its payload
    uses that variant, whatever addresses aliasing, conversion or [swap]
    have put into the pointers that own it. *)
Theorem payload_destroyed_as_constructed (p q : list op) (m1 m2 : machine)
    (b : positive) (cb : control_block) :
  reaches p initial m1 → blocks m1 !! b = Some cb → 0 < counter cb →
  reaches q m1 m2 →
  (∀ cb', blocks m2 !! b = Some cb' → kind cb' = kind cb) ∧
  (∀ k, EvDeleteObject b k ∈ events m2 → k = kind cb).
Proof.
  intros Hp Hb Hpos Hq.
  pose proof (run_wf _ _ _ initial_wf Hp) as Hwf.
  pose proof (wf_next m1 Hwf b cb Hb) as Ha.
  pose proof (keeps_ret_inv _ _ _ _ _ (variant_run q) Hq)
    as (_ & Hblocks & l & He & Hl).
  split.
  - intros cb' Hb'. destruct (Hblocks b cb' Ha Hb') as (cb1 & H1 & Hk).
    congruence.
  - intros k Hin. rewrite He in Hin. apply elem_of_app in Hin as [Hin|Hin].
    + destruct (Hl b k Hin Ha) as (cb1 & H1 & Hk). congruence.
    + exfalso. revert Hin.
      apply (count_events_zero_not_in (is_delete_object b)).
      * pose proof (wf_destroyed m1 Hwf b) as Hd.
        unfold payload_destructions in Hd. rewrite Hd, Hb.
        rewrite decide_True by done.
        destruct (Z.eqb_spec (counter cb) 0); [lia|done].
      * simpl. by apply bool_decide_eq_true_2.
Qed.

Lemma payload_destroyed_as_constructed_witness :
  reaches single_owner initial single_owner_state ∧
  blocks single_owner_state !! 1%positive = Some (ControlBlock 1 0 (Regular 42)) ∧
  0 < counter (ControlBlock 1 0 (Regular 42)) ∧
  reaches alias_and_drop single_owner_state scenario_done_state ∧
  (∀ k, EvDeleteObject 1 k ∈ events scenario_done_state → k = Regular 42).
Proof.
  split; [exact reaches_single_owner|]. do 3 (split; [by vm_compute|]).
  destruct (payload_destroyed_as_constructed single_owner alias_and_drop
              single_owner_state scenario_done_state 1
              (ControlBlock 1 0 (Regular 42)))
    as (_ & H); [exact reaches_single_owner|by vm_compute..|].
  exact H.
Defined.

(** ** [make_shared] *)



(** ** [reset(new_ptr, deleter)] *)

Lemma sp_raw_ok_eq m x a :
  strongs m !! x = None → Z.pos x < SIZE_MOD →
  sp_raw x a true m =
    Ret tt (set_strongs (<[x := SharedPtr (Some (next_block m)) a]> (strongs m))
              (alloc_block (next_block m) (ControlBlock 1 0 (Regular a)) m)).
Proof.
  intros Hx Hsp. mexec. unfold set_strongs, alloc_block. simpl.
  by rewrite insert_insert_eq.
Qed.

Lemma sp_raw_failed_eq m x a :
  strongs m !! x = None → Z.pos x < SIZE_MOD →
  sp_raw x a false m =
    Terminate {| blocks := blocks m; next_block := next_block m;
                 strongs := <[x := null_sp]> (strongs m);
                 weaks := weaks m;
                 events := EvDeleter a :: events m |}.
Proof. intros Hx Hsp. by mexec. Qed.

Lemma dec_ref_next_block b m m' :
  dec_ref b m = Ret tt m' → next_block m' = next_block m.
Proof.
  intros H.
  destruct (blocks m !! b) as [cb|] eqn:Hb;
    [|by rewrite (dec_ref_dead b m Hb) in H].
  destruct (decide (to_size_t (counter cb - 1) = 0)) as [Hc|Hc].
  - destruct (decide (weak_counter cb = 0)) as [Hw|Hw].
    + rewrite (dec_ref_eq_last m b cb Hb Hc Hw) in H. by injection H as <-.
    + rewrite (dec_ref_eq_last_weak m b cb Hb Hc Hw) in H. by injection H as <-.
  - rewrite (dec_ref_eq_shared m b cb Hb Hc) in H. by injection H as <-.
Qed.

(** [dec_ref] on one block and the allocation of another commute. *)
Lemma dec_ref_alloc_other b nb ncb m :
  b ≠ nb →
  dec_ref b (alloc_block nb ncb m) = map_outcome (alloc_block nb ncb) (dec_ref b m).
Proof.
  intros Hne.
  assert (blocks (alloc_block nb ncb m) !! b = blocks m !! b) as Hl.
  { unfold alloc_block. simpl. by rewrite lookup_insert_ne. }
  destruct (blocks m !! b) as [cb|] eqn:Hb.
  - destruct (decide (to_size_t (counter cb - 1) = 0)) as [Hc|Hc].
    + destruct (decide (weak_counter cb = 0)) as [Hw|Hw].
      * rewrite (dec_ref_eq_last m b cb Hb Hc Hw),
          (dec_ref_eq_last _ b cb Hl Hc Hw).
        unfold map_outcome, alloc_block. simpl.
        by rewrite delete_insert_ne.
      * rewrite (dec_ref_eq_last_weak m b cb Hb Hc Hw),
          (dec_ref_eq_last_weak _ b cb Hl Hc Hw).
        unfold map_outcome, alloc_block. simpl.
        by rewrite insert_insert_ne.
    + rewrite (dec_ref_eq_shared m b cb Hb Hc),
        (dec_ref_eq_shared _ b cb Hl Hc).
      unfold map_outcome, alloc_block, set_blocks. simpl.
      by rewrite insert_insert_ne.
  - by rewrite (dec_ref_dead b m Hb), (dec_ref_dead b _ Hl).
Qed.

(** As long as no user code runs in between, [p.reset(q, d)] with a
    successful allocation does what destroying [p] and constructing it in
    place from [q] does; a failed allocation terminates the program before
    [p] is touched. *)
Lemma reset_raw_eq_dtor_raw (p : list op) (m : machine)
    (x tmp : positive) (vx : shared_ptr) (a : Z) :
  reaches p initial m →
  strongs m !! x = Some vx →
  strongs m !! tmp = None → Z.pos tmp < SIZE_MOD →
  sp_reset_raw x a true tmp m = (sp_dtor x ;; sp_raw x a true) m ∧
  sp_reset_raw x a false tmp m =
    Terminate {| blocks := blocks m; next_block := next_block m;
                 strongs := <[tmp := null_sp]> (strongs m);
                 weaks := weaks m;
                 events := EvDeleter a :: events m |}.
Proof.
  intros Hreach Hx Ht Hspt.
  pose proof (run_wf _ _ _ initial_wf Hreach) as Hwf.
  pose proof (wf_sp_space m Hwf x vx Hx) as Hspx.
  assert (x ≠ tmp) as Hxt by congruence.
  split.
  - unfold sp_reset_raw, noexcept, bind.
    rewrite (sp_raw_ok_eq m tmp a Ht Hspt).
    rewrite (sp_swap_eq _ tmp x (SharedPtr (Some (next_block m)) a) vx);
      [|unfold set_strongs, alloc_block; simpl;
        by rewrite ?lookup_insert_eq, ?lookup_insert_ne by done..].
    rewrite (sp_dtor_eq _ tmp vx);
      [|unfold set_strongs; simpl; by rewrite lookup_insert_ne, lookup_insert_eq].
    rewrite (sp_dtor_eq m x vx Hx).
    unfold set_strongs at 1 2 3. simpl.
    rewrite (copy_assign_store (strongs m) x tmp vx _ Hx Ht).
    match goal with
    | |- context [if_block _ dec_ref ?mm] =>
        change mm with
          (set_strongs
             (<[x := SharedPtr (Some (next_block m)) a]>
                (<[tmp := vx]>
                   (<[tmp := SharedPtr (Some (next_block m)) a]> (strongs m))))
             (alloc_block (next_block m) (ControlBlock 1 0 (Regular a)) m))
    end.
    rewrite release_set_strongs.
    destruct (sp_block vx) as [b|] eqn:Hb; simpl.
    + destruct (wf_strong_live m x vx b Hwf Hx Hb) as (cb & Hcb & _).
      pose proof (wf_next m Hwf b cb Hcb) as Ha. unfold allocated in Ha.
      rewrite dec_ref_alloc_other by lia.
      destruct (dec_ref_live b m cb Hcb) as (m' & Hdec & _).
      rewrite Hdec. unfold map_outcome, with_strongs.
      rewrite sp_raw_ok_eq;
        [|unfold set_strongs; simpl; apply lookup_delete_eq|done].
      unfold set_strongs, alloc_block. simpl.
      by rewrite (dec_ref_next_block b m m' Hdec).
    + unfold ret, with_strongs.
      rewrite sp_raw_ok_eq;
        [|unfold set_strongs; simpl; apply lookup_delete_eq|done].
      done.
  - unfold sp_reset_raw, noexcept, bind.
    by rewrite (sp_raw_failed_eq m tmp a Ht Hspt).
Qed.

(** ** [use_count()] and the owners *)

(** X14.  In a reachable state, [use_count()] of a null pointer is 0, and
    [use_count()] of a pointer with a block is the number of live strong
    pointers on that block, itself included, as long as that number fits
    an [int]. *)
Theorem use_count_is_number_of_owners (p : list op) (m : machine)
    (x : positive) (v : shared_ptr) :
  reaches p initial m → strongs m !! x = Some v →
  match sp_block v with
  | None => use_count x m = Ret 0 m
  | Some b =>
      (1 ≤ live_strong m b)%nat ∧
      (Z.of_nat (live_strong m b) ≤ INT_MAX →
       use_count x m = Ret (Z.of_nat (live_strong m b)) m)
  end.
Proof.
  intros Hreach Hx.
  pose proof (run_wf _ _ _ initial_wf Hreach) as Hwf.
  destruct (sp_block v) as [b|] eqn:Hb; [|by apply (use_count_null m x v)].
  destruct (wf_strong_live m x v b Hwf Hx Hb) as (cb & Hcb & Hpos).
  pose proof (wf_strong m Hwf b) as Hs. unfold strong_count_of in Hs.
  rewrite Hcb in Hs. split; [lia|]. intros Hle.
  rewrite (use_count_eq m x v b cb) by done.
  rewrite <- Hs, to_int_small by lia.
  rewrite to_size_t_small; [done|]. unfold INT_MAX, SIZE_MOD in *. lia.
Qed.

Lemma use_count_is_number_of_owners_witness :
  reaches owner_and_observer initial owner_and_observer_state ∧
  use_count 1 owner_and_observer_state = Ret 1 owner_and_observer_state.
Proof.
  split; [exact reaches_owner_and_observer|].
  pose proof (use_count_is_number_of_owners owner_and_observer
                owner_and_observer_state 1 (SharedPtr (Some 1%positive) 42)
                reaches_owner_and_observer) as H.
  cbv beta in H. specialize (H ltac:(by vm_compute)).
  cbn [sp_block] in H. destruct H as [_ H].
  apply H. by vm_compute.
Defined.

(** ** From an owner to an observer and back *)

(** X15.  In a reachable state, locking an observer freshly made from the
    strong pointer [o] gives a strong pointer equal to [o]: same block,
    same object address.  The observer has the same block and address, and
    the block of [o], if it has one, counts exactly one more owner and one
    more observer; nothing is destroyed or allocated. *)
Theorem lock_of_fresh_observer (p : list op) (m : machine)
    (o y r : positive) (v : shared_ptr) :
  reaches p initial m → strongs m !! o = Some v →
  weaks m !! y = None → Z.pos y < SIZE_MOD →
  strongs m !! r = None → Z.pos r < SIZE_MOD →
  ∃ m', (wp_from_shared y o ;; lock y r) m = Ret tt m' ∧
        strongs m' = <[r := v]> (strongs m) ∧
        weaks m' = <[y := WeakPtr (sp_block v) (sp_ptr v)]> (weaks m) ∧
        events m' = events m ∧ next_block m' = next_block m ∧
        match sp_block v with
        | None => blocks m' = blocks m
        | Some b =>
            ∃ cb, blocks m !! b = Some cb ∧
                  blocks m' =
                    <[b := ControlBlock (counter cb + 1) (weak_counter cb + 1)
                             (kind cb)]> (blocks m)
        end.
Proof.
  intros Hreach Ho Hy Hspy Hr Hspr.
  pose proof (run_wf _ _ _ initial_wf Hreach) as Hwf.
  unfold bind.
  destruct (sp_block v) as [b|] eqn:Hb.
  - destruct (wf_strong_live m o v b Hwf Ho Hb) as (cb & Hcb & Hpos).
    pose proof (wf_counter_bound m b cb Hwf Hcb) as (_ & Hc1 & _).
    pose proof (wf_weak_counter_bound m b cb Hwf Hcb) as (Hw0 & Hw1 & _).
    pose proof (size_fresh_in_space (strongs m) r v (wf_sp_space m Hwf) Hr Hspr).
    pose proof (size_fresh_in_space (weaks m) y null_wp (wf_wp_space m Hwf)
                  Hy Hspy).
    rewrite (wp_from_shared_eq m y o v b cb Ho Hb Hcb Hy Hspy).
    rewrite (lock_eq_live _ y (WeakPtr (Some b) (sp_ptr v)) r b
               (set_weak_counter (to_size_t (weak_counter cb + 1)) cb));
      [|simpl; by rewrite ?lookup_insert_eq..|simpl; lia|done|done].
    eexists. split; [done|]. simpl.
    rewrite insert_insert_eq, !to_size_t_small by lia.
    destruct v as [vb vp]. simpl in Hb. subst vb.
    repeat split. by exists cb.
  - pose proof (wf_sp_null m Hwf o v Ho Hb) as Hv.
    rewrite (wp_from_shared_null_eq m y o v Ho Hb Hy Hspy).
    rewrite (lock_eq_null _ y (WeakPtr None (sp_ptr v)) r);
      [|unfold set_weaks; simpl; by rewrite ?lookup_insert_eq..|done|done].
    eexists. split; [done|]. simpl.
    destruct v as [vb vp]. simpl in Hb, Hv. subst vb.
    unfold null_sp. simpl. repeat split; try done.
    all: try (by rewrite Hv).
Qed.

Lemma lock_of_fresh_observer_witness :
  ∃ m', (wp_from_shared 5 1 ;; lock 5 6) single_owner_state = Ret tt m' ∧
        strongs m' = <[6%positive := SharedPtr (Some 1%positive) 42]>
                       (strongs single_owner_state).
Proof.
  destruct (lock_of_fresh_observer single_owner single_owner_state 1 5 6
              (SharedPtr (Some 1%positive) 42) reaches_single_owner)
    as (m' & H & Hs & _); [by vm_compute..|].
  by exists m'.
Defined.

(** ** Pointers without a control block *)

(** X16.  Whatever the program, a strong pointer without a control block
    holds the null address: [get()] returns [nullptr], [operator bool] is
    false, the pointer compares equal to [nullptr] and its [use_count()]
    is 0.  (Moved-from pointers, the results of [reset()] and of a failed
    [lock()] are of this kind.) *)
Theorem empty_pointer_is_null (p : list op) (m : machine) (x : positive)
    (v : shared_ptr) :
  reaches p initial m → strongs m !! x = Some v → sp_block v = None →
  sp_get x m = Ret nullptr m ∧ operator_bool v = false ∧
  sp_eq_nullptr v = true ∧ use_count x m = Ret 0 m.
Proof.
  intros Hreach Hx Hb.
  pose proof (run_wf _ _ _ initial_wf Hreach) as Hwf.
  pose proof (wf_sp_null m Hwf x v Hx Hb) as Hp.
  split; [|split; [|split]].
  - mexec. unfold get. by rewrite Hp.
  - unfold operator_bool, get. by rewrite Hp.
  - unfold sp_eq_nullptr, get. by rewrite Hp.
  - by apply (use_count_null m x v).
Qed.

Lemma empty_pointer_is_null_witness :
  sp_get 1 moved_from_state = Ret nullptr moved_from_state.
Proof.
  destruct (empty_pointer_is_null moved_from moved_from_state 1
              null_sp) as (H & _); [by vm_compute..|exact H].
Defined.

(** ** User code that makes no calls *)

Lemma agrees_lift {A} (c : M A) : agrees (Reentrant.lift c) c.
Proof. done. Qed.

Lemma agrees_ret {A} (a : A) : agrees (Reentrant.retN a) (ret a).
Proof. done. Qed.

Lemma agrees_throw {A} : agrees (@Reentrant.throwN A) throw.
Proof. done. Qed.

Lemma agrees_bind {A B} (n : Reentrant.N A) (c : M A)
    (k : A → Reentrant.N B) (k' : A → M B) :
  agrees n c → (∀ a, agrees (k a) (k' a)) →
  agrees (Reentrant.bindN n k) (bind c k').
Proof.
  intros Hn Hk m. unfold Reentrant.bindN, bind. rewrite Hn.
  destruct (c m); try done. apply Hk.
Qed.

Lemma agrees_noexcept {A} (n : Reentrant.N A) (c : M A) :
  agrees n c → agrees (Reentrant.noexceptN n) (noexcept c).
Proof.
  intros Hn m. unfold Reentrant.noexceptN, noexcept. rewrite Hn.
  by destruct (c m).
Qed.

Lemma agrees_try_catch {A} (n h : Reentrant.N A) (c g : M A) :
  agrees n c → agrees h g →
  agrees (Reentrant.try_catchN n h) (try_catch c g).
Proof.
  intros Hn Hh m. unfold Reentrant.try_catchN, try_catch. rewrite Hn.
  destruct (c m); first [done|apply Hh].
Qed.

Lemma agrees_if_block ob (f : positive → Reentrant.N unit)
    (g : positive → M unit) :
  (∀ b, agrees (f b) (g b)) →
  agrees (Reentrant.if_blockN ob f) (if_block ob g).
Proof. intros H. destruct ob; [apply H|done]. Qed.

(** A [noexcept] around code that never throws changes nothing. *)
Lemma agrees_noexcept_id {A} (n : Reentrant.N A) (c : M A) :
  agrees n c → (∀ m m', c m ≠ Throw m') →
  agrees (Reentrant.noexceptN n) c.
Proof.
  intros Hn Hc m. unfold Reentrant.noexceptN. rewrite Hn.
  destruct (c m) eqn:E; try done. by destruct (Hc m m0).
Qed.

Lemma sp_dtor_no_throw x m m' : sp_dtor x m ≠ Throw m'.
Proof.
  unfold sp_dtor, bind, read_sp.
  destruct (strongs m !! x) as [v|]; [|done].
  destruct (release_outcome (sp_block v) m) as [(m1 & -> & _)| -> ]; [|done].
  unfold end_sp. by destruct (strongs m1 !! x).
Qed.

Lemma wp_dtor_no_throw x m m' : wp_dtor x m ≠ Throw m'.
Proof.
  unfold wp_dtor, bind, read_wp.
  destruct (weaks m !! x) as [v|]; [|done].
  destruct (release_weak_outcome (wp_block v) m) as [(m1 & -> & _)| -> ];
    [|done].
  unfold end_wp. by destruct (weaks m1 !! x).
Qed.

Create HintDb agree.

#[global] Hint Resolve agrees_lift agrees_ret agrees_throw : agree.

(** Takes a call that runs user code apart, along the call without user
    code that it is compared with. *)
Ltac agree :=
  repeat first
    [ solve [auto with agree]
    | apply agrees_noexcept
    | apply agrees_try_catch
    | apply agrees_if_block; intros ?
    | apply agrees_bind; [|intros ?]
    | progress cbv zeta
    | match goal with
      | |- agrees (if ?c then _ else _) _ => destruct c
      | |- agrees (match ?k with Regular _ => _ | Inplace _ => _ end) _ =>
          destruct k
      end ].

Section quiet_deleters.

Variable U : user.
Variable exec : list op → Reentrant.N unit.
Hypothesis deleters_quiet : ∀ a, on_delete_this U a = [].
Hypothesis exec_nil : agrees (exec []) (ret tt).

Lemma agrees_delete_this b :
  agrees (Reentrant.delete_this U exec b) (delete_this b).
Proof.
  intros m. unfold Reentrant.delete_this, Reentrant.bindN, Reentrant.lift,
    Reentrant.noexceptN, Reentrant.retN, load, delete_this.
  destruct (blocks m !! b) as [cb|] eqn:Hb; [|done].
  destruct (kind cb); rewrite ?deleters_quiet, ?exec_nil;
    unfold ret, Reentrant.lift; simpl; by rewrite Hb.
Qed.

#[local] Hint Resolve agrees_delete_this : agree.

Lemma agrees_dec_weak_ref b :
  agrees (Reentrant.dec_weak_ref U exec b) (dec_weak_ref b).
Proof. unfold Reentrant.dec_weak_ref, dec_weak_ref. agree. Qed.

#[local] Hint Resolve agrees_dec_weak_ref : agree.

Lemma agrees_wp_dtor x : agrees (Reentrant.wp_dtor U exec x) (wp_dtor x).
Proof.
  apply agrees_noexcept_id; [|apply wp_dtor_no_throw].
  unfold wp_dtor. agree.
Qed.

#[local] Hint Resolve agrees_wp_dtor : agree.

(** The calls on weak pointers only ever run the destructor of a
    deleter. *)
Lemma agrees_weak_step o :
  weak_only o = true → agrees (Reentrant.step U exec o) (step o).
Proof.
  destruct o; try discriminate; intros _; cbn [Reentrant.step step];
    try apply agrees_lift; auto with agree.
  - unfold Reentrant.wp_copy_assign, wp_copy_assign. agree.
  - unfold Reentrant.wp_move_assign, wp_move_assign. agree.
  - unfold Reentrant.wp_assign_shared, wp_assign_shared. agree.
Qed.

Lemma agrees_weak_run_with p :
  forallb weak_only p = true → agrees (Reentrant.run_with U exec p) (run p).
Proof.
  induction p as [|o p IH]; [done|].
  cbn [forallb]. intros [Ho Hp]%andb_prop.
  cbn [Reentrant.run_with run].
  apply agrees_bind; [by apply agrees_weak_step|intros _; by apply IH].
Qed.

End quiet_deleters.

Section quiet.

Variable U : user.
Variable exec : list op → Reentrant.N unit.
Hypothesis U_quiet : quiet U.
Hypothesis exec_nil : agrees (exec []) (ret tt).

Lemma agrees_construct b k :
  agrees (Reentrant.construct U exec b k) (ret tt).
Proof.
  destruct U_quiet as (Hc & _ & _).
  intros m. unfold Reentrant.construct, Reentrant.try_catchN.
  by rewrite Hc, exec_nil.
Qed.

Lemma agrees_delete_object b :
  agrees (Reentrant.delete_object U exec b) (delete_object b).
Proof.
  destruct U_quiet as (_ & Hd & _).
  intros m. unfold Reentrant.delete_object, delete_object,
    Reentrant.bindN, Reentrant.lift, bind.
  destruct (load b m) as [cb m1| | |]; try done.
  destruct (emit (EvDeleteObject b (kind cb)) m1) as [[] m2| | |] eqn:E;
    try done.
  destruct (kind cb); unfold Reentrant.noexceptN; by rewrite Hd, exec_nil.
Qed.

Lemma agrees_delete_this_quiet b :
  agrees (Reentrant.delete_this U exec b) (delete_this b).
Proof. apply agrees_delete_this; [apply U_quiet|done]. Qed.

Lemma agrees_dec_weak_ref_quiet b :
  agrees (Reentrant.dec_weak_ref U exec b) (dec_weak_ref b).
Proof. apply agrees_dec_weak_ref; [apply U_quiet|done]. Qed.

Lemma agrees_wp_dtor_quiet x :
  agrees (Reentrant.wp_dtor U exec x) (wp_dtor x).
Proof. apply agrees_wp_dtor; [apply U_quiet|done]. Qed.

#[local] Hint Resolve agrees_construct agrees_delete_object
  agrees_delete_this_quiet agrees_dec_weak_ref_quiet
  agrees_wp_dtor_quiet : agree.

Lemma agrees_dec_ref b : agrees (Reentrant.dec_ref U exec b) (dec_ref b).
Proof. unfold Reentrant.dec_ref, dec_ref. agree. Qed.

#[local] Hint Resolve agrees_dec_ref : agree.

Lemma agrees_sp_dtor x : agrees (Reentrant.sp_dtor U exec x) (sp_dtor x).
Proof.
  apply agrees_noexcept_id; [|apply sp_dtor_no_throw].
  unfold sp_dtor. agree.
Qed.

#[local] Hint Resolve agrees_sp_dtor : agree.

Lemma agrees_construct_then {A} b k (n : Reentrant.N A) (c : M A) :
  agrees n c →
  agrees (Reentrant.bindN (Reentrant.construct U exec b k) (λ _, n)) c.
Proof.
  intros Hn m. unfold Reentrant.bindN. rewrite agrees_construct. apply Hn.
Qed.

Lemma agrees_deleter_then {A} k (n : Reentrant.N A) (c : M A) :
  agrees n c →
  agrees (Reentrant.bindN (exec (on_delete_object U k)) (λ _, n)) c.
Proof.
  destruct U_quiet as (_ & Hd & _).
  intros Hn m. unfold Reentrant.bindN. rewrite Hd, exec_nil. apply Hn.
Qed.

Lemma agrees_sp_raw x a ok :
  agrees (Reentrant.sp_raw U exec x a ok) (sp_raw x a ok).
Proof.
  unfold Reentrant.sp_raw, sp_raw.
  apply agrees_noexcept, agrees_bind; [apply agrees_lift|intros _].
  apply agrees_try_catch.
  - apply agrees_bind; [apply agrees_lift|intros b].
    apply agrees_construct_then, agrees_lift.
  - apply agrees_bind; [apply agrees_lift|intros _].
    apply agrees_deleter_then, agrees_throw.
Qed.

Lemma agrees_make_shared r a ok :
  agrees (Reentrant.make_shared U exec r a ok) (make_shared r a ok).
Proof.
  unfold Reentrant.make_shared, make_shared.
  apply agrees_bind; [apply agrees_lift|intros b].
  apply agrees_construct_then.
  apply agrees_bind; [apply agrees_lift|intros a'; apply agrees_lift].
Qed.

#[local] Hint Resolve agrees_sp_raw agrees_make_shared : agree.

Lemma agrees_step o : agrees (Reentrant.step U exec o) (step o).
Proof.
  destruct o; cbn [Reentrant.step step]; try apply agrees_lift;
    auto with agree.
  - unfold Reentrant.sp_copy_assign, sp_copy_assign. agree.
  - unfold Reentrant.sp_move_assign, sp_move_assign. agree.
  - unfold Reentrant.sp_reset, sp_reset. agree.
  - unfold Reentrant.sp_reset_raw, sp_reset_raw. agree.
  - unfold Reentrant.wp_copy_assign, wp_copy_assign. agree.
  - unfold Reentrant.wp_move_assign, wp_move_assign. agree.
  - unfold Reentrant.wp_assign_shared, wp_assign_shared. agree.
Qed.

Lemma agrees_run_with p : agrees (Reentrant.run_with U exec p) (run p).
Proof.
  induction p as [|o p IH]; [done|].
  cbn [Reentrant.run_with run]. apply agrees_bind; [apply agrees_step|done].
Qed.

End quiet.

(** With user code that makes no calls, the calls that run user code do
    what the calls without user code do, at every depth. *)
Lemma agrees_run U d p : quiet U → agrees (Reentrant.run U (S d) p) (run p).
Proof. intros HU. apply agrees_run_with; [done|apply run_nil]. Qed.

Lemma quiet_no_calls : quiet no_calls.
Proof. by repeat split. Qed.


Lemma agrees_weak_run U d p :
  (∀ a, on_delete_this U a = []) → forallb weak_only p = true →
  agrees (Reentrant.run U (S d) p) (run p).
Proof. intros HU Hp. apply agrees_weak_run_with; [done|apply run_nil|done]. Qed.

(** A program of one or two calls. *)
Lemma run_one o m : run [o] m = step o m.
Proof. cbn [run]. unfold bind, ret. by destruct (step o m) as [[] ?| | |]. Qed.

Lemma run_two o1 o2 m : run [o1; o2] m = (step o1 ;; step o2) m.
Proof.
  change (run [o1; o2]) with (step o1 ;; run [o2]). unfold bind.
  destruct (step o1 m); try done. apply run_one.
Qed.

(** ** Assignment and [reset] are destroy-then-construct for quiet user code *)

(** The library constructs the new value first and releases the old one
    last.  When the code that the release runs makes no call of the
    library, the other order gives the same result. *)

(** X3.  When the deleters and the payloads make no call of the library,
    [p.reset()] ends as destroying [p] and default-constructing it again
    in place would, whatever the outcome of the release; when it returns,
    [p] is null, its [use_count()] is 0 and the temporary is gone.  The
    order of the code matters as soon as the payload owns pointers: for a
    node that owns itself through its member [next], [next.reset()]
    returns with the node destroyed, while destroying [next] first
    destroys it a second time from the destructor of the node. *)
Theorem reset_is_destroy_then_default (U : user) (d : nat) (m : machine)
    (x tmp : positive) (v : shared_ptr) :
  quiet U →
  strongs m !! x = Some v → Z.pos x < SIZE_MOD →
  strongs m !! tmp = None → Z.pos tmp < SIZE_MOD →
  (∃ r, Reentrant.run U (S d) [SpReset x tmp] m = Some r ∧
        Reentrant.run U (S d) [SpDtor x; SpDefault x] m = Some r) ∧
  (∀ m', Reentrant.run U (S d) [SpReset x tmp] m = Some (Ret tt m') →
     strongs m' = <[x := null_sp]> (strongs m) ∧
     weaks m' = weaks m ∧
     use_count x m' = Ret 0 m') ∧
  Reentrant.run list_nodes (S (S d)) [SpReset 10 3] self_owner_state
    = Some (Ret tt {| blocks := ∅; next_block := 2%positive;
                      strongs := {[20%positive := null_sp]};
                      weaks := ∅;
                      events := [EvDeleteBlock 1;
                                 EvDeleteObject 1 (Regular 100)] |}) ∧
  Reentrant.run list_nodes (S (S (S d))) [SpDtor 10; SpDefault 10]
      self_owner_state
    = Some (Undefined NoSuchObject).
Proof.
  intros HU Hx Hspx Ht Hspt.
  destruct (reset_eq_dtor_default m x tmp v Hx Hspx Ht Hspt) as [Heq Hret].
  rewrite !(agrees_run U d _ HU), run_one, run_two. cbn [step].
  split; [exists (sp_reset x tmp m); by rewrite Heq|].
  split; [|split; by vm_compute].
  intros m' [= H]. by apply Hret.
Qed.

Lemma reset_is_destroy_then_default_witness :
  quiet no_calls ∧
  ∃ r, Reentrant.run no_calls 1 [SpReset 1 2] owner_and_observer_state
         = Some r ∧
       Reentrant.run no_calls 1 [SpDtor 1; SpDefault 1]
           owner_and_observer_state
         = Some r.
Proof.
  split; [exact quiet_no_calls|].
  destruct (reset_is_destroy_then_default no_calls 0 owner_and_observer_state
              1 2 (SharedPtr (Some 1%positive) 42) quiet_no_calls)
    as (H & _); [by vm_compute..|].
  exact H.
Defined.

(** X4.  When the deleters and the payloads make no call of the library,
    move assignment [p = std::move(q)] from a different pointer ends as
    destroying [p] and move-constructing it from [q] in place would; when
    it returns, [p] holds the members of [q], [q] is null and no other
    pointer has changed.  The order of the code matters as soon as the
    payload owns pointers: with a list of two nodes,
    [head = std::move(head->next)] returns with [head] on the second node,
    while destroying [head] first destroys [head->next] with it. *)
Theorem move_assignment_is_destroy_then_move (U : user) (d : nat)
    (m : machine) (x o tmp : positive) (vx vo : shared_ptr) :
  quiet U →
  strongs m !! x = Some vx → strongs m !! o = Some vo → x ≠ o →
  Z.pos x < SIZE_MOD →
  strongs m !! tmp = None → Z.pos tmp < SIZE_MOD →
  (∃ r, Reentrant.run U (S d) [SpMoveAssign x o tmp] m = Some r ∧
        Reentrant.run U (S d) [SpDtor x; SpMove x o] m = Some r) ∧
  (∀ m', Reentrant.run U (S d) [SpMoveAssign x o tmp] m = Some (Ret tt m') →
     strongs m' = <[o := null_sp]> (<[x := vo]> (strongs m)) ∧
     weaks m' = weaks m) ∧
  Reentrant.run list_nodes (S (S d)) [SpMoveAssign 1 10 3] two_nodes_state
    = Some (Ret tt second_node_state) ∧
  Reentrant.run list_nodes (S (S (S d))) [SpDtor 1; SpMove 1 10]
      two_nodes_state
    = Some (Undefined NoSuchObject).
Proof.
  intros HU Hx Ho Hne Hspx Ht Hspt.
  destruct (move_assign_eq_dtor_move m x o tmp vx vo Hx Ho Hne Hspx Ht Hspt)
    as [Heq Hrel].
  rewrite !(agrees_run U d _ HU), run_one, run_two. cbn [step].
  split; [exists (sp_move_assign x o tmp m); by rewrite Heq|].
  split; [|split; by vm_compute].
  intros m' [= H]. rewrite Hrel in H.
  destruct (release_outcome (sp_block vx) m) as [(m1 & Hr & _ & Hw)|Hr];
    rewrite Hr in H; [|done].
  injection H as <-. unfold set_strongs. simpl.
  by rewrite insert_delete_eq.
Qed.

Lemma move_assignment_is_destroy_then_move_witness :
  quiet no_calls ∧
  ∃ r, Reentrant.run no_calls 1 [SpMoveAssign 1 2 3] two_blocks_state
         = Some r ∧
       Reentrant.run no_calls 1 [SpDtor 1; SpMove 1 2] two_blocks_state
         = Some r.
Proof.
  split; [exact quiet_no_calls|].
  destruct (move_assignment_is_destroy_then_move no_calls 0 two_blocks_state
              1 2 3 (SharedPtr (Some 1%positive) 42)
              (SharedPtr (Some 2%positive) 43) quiet_no_calls)
    as (H & _); [by vm_compute..|].
  exact H.
Defined.

(** X5.  When the deleters and the payloads make no call of the library,
    copy assignment [p = q] from a different pointer ends, in every state
    that a program reaches, as destroying [p] and copy-constructing it
    from [q] in place would, also when [p] and [q] share a block or [p] is
    the last owner of its block; it returns, [p] then holds the members of
    [q], and no other pointer has changed.  The order of the code matters
    as soon as the payload owns pointers: with a list of two nodes,
    [head = head->next] returns with [head] on the second node, while
    destroying [head] first destroys [head->next] with it, and the copy
    then reads a pointer that is gone. *)
Theorem copy_assignment_is_destroy_then_copy (U : user) (d : nat)
    (p : list op) (m : machine) (x o tmp : positive) (vx vo : shared_ptr) :
  quiet U →
  Reentrant.run U (S d) p initial = Some (Ret tt m) →
  strongs m !! x = Some vx → strongs m !! o = Some vo → x ≠ o →
  strongs m !! tmp = None → Z.pos tmp < SIZE_MOD →
  (∃ m', Reentrant.run U (S d) [SpCopyAssign x o tmp] m = Some (Ret tt m') ∧
         Reentrant.run U (S d) [SpDtor x; SpCopy x o] m = Some (Ret tt m') ∧
         strongs m' = <[x := vo]> (strongs m) ∧ weaks m' = weaks m) ∧
  Reentrant.run list_nodes (S (S d)) [SpCopyAssign 1 10 3] two_nodes_state
    = Some (Ret tt second_node_state) ∧
  Reentrant.run list_nodes (S (S (S d))) [SpDtor 1; SpCopy 1 10]
      two_nodes_state
    = Some (Undefined NoSuchObject).
Proof.
  intros HU Hrun Hx Ho Hne Ht Hspt.
  rewrite (agrees_run U d p HU) in Hrun. injection Hrun as Hrun.
  destruct (copy_assign_eq_dtor_copy p m x o tmp vx vo Hrun Hx Ho Hne Ht Hspt)
    as (Heq & m' & Hret & Hs & Hw).
  rewrite !(agrees_run U d _ HU), run_one, run_two. cbn [step].
  split; [|split; by vm_compute].
  exists m'. by rewrite <- Heq, Hret.
Qed.

Lemma copy_assignment_is_destroy_then_copy_witness :
  quiet no_calls ∧
  Reentrant.run no_calls 1 two_blocks initial = Some (Ret tt two_blocks_state) ∧
  ∃ m', Reentrant.run no_calls 1 [SpCopyAssign 1 2 3] two_blocks_state
          = Some (Ret tt m') ∧
        Reentrant.run no_calls 1 [SpDtor 1; SpCopy 1 2] two_blocks_state
          = Some (Ret tt m') ∧
        strongs m' !! 1%positive = Some (SharedPtr (Some 2%positive) 43).
Proof.
  split; [exact quiet_no_calls|]. split; [by vm_compute|].
  destruct (copy_assignment_is_destroy_then_copy no_calls 0 two_blocks
              two_blocks_state 1 2 3 (SharedPtr (Some 1%positive) 42)
              (SharedPtr (Some 2%positive) 43) quiet_no_calls)
    as ((m' & H1 & H2 & Hs & _) & _); [by vm_compute..|].
  exists m'. split; [exact H1|]. split; [exact H2|].
  rewrite Hs. apply lookup_insert_eq.
Defined.

(** X13.  When the deleters and the payloads make no call of the library,
    [p.reset(q, d)] with a successful allocation ends, in every state that
    a program reaches, as destroying [p] and constructing it in place from
    [q] would.  With a failed allocation the deleter is called on [q] and
    the program is terminated (the constructor of the temporary is
    [noexcept]) before [p] is touched: [p] still holds its old block, whose
    counters are unchanged.  The order of the code matters as soon as the
    payload owns pointers: for a node that owns itself through its member
    [next], [next.reset(q)] returns with both nodes destroyed, while
    destroying [next] first destroys it a second time from the destructor
    of the node. *)
Theorem reset_raw_is_destroy_then_construct (U : user) (d : nat)
    (p : list op) (m : machine) (x tmp : positive) (vx : shared_ptr) (a : Z) :
  quiet U →
  Reentrant.run U (S d) p initial = Some (Ret tt m) →
  strongs m !! x = Some vx →
  strongs m !! tmp = None → Z.pos tmp < SIZE_MOD →
  (∃ r, Reentrant.run U (S d) [SpResetRaw x a true tmp] m = Some r ∧
        Reentrant.run U (S d) [SpDtor x; SpRaw x a true] m = Some r) ∧
  Reentrant.run U (S d) [SpResetRaw x a false tmp] m
    = Some (Terminate {| blocks := blocks m; next_block := next_block m;
                         strongs := <[tmp := null_sp]> (strongs m);
                         weaks := weaks m;
                         events := EvDeleter a :: events m |}) ∧
  Reentrant.run list_nodes (S (S (S d))) [SpResetRaw 10 200 true 3]
      self_owner_state
    = Some (Ret tt {| blocks := ∅; next_block := 3%positive;
                      strongs := ∅; weaks := ∅;
                      events := [EvDeleteBlock 1; EvDeleteBlock 2;
                                 EvDeleteObject 2 (Regular 200);
                                 EvDeleteObject 1 (Regular 100)] |}) ∧
  Reentrant.run list_nodes (S (S (S d))) [SpDtor 10; SpRaw 10 200 true]
      self_owner_state
    = Some (Undefined NoSuchObject).
Proof.
  intros HU Hrun Hx Ht Hspt.
  rewrite (agrees_run U d p HU) in Hrun. injection Hrun as Hrun.
  destruct (reset_raw_eq_dtor_raw p m x tmp vx a Hrun Hx Ht Hspt)
    as (Heq & Hfail).
  rewrite !(agrees_run U d _ HU), !run_one, run_two. cbn [step].
  split; [exists (sp_reset_raw x a true tmp m); by rewrite Heq|].
  split; [by rewrite Hfail|].
  split; by vm_compute.
Qed.

Lemma reset_raw_is_destroy_then_construct_witness :
  quiet no_calls ∧
  Reentrant.run no_calls 1 single_owner initial
    = Some (Ret tt single_owner_state) ∧
  ∃ r, Reentrant.run no_calls 1 [SpResetRaw 1 43 true 2] single_owner_state
         = Some r ∧
       Reentrant.run no_calls 1 [SpDtor 1; SpRaw 1 43 true] single_owner_state
         = Some r.
Proof.
  split; [exact quiet_no_calls|]. split; [by vm_compute|].
  destruct (reset_raw_is_destroy_then_construct no_calls 0 single_owner
              single_owner_state 1 2 (SharedPtr (Some 1%positive) 42) 43
              quiet_no_calls)
    as (H & _); [by vm_compute..|].
  exact H.
Defined.

(** ** What holds of every program with quiet user code *)

(** X8.  When the deleters and the payloads make no call of the library,
    in every state that a program reaches no pointer dangles and nothing
    has leaked: a strong or weak pointer that holds a control block holds
    a live one, a pointer without a block stores [nullptr], and once no
    pointer object is left the heap is empty and every block that was ever
    allocated has had its payload destroyed exactly once and has been
    deleted exactly once, in that order. *)
Theorem no_dangling_no_leak (U : user) (d : nat) (p : list op)
    (m : machine) :
  quiet U →
  Reentrant.run U (S d) p initial = Some (Ret tt m) →
  (∀ x v b, strongs m !! x = Some v → sp_block v = Some b →
     ∃ cb, blocks m !! b = Some cb ∧ 0 < counter cb) ∧
  (∀ x w b, weaks m !! x = Some w → wp_block w = Some b →
     ∃ cb, blocks m !! b = Some cb ∧ 0 < weak_counter cb) ∧
  (∀ x v, strongs m !! x = Some v → sp_block v = None → get v = nullptr) ∧
  (strongs m = ∅ → weaks m = ∅ →
     blocks m = ∅ ∧
     ∀ b, allocated m b →
       payload_destructions m b = 1%nat ∧ block_deletions m b = 1%nat ∧
       payload_first b (events m)).
Proof.
  intros HU Hrun.
  rewrite (agrees_run U d p HU) in Hrun. injection Hrun as Hrun.
  by apply (reachable_no_dangling_no_leak p).
Qed.

Lemma no_dangling_no_leak_witness :
  quiet no_calls ∧
  Reentrant.run no_calls 1 scenario_done initial
    = Some (Ret tt scenario_done_state) ∧
  blocks scenario_done_state = ∅ ∧
  payload_destructions scenario_done_state 1 = 1%nat ∧
  block_deletions scenario_done_state 1 = 1%nat.
Proof.
  split; [exact quiet_no_calls|]. split; [by vm_compute|].
  destruct (no_dangling_no_leak no_calls 0 scenario_done scenario_done_state
              quiet_no_calls)
    as (_ & _ & _ & H); [by vm_compute|].
  destruct H as (Hb & Hall); [done..|].
  split; [exact Hb|].
  destruct (Hall 1%positive) as (Hp & Hd & _); [by vm_compute|].
  by split.
Defined.

(** X9.  When the deleters and the payloads make no call of the library,
    no program makes the library touch a control block that has been
    deleted: every member call on a block goes through a pointer whose
    block is still allocated.  (The precondition is needed: a payload
    that holds the last weak pointer on its own block has its block
    deleted under [dec_ref].) *)
Theorem no_use_after_free (U : user) (d : nat) (p : list op) :
  quiet U →
  Reentrant.run U (S d) p initial ≠ Some (Undefined UseAfterFree).
Proof.
  intros HU. rewrite (agrees_run U d p HU). intros [= H].
  by apply (run_not_use_after_free p).
Qed.

Lemma no_use_after_free_witness :
  quiet no_calls ∧
  Reentrant.run no_calls 1 scenario_done initial
    ≠ Some (Undefined UseAfterFree).
Proof.
  split; [exact quiet_no_calls|].
  exact (no_use_after_free no_calls 0 scenario_done quiet_no_calls).
Defined.

(** X10.  Weak pointers do not own, as long as no deleter owns pointers of
    the library (the destructor of a deleter is the only user code that a
    call on a weak pointer can run): whatever the payloads do in their
    destructors, whatever sequence of weak-pointer constructions, copies,
    moves, assignments, swaps and destructions is run, from any state, the
    strong pointers, every strong count and the number of payload
    destructions are what they were. *)
Theorem weak_operations_do_not_own (U : user) (d : nat) (p : list op)
    (m m' : machine) :
  (∀ a, on_delete_this U a = []) →
  forallb weak_only p = true →
  Reentrant.run U (S d) p m = Some (Ret tt m') →
  strongs m' = strongs m ∧
  (∀ b, strong_count_of m' b = strong_count_of m b) ∧
  (∀ b, payload_destructions m' b = payload_destructions m b).
Proof.
  intros HU Hp Hrun.
  rewrite (agrees_weak_run U d p HU Hp) in Hrun. injection Hrun as Hrun.
  by apply (weak_only_keeps_strong_view p).
Qed.

Lemma weak_operations_do_not_own_witness :
  on_delete_this self_observer 42 = [] ∧
  Reentrant.run self_observer 1 [WpCopy 2 1; WpSwap 1 2]
      owner_and_observer_state
    = Some (Ret tt observed_twice_state) ∧
  strongs observed_twice_state = strongs owner_and_observer_state ∧
  strong_count_of observed_twice_state 1
    = strong_count_of owner_and_observer_state 1.
Proof.
  split; [done|]. split; [by vm_compute|].
  destruct (weak_operations_do_not_own self_observer 0
              [WpCopy 2 1; WpSwap 1 2]
              owner_and_observer_state observed_twice_state)
    as (H & Hc & _); [done|by vm_compute..|].
  split; [exact H|apply Hc].
Defined.
